(** * Verification of the exploration mode of factif-ai

    A shallow embedding of the tag parser ([MessagePatterns.parseMessage]),
    of the exploration bookkeeping of the [useExploreChat] hook (graph,
    frontier queue, visited routes, admission guard) and of the retry loop of
    [ExploreModeAnthropicProvider.streamResponse], with the properties the
    specification states about them.  It goes on with the callbacks of the
    hook, the page router of the provider, the Docker VNC service, the screen
    stream, the URL bar of the preview and the reader of the chat stream with
    its connection timer.  The models come first, the facts and the theorems
    after them.

    Strings: a JavaScript string is a sequence of UTF-16 code units.  The
    model uses Rocq's [string]; one [ascii] stands for one code unit below
    256.  Every tag of the grammar is ASCII. *)

From Stdlib Require Import String Ascii List Arith NArith Bool Lia DecimalString.
From stdpp Require Import base option list gmap strings.

Import ListNotations.
Set Warnings "-register-all,-clear-no-such-hyp".

(** Appending to a literal exposes its characters; characters are compared
    by computation only. *)
#[local] Arguments String.append !s1 s2 : simpl nomatch.
#[local] Arguments Ascii.eqb : simpl never.

(** ** JavaScript string primitives used by the sources *)

Module JS.

(** [WhiteSpace] and [LineTerminator] code units below 256: TAB, LF, VT, FF,
    CR, SP and NBSP.  Both [String.prototype.trim] and the regular-expression
    class [\s] use this set. *)
Definition is_white_space (c : ascii) : bool :=
  match nat_of_ascii c with
  | 9 | 10 | 11 | 12 | 13 | 32 | 160 => true
  | _ => false
  end.

(** [needle] is read first, so the test computes on a known needle even when
    the subject ends in an unknown string. *)
Fixpoint startsWith (needle s : string) : bool :=
  match needle with
  | EmptyString => true
  | String a needle' =>
      match s with
      | EmptyString => false
      | String b s' => Ascii.eqb a b && startsWith needle' s'
      end
  end.

Fixpoint sdrop (n : nat) (s : string) : string :=
  match n with
  | 0 => s
  | S n' => match s with EmptyString => EmptyString | String _ s' => sdrop n' s' end
  end.

Fixpoint stake (n : nat) (s : string) : string :=
  match n with
  | 0 => EmptyString
  | S n' => match s with EmptyString => EmptyString | String a s' => String a (stake n' s') end
  end.

(** [s.slice(from)] and [s.slice(from, to)] for non-negative indices. *)
Definition slice_from (s : string) (from : nat) : string := sdrop from s.
Definition slice (s : string) (from to : nat) : string := stake (to - from) (sdrop from s).

(** [s.indexOf(needle)]: [None] stands for -1. *)
Fixpoint indexOf (needle s : string) : option nat :=
  if startsWith needle s then Some 0
  else match s with
       | EmptyString => None
       | String _ s' => S <$> indexOf needle s'
       end.

(** [s.indexOf(needle, from)]: the start position is clamped to the length. *)
Definition indexOfFrom (needle s : string) (from : nat) : option nat :=
  let from' := Nat.min from (String.length s) in
  (fun i => from' + i) <$> indexOf needle (sdrop from' s).

Definition includes (s needle : string) : bool :=
  match indexOf needle s with Some _ => true | None => false end.

Fixpoint trimStart (s : string) : string :=
  match s with
  | EmptyString => EmptyString
  | String c s' => if is_white_space c then trimStart s' else s
  end.

Fixpoint trimEnd (s : string) : string :=
  match s with
  | EmptyString => EmptyString
  | String c s' =>
      match trimEnd s' with
      | EmptyString => if is_white_space c then EmptyString else String c EmptyString
      | t => String c t
      end
  end.

Definition trim (s : string) : string := trimEnd (trimStart s).

(** Predicates on texts, for the statements below. *)

Fixpoint sforall (P : ascii -> bool) (s : string) : bool :=
  match s with
  | EmptyString => true
  | String c s' => P c && sforall P s'
  end.

(** Only white space. *)
Definition blank (s : string) : bool := sforall is_white_space s.

(** No ['<']: the text cannot hold a tag. *)
Definition plain (s : string) : bool := sforall (fun c => negb (Ascii.eqb c "<")) s.

(** The text begins with white space. *)
Definition ws_head (s : string) : bool :=
  match s with
  | String c _ => is_white_space c
  | EmptyString => false
  end.

(** The text is not empty and its last character is not white space. *)
Fixpoint last_visible (s : string) : bool :=
  match s with
  | EmptyString => false
  | String c EmptyString => negb (is_white_space c)
  | String _ s' => last_visible s'
  end.

(** [needle] starts at no position of [pre] in [pre +:+ s]. *)
Fixpoint absent_in (needle pre s : string) : bool :=
  match pre with
  | EmptyString => true
  | String c pre' => negb (startsWith needle (pre +:+ s)) && absent_in needle pre' s
  end.

(** Truthiness of a string: the empty string is falsy. *)
Definition truthy (s : string) : bool :=
  match s with EmptyString => false | String _ _ => true end.

(** A computation that may throw. *)
Inductive completion (A : Type) : Type :=
| Normal (a : A)
| Throw (e : string).
Arguments Normal {A} a.
Arguments Throw {A} e.

Definition bind {A B} (c : completion A) (f : A -> completion B) : completion B :=
  match c with
  | Normal a => f a
  | Throw e => Throw e
  end.

End JS.

(** ** Backtracking regular expressions

    The fragment of ECMAScript regular expressions that the four patterns of
    [MessagePatterns.patterns] use, with the backtracking semantics of the
    language: alternatives are tried left to right, a greedy quantifier tries
    the longest repetition first, a lazy one the shortest, and the first
    overall success wins.  Quantifiers are only ever applied to a character
    class in the sources. *)

Module Regex.
Import JS.

Inductive cclass : Type :=
| CAny    (** [.] under the [s] flag, and [[\s\S]] *)
| CSpace. (** [[\s\n]], which is [\s] *)

Definition cc_match (c : cclass) (a : ascii) : bool :=
  match c with
  | CAny => true
  | CSpace => is_white_space a
  end.

Inductive regex : Type :=
| RLit (l : string)             (** a literal sequence of characters *)
| RStar (c : cclass)            (** [c*], greedy *)
| RLazy (c : cclass)            (** [c*?], lazy *)
| RSeq (r1 r2 : regex)
| RAlt (r1 r2 : regex)          (** [r1|r2] *)
| ROpt (r : regex)              (** [(?:r)?], greedy *)
| RGroup (n : nat) (r : regex). (** capturing group number [n] *)

(** Captures by group number; [None] is [undefined]. *)
Definition captures := list (option string).

Definition cont := string -> captures -> option (string * captures).

Fixpoint star_greedy (c : cclass) (s : string) (caps : captures) (k : cont)
  : option (string * captures) :=
  match s with
  | String a s' =>
      if cc_match c a then
        match star_greedy c s' caps k with
        | Some r => Some r
        | None => k s caps
        end
      else k s caps
  | EmptyString => k s caps
  end.

Fixpoint star_lazy (c : cclass) (s : string) (caps : captures) (k : cont)
  : option (string * captures) :=
  match k s caps with
  | Some r => Some r
  | None =>
      match s with
      | String a s' => if cc_match c a then star_lazy c s' caps k else None
      | EmptyString => None
      end
  end.

Fixpoint rmatch (r : regex) (s : string) (caps : captures) (k : cont)
  : option (string * captures) :=
  match r with
  | RLit l => if startsWith l s then k (sdrop (String.length l) s) caps else None
  | RStar c => star_greedy c s caps k
  | RLazy c => star_lazy c s caps k
  | RSeq r1 r2 => rmatch r1 s caps (fun s' caps' => rmatch r2 s' caps' k)
  | RAlt r1 r2 =>
      match rmatch r1 s caps k with
      | Some x => Some x
      | None => rmatch r2 s caps k
      end
  | ROpt r1 =>
      match rmatch r1 s caps k with
      | Some x => Some x
      | None => k s caps
      end
  | RGroup n r1 =>
      rmatch r1 s caps
        (fun s' caps' =>
           k s' (<[n := Some (stake (String.length s - String.length s') s)]> caps'))
  end.

Fixpoint rseq (rs : list regex) : regex :=
  match rs with
  | [] => RLit ""
  | [r] => r
  | r :: rs' => RSeq r (rseq rs')
  end.

(** The end of the pattern: the match is complete. *)
Definition accept : cont := fun s caps => Some (s, caps).

(** One attempt at the current position, with [groups] capturing groups. *)
Definition exec_here (r : regex) (groups : nat) (s : string) : option captures :=
  match rmatch r s (replicate (S groups) None) accept with
  | Some (s', caps) =>
      Some (<[0 := Some (stake (String.length s - String.length s') s)]> caps)
  | None => None
  end.

(** [s.match(r)] for a pattern without the [g] flag: the leftmost position at
    which an attempt succeeds; [None] is [null]. *)
Fixpoint smatch (r : regex) (groups : nat) (s : string) : option captures :=
  match exec_here r groups s with
  | Some m => Some m
  | None =>
      match s with
      | EmptyString => None
      | String _ s' => smatch r groups s'
      end
  end.

(** [m[n]]: [None] is [undefined]. *)
Definition group (m : captures) (n : nat) : option string := mjoin (m !! n).

End Regex.

(** ** [JSON.parse]

    The JSON grammar of ECMA-404 as [JSON.parse] accepts it.  The value keeps
    the lexemes of numbers and strings (no floating point, escapes left
    undecoded) and every member of an object in document order; what the
    parser of the tags needs is whether the text is accepted at all. *)

Module JSON.
Import JS.

Inductive value : Type :=
| JNull
| JBool (b : bool)
| JNumber (lexeme : string)
| JString (raw : string)
| JArray (elements : list value)
| JObject (members : list (string * value)).

Definition quote : ascii := ascii_of_nat 34.
Definition backslash : ascii := ascii_of_nat 92.

Definition is_ws (c : ascii) : bool :=
  match nat_of_ascii c with
  | 9 | 10 | 13 | 32 => true
  | _ => false
  end.

Definition is_digit (c : ascii) : bool :=
  ((48 <=? nat_of_ascii c) && (nat_of_ascii c <=? 57))%nat.

Definition is_hex (c : ascii) : bool :=
  let n := nat_of_ascii c in
  (is_digit c || ((65 <=? n) && (n <=? 70)) || ((97 <=? n) && (n <=? 102)))%nat.

Fixpoint skip_ws (s : string) : string :=
  match s with
  | String c s' => if is_ws c then skip_ws s' else s
  | EmptyString => EmptyString
  end.

(** The longest prefix of digits, and what follows it. *)
Fixpoint digits (s : string) : string * string :=
  match s with
  | String c s' =>
      if is_digit c then let '(d, r) := digits s' in (String c d, r)
      else (EmptyString, s)
  | EmptyString => (EmptyString, EmptyString)
  end.

Definition digits1 (s : string) : option (string * string) :=
  match digits s with
  | (EmptyString, _) => None
  | (d, r) => Some (d, r)
  end.

Definition parse_int (s : string) : option (string * string) :=
  match s with
  | String c s' =>
      if Ascii.eqb c "0" then Some ("0", s')
      else if is_digit c then let '(d, r) := digits s' in Some (String c d, r)
      else None
  | EmptyString => None
  end.

Definition parse_frac (s : string) : option (string * string) :=
  match s with
  | String "." s' =>
      match digits1 s' with
      | Some (d, r) => Some (String "." d, r)
      | None => None
      end
  | _ => Some (EmptyString, s)
  end.

Definition parse_exp (s : string) : option (string * string) :=
  match s with
  | String c s' =>
      if Ascii.eqb c "e" || Ascii.eqb c "E" then
        match s' with
        | String sg s'' =>
            if Ascii.eqb sg "+" || Ascii.eqb sg "-" then
              match digits1 s'' with
              | Some (d, r) => Some (String c (String sg d), r)
              | None => None
              end
            else
              match digits1 s' with
              | Some (d, r) => Some (String c d, r)
              | None => None
              end
        | EmptyString => None
        end
      else Some (EmptyString, s)
  | EmptyString => Some (EmptyString, s)
  end.

Definition parse_number (s : string) : option (string * string) :=
  let '(sign, s0) :=
    match s with
    | String "-" s' => ("-", s')
    | _ => (EmptyString, s)
    end in
  '(i, s1) ← parse_int s0;
  '(f, s2) ← parse_frac s1;
  '(e, s3) ← parse_exp s2;
  Some (sign +:+ i +:+ f +:+ e, s3).

(** The characters of a string literal after its opening quote, up to the
    closing quote. *)
Fixpoint parse_chars (s : string) : option (string * string) :=
  match s with
  | EmptyString => None
  | String c s' =>
      if Ascii.eqb c quote then Some (EmptyString, s')
      else if Ascii.eqb c backslash then
        match s' with
        | String e s'' =>
            if Ascii.eqb e "u" then
              match s'' with
              | String h1 (String h2 (String h3 (String h4 s4))) =>
                  if is_hex h1 && is_hex h2 && is_hex h3 && is_hex h4 then
                    '(t, r) ← parse_chars s4;
                    Some (String c (String e (String h1 (String h2 (String h3 (String h4 t))))), r)
                  else None
              | _ => None
              end
            else if Ascii.eqb e quote || Ascii.eqb e backslash || Ascii.eqb e "/"
                    || Ascii.eqb e "b" || Ascii.eqb e "f" || Ascii.eqb e "n"
                    || Ascii.eqb e "r" || Ascii.eqb e "t" then
              '(t, r) ← parse_chars s''; Some (String c (String e t), r)
            else None
        | EmptyString => None
        end
      else if (nat_of_ascii c <? 32)%nat then None
      else '(t, r) ← parse_chars s'; Some (String c t, r)
  end.

Definition parse_string (s : string) : option (string * string) :=
  match s with
  | String c s' => if Ascii.eqb c quote then parse_chars s' else None
  | EmptyString => None
  end.

Section Containers.
Variable parse_value : string -> option (value * string).

(** After ['['] or [','] inside an array. *)
Fixpoint parse_elements (n : nat) (s : string) : option (list value * string) :=
  match n with
  | 0 => None
  | S n' =>
      '(v, s1) ← parse_value (skip_ws s);
      match skip_ws s1 with
      | String "," s2 => '(vs, r) ← parse_elements n' s2; Some (v :: vs, r)
      | String "]" s2 => Some ([v], s2)
      | _ => None
      end
  end.

(** After ['{'] or [','] inside an object. *)
Fixpoint parse_members (n : nat) (s : string) : option (list (string * value) * string) :=
  match n with
  | 0 => None
  | S n' =>
      '(k, s1) ← parse_string (skip_ws s);
      match skip_ws s1 with
      | String ":" s2 =>
          '(v, s3) ← parse_value (skip_ws s2);
          match skip_ws s3 with
          | String "," s4 => '(ms, r) ← parse_members n' s4; Some ((k, v) :: ms, r)
          | String "}" s4 => Some ([(k, v)], s4)
          | _ => None
          end
      | _ => None
      end
  end.

End Containers.

Fixpoint parse_value (fuel : nat) (s : string) : option (value * string) :=
  match fuel with
  | 0 => None
  | S fuel' =>
      if startsWith "null" s then Some (JNull, sdrop 4 s)
      else if startsWith "true" s then Some (JBool true, sdrop 4 s)
      else if startsWith "false" s then Some (JBool false, sdrop 5 s)
      else
        match s with
        | String "[" s1 =>
            match skip_ws s1 with
            | String "]" s2 => Some (JArray [], s2)
            | _ =>
                '(vs, r) ← parse_elements (parse_value fuel') (String.length s) s1;
                Some (JArray vs, r)
            end
        | String "{" s1 =>
            match skip_ws s1 with
            | String "}" s2 => Some (JObject [], s2)
            | _ =>
                '(ms, r) ← parse_members (parse_value fuel') (String.length s) s1;
                Some (JObject ms, r)
            end
        | String c _ =>
            if Ascii.eqb c quote then
              '(raw, r) ← parse_string s; Some (JString raw, r)
            else
              '(n, r) ← parse_number s; Some (JNumber n, r)
        | EmptyString => None
        end
  end.

(** [JSON.parse(text)]: a [SyntaxError] unless the whole text is one value
    between optional white space.  Every level of nesting consumes a
    character, so the length of the text bounds the depth. *)
Definition parse (text : string) : completion value :=
  match parse_value (S (String.length text)) (skip_ws text) with
  | Some (v, r) =>
      match skip_ws r with
      | EmptyString => Normal v
      | _ => Throw "SyntaxError"
      end
  | None => Throw "SyntaxError"
  end.

End JSON.

(** ** The tag parser: [MessagePatterns] *)

Module MessagePatterns.
Import JS Regex.

Record PerformAction : Type := {
  action : string;
  url : option string;
  coordinate : option string;
  text : option string;
  key : option string
}.

Record ActionResult : Type := {
  status : string;
  message : string;
  screenshot : option string;
  omniParserResult : option JSON.value
}.

Inductive MessagePart : Type :=
| followup_question (question : string)
| complete_task (result : string) (command : option string)
| perform_action (a : PerformAction)
| action_result (r : ActionResult)
| text_part (content : string).

Record IProcessedMessagePart : Type := {
  length : nat;
  part : MessagePart
}.

(** [patterns.followupQuestion] *)
Definition followupQuestion : regex :=
  rseq [RLit "<ask_followup_question>"; RStar CSpace; RLit "<question>"; RStar CSpace;
        RGroup 1 (RLazy CAny); RStar CSpace; RLit "</question>"; RStar CSpace;
        RLit "</ask_followup_question>"].

(** [patterns.completeTask] *)
Definition completeTask : regex :=
  rseq [RLit "<complete_task>"; RStar CSpace; RLit "<result>"; RGroup 1 (RLazy CAny);
        RLit "</result>";
        ROpt (rseq [RStar CSpace; RLit "<command>"; RGroup 2 (RLazy CAny); RLit "</command>"]);
        RStar CSpace; RLit "</complete_task>"].

(** An optional field [(?:[\s\S]*?<name>(.*?)</name>)?] with group [n]. *)
Definition optional_field (name : string) (n : nat) : regex :=
  ROpt (rseq [RLazy CAny; RLit ("<" +:+ name +:+ ">"); RGroup n (RLazy CAny);
              RLit ("</" +:+ name +:+ ">")]).

(** [patterns.performAction] *)
Definition performAction : regex :=
  rseq [RLit "<perform_action>"; RLazy CAny; RLit "<action>"; RGroup 1 (RLazy CAny);
        RLit "</action>";
        optional_field "url" 2; optional_field "coordinate" 3; optional_field "text" 4;
        optional_field "key" 5; optional_field "about_this_action" 6;
        optional_field "marker_number" 7;
        RLazy CAny; RLit "</perform_action>"].

(** [patterns.actionResult] *)
Definition actionResult : regex :=
  rseq [RLit "<perform_action_result>"; RLazy CAny; RLit "<action_status>";
        RGroup 1 (RAlt (RLit "success") (RLit "error")); RLit "</action_status>";
        RLazy CAny; RLit "<action_message>"; RGroup 2 (RLazy CAny); RLit "</action_message>";
        optional_field "screenshot" 3; optional_field "omni_parser" 4;
        RLazy CAny; RLit "</perform_action_result>"].

(** [...(x && { field: x })]: the field is present when the group took part
    in the match and captured a non-empty string. *)
Definition spread (x : option string) : option string :=
  match x with
  | Some s => if truthy s then Some s else None
  | None => None
  end.

(** A group that takes part in every match of its pattern. *)
Definition required (x : option string) : string := default "" x.

Definition performActionMatch (fullMatch : string) : completion (option IProcessedMessagePart) :=
  match smatch performAction 7 fullMatch with
  | Some actionMatch =>
      Normal (Some {| length := String.length fullMatch;
                      part := perform_action
                                {| action := required (group actionMatch 1);
                                   url := spread (group actionMatch 2);
                                   coordinate := spread (group actionMatch 3);
                                   text := spread (group actionMatch 4);
                                   key := spread (group actionMatch 5) |} |})
  | None => Normal None
  end.

Definition performActionResultMatch (fullMatch : string)
  : completion (option IProcessedMessagePart) :=
  match smatch actionResult 4 fullMatch with
  | Some resultMatch =>
      bind (match spread (group resultMatch 4) with
            | Some body => bind (JSON.parse body) (fun v => Normal (Some v))
            | None => Normal None
            end)
        (fun omni =>
           Normal (Some {| length := String.length fullMatch;
                           part := action_result
                                     {| status := required (group resultMatch 1);
                                        message := required (group resultMatch 2);
                                        screenshot := spread (group resultMatch 3);
                                        omniParserResult := omni |} |}))
  | None => Normal None
  end.

Definition processCompleteTaskMatch (fullMatch : string)
  : completion (option IProcessedMessagePart) :=
  let result := smatch completeTask 2 fullMatch ≫= fun m => group m 1 in
  let command := smatch completeTask 2 fullMatch ≫= fun m => group m 2 in
  match spread result with
  | Some result =>
      Normal (Some {| length := String.length fullMatch;
                      part := complete_task result (spread command) |})
  | None => Normal None
  end.

Definition processFollowupQuestion (fullMatch : string)
  : completion (option IProcessedMessagePart) :=
  let question := smatch followupQuestion 1 fullMatch ≫= fun m => group m 1 in
  match spread question with
  | Some question =>
      Normal (Some {| length := String.length fullMatch;
                      part := followup_question question |})
  | None => Normal None
  end.

Record TagPair : Type := {
  open : string;
  close : string;
  processor : string -> completion (option IProcessedMessagePart)
}.

Definition tagPairs : list TagPair :=
  [ {| open := "<ask_followup_question>"; close := "</ask_followup_question>";
       processor := processFollowupQuestion |};
    {| open := "<complete_task>"; close := "</complete_task>";
       processor := processCompleteTaskMatch |};
    {| open := "<perform_action>"; close := "</perform_action>";
       processor := performActionMatch |};
    {| open := "<perform_action_result>"; close := "</perform_action_result>";
       processor := performActionResultMatch |} ].

(** [tagPairs.map(pair => ({pair, index})).filter(t => t.index !== -1)] *)
Definition tagStarts (remainingText : string) : list (TagPair * nat) :=
  omap (fun pair => (fun i => (pair, i)) <$> indexOf (open pair) remainingText) tagPairs.

(** [tagStarts.reduce((min, curr) => curr.index < min.index ? curr : min)] on a
    non-empty array, whose first entry is the initial accumulator. *)
Definition earliest (first : TagPair * nat) (others : list (TagPair * nat)) : TagPair * nat :=
  fold_left (fun min curr => if (snd curr <? snd min)%nat then curr else min) others first.

Definition push_text (parts : list MessagePart) (content : string) : list MessagePart :=
  if truthy content then parts ++ [text_part content] else parts.

(** The [while (remainingText.length > 0)] loop; each round removes at least
    the opening tag from [remainingText].  [None]: the rounds allowed by [fuel]
    did not suffice. *)
Fixpoint parse_loop (fuel : nat) (remainingText : string) (parts : list MessagePart)
  : option (completion (list MessagePart)) :=
  match fuel with
  | 0 => None
  | S fuel' =>
      if negb (truthy remainingText) then Some (Normal parts)
      else
        match tagStarts remainingText with
        | [] => Some (Normal (push_text parts (trim remainingText)))
        | first :: others =>
            let earliestTag := earliest first others in
            let pair := fst earliestTag in
            let index := snd earliestTag in
            let parts := push_text parts (trim (slice remainingText 0 index)) in
            match indexOfFrom (close pair) remainingText (index + String.length (open pair)) with
            | None =>
                parse_loop fuel'
                  (slice_from remainingText (index + String.length (open pair)))
                  (parts ++ [text_part (slice remainingText index
                                          (index + String.length (open pair)))])
            | Some closeIndex =>
                let fullTag :=
                  slice remainingText index (closeIndex + String.length (close pair)) in
                match processor pair fullTag with
                | Throw e => Some (Throw e)
                | Normal processedMatch =>
                    parse_loop fuel'
                      (slice_from remainingText (closeIndex + String.length (close pair)))
                      (match processedMatch with
                       | Some m => parts ++ [part m]
                       | None => parts
                       end)
                end
            end
        end
  end.

(** [MessagePatterns.parseMessage(text)].  There are at most as many rounds
    as [text] has characters ([parseMessage_total] below). *)
Definition parseMessage (text : string) : option (completion (list MessagePart)) :=
  parse_loop (S (String.length text)) text [].

End MessagePatterns.

(** ** The tag grammar, following the specification's words

    The four tags of the grammar with their field bodies, and the text of a
    tag.  [sep] stands between the pieces of a tag: the empty string gives the
    grammar letter for letter, white space the layout a model usually emits. *)

Module Grammar.
Import JS.

Inductive Tag : Type :=
| ask_followup_question (question : string)
| complete_task_tag (result : string) (command : option string)
| perform_action_tag (action : string)
    (url coordinate text key about_this_action marker_number : option string)
| perform_action_result (action_status action_message : string)
    (screenshot omni_parser : option string).

Definition element (name body : string) : string :=
  "<" +:+ name +:+ ">" +:+ body +:+ "</" +:+ name +:+ ">".

Definition opt_element (sep name : string) (body : option string) : string :=
  match body with
  | Some b => sep +:+ element name b
  | None => ""
  end.

Definition render (sep : string) (t : Tag) : string :=
  match t with
  | ask_followup_question q =>
      "<ask_followup_question>" +:+ sep +:+ element "question" q +:+ sep
        +:+ "</ask_followup_question>"
  | complete_task_tag r c =>
      "<complete_task>" +:+ sep +:+ element "result" r +:+ opt_element sep "command" c
        +:+ sep +:+ "</complete_task>"
  | perform_action_tag a u c t k ab mn =>
      "<perform_action>" +:+ sep +:+ element "action" a
        +:+ opt_element sep "url" u +:+ opt_element sep "coordinate" c
        +:+ opt_element sep "text" t +:+ opt_element sep "key" k
        +:+ opt_element sep "about_this_action" ab
        +:+ opt_element sep "marker_number" mn
        +:+ sep +:+ "</perform_action>"
  | perform_action_result st m sc o =>
      "<perform_action_result>" +:+ sep +:+ element "action_status" st
        +:+ sep +:+ element "action_message" m
        +:+ opt_element sep "screenshot" sc +:+ opt_element sep "omni_parser" o
        +:+ sep +:+ "</perform_action_result>"
  end.

Definition plain_opt (b : option string) : bool :=
  match b with
  | Some b => plain b
  | None => true
  end.

(** A complete, well-formed tag: the bodies are plain text (tags do not
    nest), the question and the result say something, and the status is one
    of the two words of the grammar. *)
Definition well_formed (t : Tag) : bool :=
  match t with
  | ask_followup_question q => plain q && truthy (trim q)
  | complete_task_tag r c => plain r && truthy r && plain_opt c
  | perform_action_tag a u c t k ab mn =>
      plain a && plain_opt u && plain_opt c && plain_opt t && plain_opt k
        && plain_opt ab && plain_opt mn
  | perform_action_result st m sc o =>
      (String.eqb st "success" || String.eqb st "error")
        && plain m && plain_opt sc && plain_opt o
  end.

(** A field that is missing from the tag, or whose body is empty, is absent
    from the part. *)
Definition present (b : option string) : option string :=
  match b with
  | Some (String c s) => Some (String c s)
  | _ => None
  end.

(** The part that corresponds to a tag: the fields are the bodies as they
    stand in the tag; only the question is trimmed. *)
Definition stored (t : Tag) : completion MessagePatterns.MessagePart :=
  match t with
  | ask_followup_question q => Normal (MessagePatterns.followup_question (trim q))
  | complete_task_tag r c => Normal (MessagePatterns.complete_task r (present c))
  | perform_action_tag a u c t k _ _ =>
      Normal (MessagePatterns.perform_action
                {| MessagePatterns.action := a;
                   MessagePatterns.url := present u;
                   MessagePatterns.coordinate := present c;
                   MessagePatterns.text := present t;
                   MessagePatterns.key := present k |})
  | perform_action_result st m sc o =>
      bind (match present o with
            | Some body => bind (JSON.parse body) (fun v => Normal (Some v))
            | None => Normal None
            end)
        (fun omni =>
           Normal (MessagePatterns.action_result
                     {| MessagePatterns.status := st;
                        MessagePatterns.message := m;
                        MessagePatterns.screenshot := present sc;
                        MessagePatterns.omniParserResult := omni |}))
  end.


(** [pair] opens at [i] and no pair opens before. *)
Definition earliest_is (rem : string) (pair : MessagePatterns.TagPair) (i : nat) : Prop :=
  pair ∈ MessagePatterns.tagPairs
  ∧ indexOf (MessagePatterns.open pair) rem = Some i
  ∧ ∀ pair' j,
      pair' ∈ MessagePatterns.tagPairs →
      indexOf (MessagePatterns.open pair') rem = Some j → i ≤ j.

(** A check of [earliest_is] that computes, for the entry number [k] of
    [MessagePatterns.tagPairs]. *)
Definition earliest_isb (rem : string) (k i : nat) : bool :=
  match MessagePatterns.tagPairs !! k with
  | Some chosen =>
      bool_decide (indexOf (MessagePatterns.open chosen) rem = Some i)
      && forallb (fun pair' =>
                    match indexOf (MessagePatterns.open pair') rem with
                    | Some j => (i <=? j)%nat
                    | None => true
                    end) MessagePatterns.tagPairs
  | None => false
  end.

(** The parts pushed before a round stay in front of what the round adds. *)
Definition prepend (parts : list MessagePatterns.MessagePart)
    (r : completion (list MessagePatterns.MessagePart))
  : completion (list MessagePatterns.MessagePart) :=
  match r with
  | Normal ps => Normal (parts ++ ps)
  | Throw e => Throw e
  end.

End Grammar.

(** ** The exploration hook: [useExploreChat]

    The refs of the hook are the fields of [State].  Rendering
    ([setGraphData]) and logging ([console.log]) copy the refs out and leave
    them as they are; they are not modelled.  [localStorage.setItem] stores a
    copy too, which these sources read nowhere, but the call throws when the
    store refuses the value: how each call ends is part of [State].  A field
    of an element that is missing is the empty string, which is falsy like
    [undefined]. *)

Module ExploreChat.
Import JS.

Module Element.
Record t : Type := {
  text : string;
  coordinates : string;
  aboutThisElement : string
}.
End Element.

Module Parent.
Record t : Type := {
  url : string;
  id : string;
  nodeId : string
}.
End Parent.

Module Item.
Record t : Type := {
  text : string;
  coordinates : string;
  aboutThisElement : string;
  source : string;
  url : string;
  id : string;
  nodeId : string;
  parent : Parent.t
}.
End Item.

Module Node.
Record t : Type := {
  id : string;
  position : nat * nat;
  label : string;           (** [data.label] *)
  edges : list string;      (** [data.edges] *)
  imageData : option string (** [data.imageData] *)
}.
End Node.

Module Edge.
Record t : Type := {
  id : string;
  source : string;
  target : string;
  sourceHandle : string;
  label : string
}.
End Edge.

Module Exploring.
Record t : Type := {
  url : string;
  id : string;
  nodeId : string;
  label : string
}.
End Exploring.

(** [string | IProcessedScreenshot] *)
Inductive ImageData : Type :=
| ImageString (s : string)
| ImageObject (image : string).

Record IExploreGraphData : Type := {
  nodes : list Node.t;
  edges : list Edge.t
}.

Record ChatMessage : Type := {
  msg_text : string;
  timestamp : N;
  isUser : bool;
  isPartial : bool;
  isHistory : bool
}.

(** A call of [sendExploreChatMessage]: one model turn sent to the back end. *)
Record Request : Type := {
  messageId : string;
  currentMessage : string;
  processedImageData : option string;
  history : list ChatMessage;
  type : string
}.

Record State : Type := {
  exploreQueue : gmap string (list Item.t);
  exploreRoute : list string;
  exploreGraphData : IExploreGraphData;
  currentlyExploring : option Exploring.t;
  isProcessing : bool;
  activeMessageId : option string;
  isChatStreaming : bool;
  messagesRef : list ChatMessage;
  (** the values [uuid()] is going to return, and how many were drawn *)
  uuid_source : nat → string;
  uuid_drawn : nat;
  (** every model turn sent so far *)
  requests : list Request;
  (** how the calls of [localStorage.setItem] are going to end, and how many
      were made *)
  setItem_outcome : nat → completion unit;
  setItem_calls : nat
}.

Definition set_exploreQueue (q : gmap string (list Item.t)) (st : State) : State :=
  {| exploreQueue := q; exploreRoute := exploreRoute st;
     exploreGraphData := exploreGraphData st; currentlyExploring := currentlyExploring st;
     isProcessing := isProcessing st; activeMessageId := activeMessageId st;
     isChatStreaming := isChatStreaming st; messagesRef := messagesRef st;
     uuid_source := uuid_source st; uuid_drawn := uuid_drawn st; requests := requests st;
     setItem_outcome := setItem_outcome st; setItem_calls := setItem_calls st |}.

Definition set_exploreRoute (r : list string) (st : State) : State :=
  {| exploreQueue := exploreQueue st; exploreRoute := r;
     exploreGraphData := exploreGraphData st; currentlyExploring := currentlyExploring st;
     isProcessing := isProcessing st; activeMessageId := activeMessageId st;
     isChatStreaming := isChatStreaming st; messagesRef := messagesRef st;
     uuid_source := uuid_source st; uuid_drawn := uuid_drawn st; requests := requests st;
     setItem_outcome := setItem_outcome st; setItem_calls := setItem_calls st |}.

Definition set_exploreGraphData (g : IExploreGraphData) (st : State) : State :=
  {| exploreQueue := exploreQueue st; exploreRoute := exploreRoute st;
     exploreGraphData := g; currentlyExploring := currentlyExploring st;
     isProcessing := isProcessing st; activeMessageId := activeMessageId st;
     isChatStreaming := isChatStreaming st; messagesRef := messagesRef st;
     uuid_source := uuid_source st; uuid_drawn := uuid_drawn st; requests := requests st;
     setItem_outcome := setItem_outcome st; setItem_calls := setItem_calls st |}.

Definition set_currentlyExploring (c : option Exploring.t) (st : State) : State :=
  {| exploreQueue := exploreQueue st; exploreRoute := exploreRoute st;
     exploreGraphData := exploreGraphData st; currentlyExploring := c;
     isProcessing := isProcessing st; activeMessageId := activeMessageId st;
     isChatStreaming := isChatStreaming st; messagesRef := messagesRef st;
     uuid_source := uuid_source st; uuid_drawn := uuid_drawn st; requests := requests st;
     setItem_outcome := setItem_outcome st; setItem_calls := setItem_calls st |}.

(** [uuid()] *)
Definition uuid (st : State) : string * State :=
  (uuid_source st (uuid_drawn st),
   {| exploreQueue := exploreQueue st; exploreRoute := exploreRoute st;
      exploreGraphData := exploreGraphData st; currentlyExploring := currentlyExploring st;
      isProcessing := isProcessing st; activeMessageId := activeMessageId st;
      isChatStreaming := isChatStreaming st; messagesRef := messagesRef st;
      uuid_source := uuid_source st; uuid_drawn := S (uuid_drawn st);
      requests := requests st;
      setItem_outcome := setItem_outcome st; setItem_calls := setItem_calls st |}).

(** [localStorage.setItem(key, JSON.stringify(value))], where the value is
    one of the refs: the call throws when the store refuses the value. *)
Definition localStorage_setItem (key : string) (st : State) : completion State :=
  match setItem_outcome st (setItem_calls st) with
  | Normal _ =>
      Normal {| exploreQueue := exploreQueue st; exploreRoute := exploreRoute st;
                exploreGraphData := exploreGraphData st;
                currentlyExploring := currentlyExploring st;
                isProcessing := isProcessing st; activeMessageId := activeMessageId st;
                isChatStreaming := isChatStreaming st; messagesRef := messagesRef st;
                uuid_source := uuid_source st; uuid_drawn := uuid_drawn st;
                requests := requests st;
                setItem_outcome := setItem_outcome st;
                setItem_calls := S (setItem_calls st) |}
  | Throw e => Throw e
  end.

(** [x || d] on strings that may be missing. *)
Definition or_else (x : option string) (d : string) : string :=
  match x with
  | Some s => if truthy s then s else d
  | None => d
  end.

(** A [Set] of strings keeps its members in insertion order. *)
Definition set_has (s : list string) (x : string) : bool := bool_decide (x ∈ s).
Definition set_add (s : list string) (x : string) : list string :=
  if set_has s x then s else s ++ [x].
Definition new_Set (l : list string) : list string := fold_left set_add l [].

(** The image as [createConstructNode] stores it. *)
Definition processedImage_create (imageData : option ImageData) : option string :=
  match imageData with
  | Some (ImageString s) =>
      if truthy s then
        Some (if startsWith "data:" s then s else "data:image/png;base64," +:+ s)
      else None
  | Some (ImageObject image) => if truthy image then Some image else None
  | None => None
  end.

(** The image as the first-node update of [handleEdgeAndNodeCreation] stores it. *)
Definition processedImage_update (imageData : ImageData) : option string :=
  match imageData with
  | ImageString s =>
      Some (if startsWith "data:" s then s else "data:image/png;base64," +:+ s)
  | ImageObject image =>
      if truthy image then Some ("data:image/png;base64," +:+ image) else None
  end.

Definition imageData_truthy (imageData : option ImageData) : bool :=
  match imageData with
  | Some (ImageString s) => truthy s
  | Some (ImageObject _) => true
  | None => false
  end.

Definition createConstructNode (currentNodeId label : string) (imageData : option ImageData)
    (st : State) : completion State :=
  let g := exploreGraphData st in
  let currentNodelCount := List.length (nodes g) in
  let st :=
    set_exploreGraphData
      {| nodes := nodes g ++ [ {| Node.id := currentNodeId;
                                  Node.position := (200, currentNodelCount * 100);
                                  Node.label := label;
                                  Node.edges := [];
                                  Node.imageData := processedImage_create imageData |} ];
         edges := edges g |} st in
  localStorage_setItem "MAP" st.

Definition createEdge (sourceId targetId edgeId label : string) (st : State)
  : completion State :=
  let g := exploreGraphData st in
  let st :=
    set_exploreGraphData
      {| nodes := (fun node =>
                     if String.eqb (Node.id node) sourceId then
                       {| Node.id := Node.id node; Node.position := Node.position node;
                          Node.label := Node.label node;
                          Node.edges := Node.edges node ++ [edgeId];
                          Node.imageData := Node.imageData node |}
                     else node) <$> nodes g;
         edges := edges g ++ [ {| Edge.id := edgeId; Edge.source := sourceId;
                                  Edge.target := targetId; Edge.sourceHandle := edgeId;
                                  Edge.label := label |} ] |} st in
  localStorage_setItem "MAP" st.

Section Graph.

(** The canonical form of a URL; the specification leaves the rule open. *)
Variable normalize : string → string.

(** The nodes that stand for [url]. *)
Definition matches (url : string) (node : Node.t) : bool :=
  String.eqb (normalize (Node.label node)) (normalize url).

(** Modelled from the spec: [createEdgeOrNode] of [utils/graph.util.ts], which
    is not among the sources.  The specification (4.3) has one node per
    normalized URL: when a node for the URL exists it is returned and none is
    to be created, otherwise one is to be created.  A node's URL is its label. *)
Definition createEdgeOrNode (nodes : list Node.t) (url : string) : bool * option Node.t :=
  match List.find (matches url) nodes with
  | Some node => (false, Some node)
  | None => (true, None)
  end.

Definition handleEdgeAndNodeCreation (url : string) (imageData : option ImageData)
    (st : State) : completion (string * State) :=
  let canCreateNode := createEdgeOrNode (nodes (exploreGraphData st)) url in
  let '(nodeId, st) :=
    if fst canCreateNode then uuid st
    else (default "" (Node.id <$> snd canCreateNode), st) in
  let isFirstNode := Nat.eqb (List.length (nodes (exploreGraphData st))) 0 in
  bind
    (if fst canCreateNode then createConstructNode nodeId url imageData st
     else if isFirstNode
             && negb (truthy (default "" (snd canCreateNode ≫= Node.imageData)))
             && imageData_truthy imageData then
       Normal
         (set_exploreGraphData
            {| nodes := (fun node =>
                           if String.eqb (Node.id node) nodeId then
                             {| Node.id := Node.id node; Node.position := Node.position node;
                                Node.label := Node.label node; Node.edges := Node.edges node;
                                Node.imageData := imageData ≫= processedImage_update |}
                           else node) <$> nodes (exploreGraphData st);
               edges := edges (exploreGraphData st) |} st)
     else Normal st)
    (fun st =>
       bind
         (match currentlyExploring st with
          | Some c =>
              createEdge (Exploring.nodeId c) nodeId (Exploring.id c) (Exploring.label c) st
          | None => Normal st
          end)
         (fun st => Normal (nodeId, st))).

Definition handleQueueUpdate_element (fullResponse url nodeId : string)
    (parent : option Parent.t) (st : State) (element : Element.t) : completion State :=
  if truthy (Element.text element) && truthy (Element.coordinates element) then
    let '(elementId, st) := uuid st in
    let exploredOutput :=
      {| Item.text := Element.text element;
         Item.coordinates := Element.coordinates element;
         Item.aboutThisElement := or_else (Some (Element.aboutThisElement element)) "";
         Item.source := fullResponse;
         Item.url := url;
         Item.id := elementId;
         Item.nodeId := nodeId;
         Item.parent := {| Parent.url := or_else (Parent.url <$> parent) url;
                           Parent.nodeId := or_else (Parent.nodeId <$> parent) nodeId;
                           Parent.id := or_else (Parent.id <$> parent) elementId |} |} in
    match exploreQueue st !! url with
    | Some queue =>
        Normal (set_exploreQueue (<[url := queue ++ [exploredOutput]]> (exploreQueue st)) st)
    | None => Throw "TypeError"
    end
  else Normal st.

(** The [for ... of] loop of [handleQueueUpdate]. *)
Fixpoint handleQueueUpdate_loop (processedExploreMessage : list Element.t)
    (fullResponse url nodeId : string) (parent : option Parent.t) (st : State)
  : completion State :=
  match processedExploreMessage with
  | [] => Normal st
  | element :: rest =>
      bind (handleQueueUpdate_element fullResponse url nodeId parent st element)
        (handleQueueUpdate_loop rest fullResponse url nodeId parent)
  end.

Definition handleQueueUpdate (processedExploreMessage : list Element.t)
    (fullResponse url nodeId : string) (parent : option Parent.t) (st : State)
  : completion State :=
  bind (handleQueueUpdate_loop processedExploreMessage fullResponse url nodeId parent st)
    (localStorage_setItem "started_explore").

(** The body that would drop the routes whose queue is empty is commented
    out in the source: the set holds every explored route. *)
Definition cleanCompletedQueue (exploredRoutes : list string)
    (currentQueue : gmap string (list Item.t)) : list string :=
  new_Set exploredRoutes.

(** [processExploreOutput]: [processedExploreMessage] is what
    [MessageProcessor.processExploreMessage(fullResponse) || []] returned and
    [url] what [getCurrentUrl] resolved to ([None] is [null]).  The result is
    [None] for the early [return;]. *)
Definition processExploreOutput (processedExploreMessage : list Element.t)
    (fullResponse : string) (parent : option Parent.t) (url : option string)
    (imageData : option ImageData) (st : State)
  : completion (option (option Element.t) * State) :=
  let routeSet := cleanCompletedQueue (exploreRoute st) (exploreQueue st) in
  let finish (routeSet : list string) (st : State) :=
    Normal (Some (head processedExploreMessage), set_exploreRoute routeSet st) in
  if (0 <? List.length processedExploreMessage)%nat then
    match url with
    | None => Normal (None, st)
    | Some url =>
        if negb (truthy url) then Normal (None, st)
        else if negb (set_has routeSet url) then
          let routeSet := set_add routeSet url in
          let st := set_exploreQueue (<[url := []]> (exploreQueue st)) st in
          bind (handleEdgeAndNodeCreation url imageData st)
            (fun '(nodeId, st) =>
               bind (handleQueueUpdate processedExploreMessage fullResponse url nodeId
                       parent st)
                 (finish routeSet))
        else finish routeSet st
    end
  else finish routeSet st.

Definition count_for (url : string) (st : State) : nat :=
  List.length (List.filter (matches url) (nodes (exploreGraphData st))).

Definition node_id_for (url : string) (st : State) : option string :=
  Node.id <$> List.find (matches url) (nodes (exploreGraphData st)).

(** At most one node stands for each URL. *)
Definition unique_nodes (st : State) : Prop := ∀ url, count_for url st ≤ 1.

End Graph.

(** The [parent] that [handleMessageCompletion] passes on is the
    [currentlyExploring] object itself. *)
Definition parent_of (c : Exploring.t) : Parent.t :=
  {| Parent.url := Exploring.url c; Parent.id := Exploring.id c;
     Parent.nodeId := Exploring.nodeId c |}.

(** [processExploreOutput(fullResponse, currentlyExploring.current,
    streamingSource, imageData)] as [handleMessageCompletion] calls it. *)
Definition explore_turn (normalize : string → string)
    (processedExploreMessage : list Element.t) (fullResponse : string)
    (url : option string) (imageData : option ImageData) (st : State)
  : completion (option (option Element.t) * State) :=
  processExploreOutput normalize processedExploreMessage fullResponse
    (parent_of <$> currentlyExploring st) url imageData st.

(** [getNextToExplore]: the result is [None] for [null] and [undefined]. *)
Definition getNextToExplore (st : State) : completion (option Item.t * State) :=
  match exploreRoute st with
  | [] => Normal (None, st)
  | route :: _ =>
      if truthy route then
        match exploreQueue st !! route with
        | None => Throw "TypeError"
        | Some [] => Normal (None, st)
        | Some (nextItem :: queue) =>
            let st := set_exploreQueue (<[route := queue]> (exploreQueue st)) st in
            Normal (Some nextItem,
                    set_currentlyExploring
                      (Some {| Exploring.url := route; Exploring.id := Item.id nextItem;
                               Exploring.nodeId := Item.nodeId nextItem;
                               Exploring.label := Item.text nextItem |}) st)
        end
      else Normal (None, st)
  end.

(** [imageData ? (typeof imageData === "string" ? imageData : imageData.image) : undefined] *)
Definition processedImageData_of (imageData : option ImageData) : option string :=
  match imageData with
  | Some (ImageString s) => if truthy s then Some s else None
  | Some (ImageObject image) => if truthy image then Some image else None
  | None => None
  end.

(** [`msg_${Date.now()}`] *)
Definition message_id (now : N) : string :=
  "msg_" +:+ NilZero.string_of_uint (N.to_uint now).

(** [handleExploreMessage] up to and with the call of
    [sendExploreChatMessage]: [now] is what [Date.now()] returns.  The call is
    recorded in [requests]; its callbacks run in later events. *)
Definition handleExploreMessage (now : N) (currentMessage type : string)
    (imageData : option ImageData) (st : State) : State :=
  if isProcessing st then st
  else
    let messageId := message_id now in
    {| exploreQueue := exploreQueue st; exploreRoute := exploreRoute st;
       exploreGraphData := exploreGraphData st; currentlyExploring := currentlyExploring st;
       isProcessing := true; activeMessageId := Some messageId;
       isChatStreaming := true; messagesRef := messagesRef st;
       uuid_source := uuid_source st; uuid_drawn := uuid_drawn st;
       requests := requests st
                     ++ [ {| messageId := messageId; currentMessage := currentMessage;
                             processedImageData := processedImageData_of imageData;
                             history := List.filter (fun msg => negb (isPartial msg))
                                          (messagesRef st);
                             type := type |} ];
       setItem_outcome := setItem_outcome st; setItem_calls := setItem_calls st |}.

(** What [currentlyExploring] holds while [item], taken from the queue of
    [route], is being explored. *)
Definition exploring_of (who : string * Item.t) : Exploring.t :=
  {| Exploring.url := fst who; Exploring.id := Item.id (snd who);
     Exploring.nodeId := Item.nodeId (snd who); Exploring.label := Item.text (snd who) |}.

(** The current-URL query came back empty or with nothing. *)
Definition url_missing (url : option string) : bool :=
  match url with
  | None => true
  | Some u => negb (truthy u)
  end.

(** An element that [handleQueueUpdate] lets into the frontier. *)
Definition admitted (element : Element.t) : bool :=
  truthy (Element.text element) && truthy (Element.coordinates element).

Definition self_parented (item : Item.t) : Prop :=
  Parent.url (Item.parent item) = Item.url item
  ∧ Parent.nodeId (Item.parent item) = Item.nodeId item
  ∧ Parent.id (Item.parent item) = Item.id item.

(** Requests in a row, with no completion between them. *)
Definition start_turns (calls : list (N * string * string * option ImageData))
    (st : State) : State :=
  fold_left (fun st '(now, currentMessage, type, imageData) =>
               handleExploreMessage now currentMessage type imageData st) calls st.

End ExploreChat.

(** ** The current URL: the back end's [common.util.ts] *)

Module CommonUtil.
Import JS.

Inductive StreamingSource : Type :=
| chrome_puppeteer
| ubuntu_docker_vnc.

(** What the two calls on [PuppeteerActions] resolve to. *)
Record PuppeteerActions : Type := {
  isBrowserReady : completion bool;
  getCurrentUrl : completion string
}.

(** [getCurrentUrlBasedOnSource] of [common.util.ts] *)
Definition getCurrentUrlBasedOnSource (source : StreamingSource) (driver : PuppeteerActions)
  : string :=
  match source with
  | chrome_puppeteer =>
      match isBrowserReady driver with
      | Normal true =>
          match getCurrentUrl driver with
          | Normal pageUrl => pageUrl
          | Throw _ => ""
          end
      | Normal false => ""
      | Throw _ => ""
      end
  | ubuntu_docker_vnc => "IDENTIFY URL FROM SCREENSHOT"
  end.

End CommonUtil.

(** ** The current URL: the front end's [services/api] *)

Module Api.

(** What [fetch] and [response.json()] resolve to: a failure, or the [url]
    field of the body. *)
Inductive Fetched : Type :=
| FetchFailed
| Body (url : option string).

(** [getCurrentUrl] of the front end: [None] is [null] or [undefined]. *)
Definition getCurrentUrl (response : Fetched) : option string :=
  match response with
  | FetchFailed => None
  | Body url => url
  end.

End Api.

(** ** The model client: [ExploreModeAnthropicProvider]

    The response [res] is the list of the events written to it, in order.
    The [timestamp] of an event ([Date.now()]) is left out. *)

Module Provider.
Import JS.

Record IProcessedScreenshot : Type := {
  image : string;
  originalImage : string
}.

Record StreamResponse : Type := {
  message : string;
  isComplete : option bool;
  isError : option bool;
  imageData : option IProcessedScreenshot
}.

Inductive ExploreActionTypes : Type :=
| EXPLORE
| ACTION.

(** A chunk of the provider's stream: its [type] and its [delta?.text]. *)
Record Chunk : Type := {
  chunk_type : string;
  delta_text : option string
}.

(** A stream yields its chunks and then ends, or throws. *)
Record Stream : Type := {
  chunks : list Chunk;
  throws : bool
}.

(** What one attempt meets: the request throws before there is a stream
    (preparing it, or [client.messages.create]), or the provider streams. *)
Inductive Attempt : Type :=
| RequestThrows
| Streams (stream : Stream).

(** [sendStreamResponse] *)
Definition sendStreamResponse (res : list StreamResponse) (data : StreamResponse)
  : list StreamResponse :=
  res ++ [data].

Definition chunk_event (text : string) : StreamResponse :=
  {| message := text; isComplete := None; isError := None; imageData := None |}.

Definition complete_event (imageData : option IProcessedScreenshot) : StreamResponse :=
  {| message := ""; isComplete := Some true; isError := None; imageData := imageData |}.

Definition retrying_event : StreamResponse :=
  {| message := "Error processing message re-trying"; isComplete := None;
     isError := Some false; imageData := None |}.

Definition error_event : StreamResponse :=
  {| message := "Error processing message. Please try again later."; isComplete := None;
     isError := Some true; imageData := None |}.

(** The [for await] loop of [processStreamResponse]. *)
Fixpoint forward_chunks (cs : list Chunk) (res : list StreamResponse) : list StreamResponse :=
  match cs with
  | [] => res
  | chunk :: cs' =>
      forward_chunks cs'
        (match delta_text chunk with
         | Some text =>
             if String.eqb (chunk_type chunk) "content_block_delta" && truthy text
             then sendStreamResponse res (chunk_event text)
             else res
         | None => res
         end)
  end.

(** [processStreamResponse]: the events written, and whether the stream
    threw before its end. *)
Definition processStreamResponse (stream : Stream) (res : list StreamResponse)
    (imageData : option IProcessedScreenshot) : completion unit * list StreamResponse :=
  let res := forward_chunks (chunks stream) res in
  if throws stream then (Throw "stream", res)
  else (Normal tt, sendStreamResponse res (complete_event imageData)).

(** [processStream]: one attempt, with its [try] and [catch]. *)
Definition processStream (res : list StreamResponse) (imageData : option IProcessedScreenshot)
    (attempt : Attempt) : bool * list StreamResponse :=
  match attempt with
  | RequestThrows => (false, sendStreamResponse res retrying_event)
  | Streams stream =>
      match processStreamResponse stream res imageData with
      | (Normal _, res) => (true, res)
      | (Throw _, res) => (false, sendStreamResponse res retrying_event)
      end
  end.

(** The [for (let _ of retryArray)] loop: [attempts i] is what the attempt
    number [i] meets.  The result says whether an attempt succeeded. *)
Fixpoint retry_loop (retryArray : list nat) (i : nat) (attempts : nat → Attempt)
    (imageData : option IProcessedScreenshot) (res : list StreamResponse)
  : bool * list StreamResponse :=
  match retryArray with
  | [] => (false, res)
  | _ :: rest =>
      match processStream res imageData (attempts i) with
      | (true, res) => (true, res)
      | (false, res) => retry_loop rest (S i) attempts imageData res
      end
  end.

(** [streamResponse]: [description] is what [generateComponentDescription]
    resolves to, which is awaited, outside any [try], for [EXPLORE] only. *)
Definition streamResponse (res : list StreamResponse) (type : ExploreActionTypes)
    (imageData : option IProcessedScreenshot) (description : completion bool)
    (attempts : nat → Attempt) (retryCount : nat) : completion (list StreamResponse) :=
  bind (match type with
        | EXPLORE => bind description (fun _ => Normal tt)
        | ACTION => Normal tt
        end)
    (fun _ =>
       let retryArray := replicate retryCount 0 in
       match retry_loop retryArray 0 attempts imageData res with
       | (true, res) => Normal res
       | (false, res) => Normal (sendStreamResponse res error_event)
       end).

(** The reader of the events in the front end ([sendChatMessage] of
    [services/api]), when every event arrives whole and parses: the texts
    handed to [onChunk] until the event that ends the reading.  [ChatStream]
    has the reader as it works on the reads themselves. *)
Fixpoint surfaced_chunks (events : list StreamResponse) : list string :=
  match events with
  | [] => []
  | data :: rest =>
      if default false (isComplete data) then []
      else if default false (isError data) then []
      else if truthy (message data) then message data :: surfaced_chunks rest
      else surfaced_chunks rest
  end.

Definition fails (attempt : Attempt) : bool :=
  match attempt with
  | RequestThrows => true
  | Streams stream => throws stream
  end.

(** What a failed attempt writes: the deltas that arrived before the failure,
    then the notice that the turn is tried again. *)
Definition failed_events (attempt : Attempt) : list StreamResponse :=
  match attempt with
  | RequestThrows => []
  | Streams stream => forward_chunks (chunks stream) []
  end ++ [retrying_event].

Definition is_terminal_error (data : StreamResponse) : bool :=
  bool_decide (isError data = Some true).

Definition is_completion (data : StreamResponse) : bool :=
  bool_decide (isComplete data = Some true).

Definition is_retrying (data : StreamResponse) : bool :=
  bool_decide (isError data = Some false).

End Provider.

(** ** A session of two discoveries *)

Module Scenario.
Import JS ExploreChat.

Definition uuids (n : nat) : string := "id" +:+ NilZero.string_of_uint (Nat.to_uint n).

Definition initial : State :=
  {| exploreQueue := ∅; exploreRoute := [];
     exploreGraphData := {| nodes := []; edges := [] |};
     currentlyExploring := None; isProcessing := false; activeMessageId := None;
     isChatStreaming := false; messagesRef := []; uuid_source := uuids; uuid_drawn := 0;
     requests := []; setItem_outcome := fun _ => Normal tt; setItem_calls := 0 |}.

Definition element (text coordinates : string) : Element.t :=
  {| Element.text := text; Element.coordinates := coordinates;
     Element.aboutThisElement := "" |}.

Definition state_of {A} (c : completion (A * State)) : State :=
  match c with
  | Normal (_, st) => st
  | Throw _ => initial
  end.

(** The first turn finds [https://x/a] with two elements. *)
Definition discovered_a : State :=
  state_of (explore_turn id [element "Login" "10,10"; element "About" "20,20"] "first"
              (Some "https://x/a") None initial).

(** The frontier hands out the first element, "Login". *)
Definition exploring_login : State := state_of (getNextToExplore discovered_a).

(** Acting on it leads to [https://x/b], with one element. *)
Definition discovered_b : State :=
  state_of (explore_turn id [element "Sign in" "30,30"] "second"
              (Some "https://x/b") None exploring_login).

(** The frontier hands out "About", the last element of [https://x/a]. *)
Definition exploring_about : State := state_of (getNextToExplore discovered_b).

(** Two elements, and one without coordinates, put into an empty queue with
    no parent. *)
Definition before_queueing : State :=
  set_exploreQueue (<["https://x/a" := []]> ∅) initial.

Definition queued : State :=
  match handleQueueUpdate [element "Login" "10,10"; element "Logo" ""; element "About" "20,20"]
          "first" "https://x/a" "node" None before_queueing with
  | Normal st => st
  | Throw _ => initial
  end.

End Scenario.

(** ** [MessagePatterns.extractAction] *)

Module ActionExtract.
Import JS Regex MessagePatterns.

(** [l] is a literal that every match of [r] has to go through. *)
Fixpoint needs (l : string) (r : regex) : bool :=
  match r with
  | RLit l' => String.eqb l l'
  | RSeq r1 r2 => needs l r1 || needs l r2
  | RAlt r1 r2 => needs l r1 && needs l r2
  | RGroup _ r1 => needs l r1
  | RStar _ | RLazy _ | ROpt _ => false
  end.

(** [MessagePatterns.extractAction] *)
Definition extractAction (text : string) : option PerformAction :=
  match smatch performAction 7 text with
  | None => None
  | Some m =>
      Some {| action := required (group m 1);
              url := spread (group m 2);
              coordinate := spread (group m 3);
              text := spread (group m 4);
              key := spread (group m 5) |}
  end.

End ActionExtract.

(** ** Runs of the exploration, and what they keep *)

Module ExploreRun.
Import JS ExploreChat.

(** What the hook does to the exploration refs: [handleMessageCompletion]
    runs [processExploreOutput] with the item being explored as parent, and
    [onGettingExploredMode] runs [getNextToExplore]. *)
Inductive Op : Type :=
| Turn (processedExploreMessage : list Element.t) (fullResponse : string)
    (url : option string) (imageData : option ImageData)
| Next.

Definition step (normalize : string → string) (op : Op) (st : State) : completion State :=
  match op with
  | Turn processedExploreMessage fullResponse url imageData =>
      bind (explore_turn normalize processedExploreMessage fullResponse url imageData st)
        (fun r => Normal (snd r))
  | Next => bind (getNextToExplore st) (fun r => Normal (snd r))
  end.

Fixpoint run (normalize : string → string) (ops : list Op) (st : State) : completion State :=
  match ops with
  | [] => Normal st
  | op :: ops' => bind (step normalize op st) (run normalize ops')
  end.

(** The store takes every value: no call of [localStorage.setItem] throws. *)
Definition store_accepts (st : State) : Prop :=
  ∀ n, setItem_outcome st n = Normal tt.

(** The visited routes are distinct and each of them has a queue. *)
Definition consistent (st : State) : Prop :=
  NoDup (exploreRoute st)
  ∧ ∀ route, route ∈ exploreRoute st → is_Some (exploreQueue st !! route).

Definition node_ids (st : State) : list string := Node.id <$> nodes (exploreGraphData st).

(** Whatever names a node names a node of the graph: the two ends of every
    edge, the page of every queued item and the page of the item being
    explored. *)
Definition anchored (st : State) : Prop :=
  (∀ e, e ∈ edges (exploreGraphData st) →
        Edge.source e ∈ node_ids st ∧ Edge.target e ∈ node_ids st)
  ∧ (∀ route items item, exploreQueue st !! route = Some items → item ∈ items →
                         Item.nodeId item ∈ node_ids st)
  ∧ (∀ c, currentlyExploring st = Some c → Exploring.nodeId c ∈ node_ids st).

(** Every handle that a node lists ([data.edges], one [Handle] each in
    [PageNode]) is the handle of an edge that leaves the node. *)
Definition handles_backed (st : State) : Prop :=
  ∀ node h, node ∈ nodes (exploreGraphData st) → h ∈ Node.edges node →
    ∃ e, e ∈ edges (exploreGraphData st)
         ∧ Edge.sourceHandle e = h ∧ Edge.source e = Node.id node.

(** The nodes stand in one column, in the order of their creation. *)
Definition laid_out (st : State) : Prop :=
  ∀ k node, nodes (exploreGraphData st) !! k = Some node →
            Node.position node = (200, k * 100).

(** [getNextToExplore] called until it returns nothing, at most [fuel] times:
    the items handed out. *)
Fixpoint drain (fuel : nat) (st : State) : completion (list Item.t * State) :=
  match fuel with
  | 0 => Normal ([], st)
  | S fuel' =>
      bind (getNextToExplore st)
        (fun r =>
           match fst r with
           | None => Normal ([], snd r)
           | Some item =>
               bind (drain fuel' (snd r)) (fun r' => Normal (item :: fst r', snd r'))
           end)
  end.

(** A short exploration: a page with two elements is found, its first
    element is taken, acting on it leads to a second page, and the next
    element is taken. *)
Definition tour : list Op :=
  [Turn [Scenario.element "Login" "10,10"; Scenario.element "About" "20,20"] "first"
     (Some "https://x/a") None;
   Next;
   Turn [Scenario.element "Sign in" "30,30"] "second" (Some "https://x/b") None;
   Next].

End ExploreRun.

(** ** The callbacks of the hook: messages, chunks, completion *)

Module ExploreHook.
Import JS ExploreChat.

(** What [MessageProcessor.processMessage] resolves to, as far as the hook
    reads it. *)
Record ProcessedResponse : Type := {
  response_text : string;
  actionResult : option string;
  omniParserResult : option JSON.value
}.

(** The hook: the refs of [ExploreChat.State], the [messages] state (the
    updaters given to [setMessages] run in the order of the calls), the ref
    [hasPartialMessage], and the last values given to
    [setLatestOmniParserResult] and to [setType].  The ref [messagesRef] is
    not touched by [setMessages]: it takes the value of [messages] after a
    render, see [render]. *)
Record Hook : Type := {
  refs : State;
  messages : list ChatMessage;
  hasPartialMessage : bool;
  latestOmniParserResult : option JSON.value;
  type_set : option string
}.

Definition set_refs (st : State) (h : Hook) : Hook :=
  {| refs := st; messages := messages h; hasPartialMessage := hasPartialMessage h;
     latestOmniParserResult := latestOmniParserResult h; type_set := type_set h |}.

Definition setMessages (updater : list ChatMessage → list ChatMessage) (h : Hook) : Hook :=
  {| refs := refs h; messages := updater (messages h);
     hasPartialMessage := hasPartialMessage h;
     latestOmniParserResult := latestOmniParserResult h; type_set := type_set h |}.

Definition set_hasPartialMessage (b : bool) (h : Hook) : Hook :=
  {| refs := refs h; messages := messages h; hasPartialMessage := b;
     latestOmniParserResult := latestOmniParserResult h; type_set := type_set h |}.

Definition setLatestOmniParserResult (o : option JSON.value) (h : Hook) : Hook :=
  {| refs := refs h; messages := messages h; hasPartialMessage := hasPartialMessage h;
     latestOmniParserResult := o; type_set := type_set h |}.

Definition setType (t : string) (h : Hook) : Hook :=
  {| refs := refs h; messages := messages h; hasPartialMessage := hasPartialMessage h;
     latestOmniParserResult := latestOmniParserResult h; type_set := Some t |}.

Definition set_isProcessing (b : bool) (st : State) : State :=
  {| exploreQueue := exploreQueue st; exploreRoute := exploreRoute st;
     exploreGraphData := exploreGraphData st; currentlyExploring := currentlyExploring st;
     isProcessing := b; activeMessageId := activeMessageId st;
     isChatStreaming := isChatStreaming st; messagesRef := messagesRef st;
     uuid_source := uuid_source st; uuid_drawn := uuid_drawn st; requests := requests st;
     setItem_outcome := setItem_outcome st; setItem_calls := setItem_calls st |}.

Definition set_activeMessageId (a : option string) (st : State) : State :=
  {| exploreQueue := exploreQueue st; exploreRoute := exploreRoute st;
     exploreGraphData := exploreGraphData st; currentlyExploring := currentlyExploring st;
     isProcessing := isProcessing st; activeMessageId := a;
     isChatStreaming := isChatStreaming st; messagesRef := messagesRef st;
     uuid_source := uuid_source st; uuid_drawn := uuid_drawn st; requests := requests st;
     setItem_outcome := setItem_outcome st; setItem_calls := setItem_calls st |}.

Definition setIsChatStreaming (b : bool) (st : State) : State :=
  {| exploreQueue := exploreQueue st; exploreRoute := exploreRoute st;
     exploreGraphData := exploreGraphData st; currentlyExploring := currentlyExploring st;
     isProcessing := isProcessing st; activeMessageId := activeMessageId st;
     isChatStreaming := b; messagesRef := messagesRef st;
     uuid_source := uuid_source st; uuid_drawn := uuid_drawn st; requests := requests st;
     setItem_outcome := setItem_outcome st; setItem_calls := setItem_calls st |}.

Definition set_messagesRef (l : list ChatMessage) (st : State) : State :=
  {| exploreQueue := exploreQueue st; exploreRoute := exploreRoute st;
     exploreGraphData := exploreGraphData st; currentlyExploring := currentlyExploring st;
     isProcessing := isProcessing st; activeMessageId := activeMessageId st;
     isChatStreaming := isChatStreaming st; messagesRef := l;
     uuid_source := uuid_source st; uuid_drawn := uuid_drawn st; requests := requests st;
     setItem_outcome := setItem_outcome st; setItem_calls := setItem_calls st |}.

(** The test of [addMessage]: same text, same author, same time. *)
Definition same_message (msg newMessage : ChatMessage) : bool :=
  String.eqb (msg_text msg) (msg_text newMessage)
  && Bool.eqb (isUser msg) (isUser newMessage)
  && N.eqb (timestamp msg) (timestamp newMessage).

(** The updater that [addMessage] gives to [setMessages]. *)
Definition addMessage (newMessage : ChatMessage) (prev : list ChatMessage)
  : list ChatMessage :=
  if existsb (fun msg => same_message msg newMessage) prev then prev
  else prev ++ [newMessage].

(** The updater that [updateLastMessage] gives to [setMessages].  When the
    updated message serializes like the last one the source returns [prev]
    itself, which is the same list of messages. *)
Fixpoint updateLastMessage (updater : ChatMessage → ChatMessage) (prev : list ChatMessage)
  : list ChatMessage :=
  match prev with
  | [] => []
  | [lastMessage] => [updater lastMessage]
  | msg :: rest => msg :: updateLastMessage updater rest
  end.

Definition with_text (text : string) (msg : ChatMessage) : ChatMessage :=
  {| msg_text := text; timestamp := timestamp msg; isUser := isUser msg;
     isPartial := isPartial msg; isHistory := isHistory msg |}.

Definition settled (msg : ChatMessage) : ChatMessage :=
  {| msg_text := msg_text msg; timestamp := timestamp msg; isUser := isUser msg;
     isPartial := false; isHistory := isHistory msg |}.

Definition archived (msg : ChatMessage) : ChatMessage :=
  {| msg_text := msg_text msg; timestamp := timestamp msg; isUser := isUser msg;
     isPartial := false; isHistory := true |}.

Definition is_active (messageId : string) (h : Hook) : bool :=
  bool_decide (activeMessageId (refs h) = Some messageId).

(** [handleMessageChunk]: [now] is the [new Date()] of the message added. *)
Definition handleMessageChunk (now : N) (messageId chunk fullResponse : string) (h : Hook)
  : Hook :=
  if negb (truthy (trim chunk)) || negb (is_active messageId h) then h
  else if negb (hasPartialMessage h) && is_active messageId h then
    setMessages (addMessage {| msg_text := fullResponse; timestamp := now; isUser := false;
                               isPartial := true; isHistory := false |})
      (set_hasPartialMessage true h)
  else setMessages (updateLastMessage (with_text fullResponse)) h.

(** The [onChunk] callback that [handleExploreMessage] hands to
    [sendExploreChatMessage], with the [fullResponse] it accumulates. *)
Definition onChunk (messageId : string) (acc : Hook * string) (arrival : N * string)
  : Hook * string :=
  let fullResponse := snd acc +:+ snd arrival in
  (handleMessageChunk (fst arrival) messageId (snd arrival) fullResponse (fst acc),
   fullResponse).

(** [handleError] *)
Definition handleError (now : N) (messageId : string) (h : Hook) : Hook :=
  if is_active messageId h then
    let h := set_refs (setIsChatStreaming false (refs h)) h in
    let h := set_hasPartialMessage false h in
    let h := set_refs (set_isProcessing false (set_activeMessageId None (refs h))) h in
    let h := if existsb isPartial (messagesRef (refs h))
             then setMessages (updateLastMessage settled) h else h in
    setMessages (addMessage {| msg_text := "Sorry, there was an error processing your message.";
                               timestamp := now; isUser := false; isPartial := false;
                               isHistory := false |}) h
  else h.

(** [stopStreaming] *)
Definition stopStreaming (h : Hook) : Hook :=
  if isChatStreaming (refs h) then
    let h := set_refs (set_activeMessageId None (refs h)) h in
    let h := set_hasPartialMessage false h in
    let h := set_refs (setIsChatStreaming false (set_isProcessing false (refs h))) h in
    if existsb isPartial (messagesRef (refs h))
    then setMessages (updateLastMessage archived) h else h
  else h.

(** [clearChat] *)
Definition clearChat (h : Hook) : Hook :=
  if negb (isChatStreaming (refs h)) then
    let h := set_hasPartialMessage false h in
    let h := set_refs (set_messagesRef []
                         (set_isProcessing false (set_activeMessageId None (refs h)))) h in
    setMessages (fun _ => []) h
  else h.

(** The text that [onGettingExploredMode] sends for the next element. *)
Definition visit_message (item : Item.t) : string :=
  "In " +:+ Item.url item +:+ " " +:+ String (ascii_of_nat 10) " Visit " +:+ Item.text item
    +:+ " on coordinate : " +:+ Item.coordinates item
    +:+ " with about this element : " +:+ Item.aboutThisElement item
    +:+ ". You can decide what to do prior to it.".

(** [onGettingExploredMode]: [now] is the [new Date()] of the message added,
    [sent] the [Date.now()] of the turn started. *)
Definition onGettingExploredMode (now sent : N) (imageData : option ImageData) (h : Hook)
  : completion Hook :=
  bind (getNextToExplore (refs h))
    (fun r =>
       let nextElementToVisit := fst r in
       let h := set_refs (set_isProcessing false (snd r)) h in
       let h := setType "action" h in
       let h := setMessages (fun _ => []) h in
       match nextElementToVisit with
       | Some item =>
           let message := visit_message item in
           let h := setMessages (addMessage {| msg_text := message; timestamp := now;
                                               isUser := true; isPartial := false;
                                               isHistory := false |}) h in
           Normal (set_refs (handleExploreMessage sent message "action" imageData (refs h)) h)
       | None => Normal (set_refs (setIsChatStreaming false (refs h)) h)
       end).

Definition truthy_opt (x : option string) : bool :=
  match x with
  | Some s => truthy s
  | None => false
  end.

(** [handleMessageCompletion] up to its first [await]: [None] when the
    message is not the active one, and the handler returns at once. *)
Definition handleMessageCompletion_begin (messageId : string) (h : Hook) : option Hook :=
  if negb (is_active messageId h) then None
  else
    let h := set_hasPartialMessage false h in
    Some (setMessages (updateLastMessage settled) h).

(** [handleMessageCompletion] from the return of its second [await] on.
    [processedResponse] is what [MessageProcessor.processMessage] resolved to
    and [exploredOutput] what [processExploreOutput] resolved to; [h] is the
    hook as it is by then, after whatever ran while the handler was waiting:
    the handler does not look at [activeMessageId] again.  [now] is the
    [new Date()] of a message added, [sent] the [Date.now()] of the turn
    started. *)
Definition handleMessageCompletion_resume (now sent : N) (fullResponse : string)
    (imageData : option ImageData) (processedResponse : ProcessedResponse)
    (exploredOutput : option (option Element.t)) (h : Hook) : completion Hook :=
  let completes := includes fullResponse "<complete_task>" in
  if truthy_opt (actionResult processedResponse) || completes then
    let h := match omniParserResult processedResponse with
             | Some o => setLatestOmniParserResult (Some o) h
             | None => h
             end in
    let h := setMessages (updateLastMessage archived) h in
    let h := if truthy_opt (actionResult processedResponse) then
               setMessages
                 (addMessage {| msg_text := default "" (actionResult processedResponse);
                                timestamp := now; isUser := false;
                                isPartial := false; isHistory := false |}) h
             else h in
    let h := set_refs (set_isProcessing false (refs h)) h in
    let h := if completes then setType "explore" h else h in
    Normal (set_refs
              (handleExploreMessage sent
                 (if truthy_opt (actionResult processedResponse)
                  then default "" (actionResult processedResponse)
                  else response_text processedResponse)
                 (if completes then "explore" else "action")
                 imageData (refs h)) h)
  else
    match exploredOutput with
    | Some (Some _) => onGettingExploredMode now sent imageData h
    | _ =>
        let h := setMessages (updateLastMessage archived) h in
        Normal (set_refs
                  (set_isProcessing false
                     (set_activeMessageId None
                        (setIsChatStreaming false (refs h)))) h)
    end.

(** [handleMessageCompletion] when nothing else runs while it waits:
    [processed] is what [MessageProcessor.processMessage] resolves to,
    [processedExploreMessage] and [url] what [processExploreOutput] gets from
    [MessageProcessor.processExploreMessage] and from [getCurrentUrl].  When
    an awaited call rejects, the handler rejects with it, and what it had set
    by then is not followed further. *)
Definition handleMessageCompletion (normalize : string → string) (now sent : N)
    (messageId fullResponse : string) (imageData : option ImageData)
    (processed : completion ProcessedResponse)
    (processedExploreMessage : list Element.t) (url : option string) (h : Hook)
  : completion Hook :=
  match handleMessageCompletion_begin messageId h with
  | None => Normal h
  | Some h =>
      bind processed
        (fun processedResponse =>
           bind (explore_turn normalize processedExploreMessage fullResponse url imageData
                   (refs h))
             (fun r =>
                handleMessageCompletion_resume now sent fullResponse imageData
                  processedResponse (fst r) (set_refs (snd r) h)))
  end.

(** The effect that runs after every render in which [messages] changed:
    [messagesRef.current = messages].  The handlers run between renders. *)
Definition render (h : Hook) : Hook :=
  set_refs (set_messagesRef (messages h) (refs h)) h.

(** Two messages that [addMessage] takes for the same one. *)
Definition message_key (msg : ChatMessage) : string * bool * N :=
  (msg_text msg, isUser msg, timestamp msg).

(** The time of the first chunk that is not white space. *)
Fixpoint first_visible (arrivals : list (N * string)) : option N :=
  match arrivals with
  | [] => None
  | (now, chunk) :: rest => if truthy (trim chunk) then Some now else first_visible rest
  end.

(** The chunks of a response, one after the other. *)
Fixpoint text_of (chunks : list string) : string :=
  match chunks with
  | [] => ""
  | chunk :: rest => chunk +:+ text_of rest
  end.

(** The hook while its first turn streams: the message [msg_1000] was sent
    and nothing came back yet. *)
Definition streaming : Hook :=
  {| refs := handleExploreMessage 1000 "Explore the site" "explore" None Scenario.initial;
     messages := []; hasPartialMessage := false; latestOmniParserResult := None;
     type_set := None |}.

End ExploreHook.

(** ** The provider: the page router *)

Module ProviderRun.
Import JS Provider.

(** [ExploreModeAnthropicProvider.pageRouter] and
    [generateComponentDescription].  [getCurrentUrl] is what
    [getCurrentUrlBasedOnSource] resolves to, [getLatestScreenshot] the
    [originalImage] of the screenshot ([None] when there is nothing to call
    [replace] on), [create] the texts of the content blocks of the answer of
    [client.messages.create], and [save] what [saveFileAndScreenshot]
    resolves to.  No other call runs between its awaits. *)
Definition generateComponentDescription
    (getCurrentUrl : completion string) (getLatestScreenshot : completion (option string))
    (create : completion (list string)) (save : completion unit)
    (pageRouter : gset string) : completion bool * gset string :=
  match getCurrentUrl with
  | Throw e => (Throw e, pageRouter)
  | Normal pageUrl =>
      match getLatestScreenshot with
      | Throw e => (Throw e, pageRouter)
      | Normal screenshot =>
          if bool_decide (pageUrl ∈ pageRouter) then (Normal false, pageRouter)
          else
            let pageRouter := {[pageUrl]} ∪ pageRouter in
            match screenshot with
            | None => (Throw "TypeError", pageRouter)
            | Some _ =>
                match create with
                | Throw e => (Throw e, pageRouter)
                | Normal [] => (Throw "TypeError", pageRouter)
                | Normal (_ :: _) =>
                    match save with
                    | Throw e => (Throw e, pageRouter)
                    | Normal _ => (Normal true, pageRouter ∖ {[pageUrl]})
                    end
                end
            end
      end
  end.

End ProviderRun.

(** ** The Docker VNC service: [DockerVNCService] *)

Module DockerVNCService.
Import JS.

Record ContainerStatus : Type := {
  exists_ : bool;
  running : bool;
  id : option string
}.

Record ServiceStatus : Type := {
  vncReady : bool;
  noVncReady : bool
}.

Record ActionResponse : Type := {
  status : string;
  message : string;
  screenshot : option string
}.

(** A line given to [emitConsoleLog]: its level and its text. *)
Definition Log : Type := string * string.

(** An event given to [io.sockets.emit]: its name, then the [url], the
    [screenshot] and the [message] of its payload. *)
Record SocketEvent : Type := {
  event : string;
  event_url : string;
  event_screenshot : string;
  event_message : option string
}.

(** A call of [launchFirefoxWithUrl], which changes no field of the service:
    how it settles, the lines it gives to [emitConsoleLog] and the events it
    gives to [io.sockets.emit] on the way. *)
Record Launch : Type := {
  settles : completion unit;
  launch_logs : list Log;
  launch_events : list SocketEvent
}.

(** What the calls on [DockerCommands] and [DockerActions] resolve to;
    [checkServiceDetailed n] is the answer to the poll number [n], and
    [launchFirefoxWithUrl] what the commands behind the method of that name
    make of it. *)
Record Docker : Type := {
  checkContainerStatus : completion ContainerStatus;
  startContainer : completion unit;
  checkServiceDetailed : nat → completion ServiceStatus;
  images : completion string;
  createContainer : completion string;
  launchFirefoxWithUrl : Launch;
  takeScreenshotCommand : completion string;
  autotype : completion unit;
  dockerPerformAction : completion ActionResponse;
  getUrl : completion ActionResponse
}.

(** The fields of the service, and what it has logged and emitted. *)
Record Service : Type := {
  isConnected : bool;
  isInitialized : bool;
  containerId : option string;
  logs : list Log;
  emitted : list SocketEvent
}.

Definition emitConsoleLog (level text : string) (s : Service) : Service :=
  {| isConnected := isConnected s; isInitialized := isInitialized s;
     containerId := containerId s; logs := logs s ++ [(level, text)];
     emitted := emitted s |}.

Definition emit (e : SocketEvent) (s : Service) : Service :=
  {| isConnected := isConnected s; isInitialized := isInitialized s;
     containerId := containerId s; logs := logs s; emitted := emitted s ++ [e] |}.

Definition set_containerId (c : option string) (s : Service) : Service :=
  {| isConnected := isConnected s; isInitialized := isInitialized s;
     containerId := c; logs := logs s; emitted := emitted s |}.

Definition set_ready (b : bool) (s : Service) : Service :=
  {| isConnected := b; isInitialized := b;
     containerId := containerId s; logs := logs s; emitted := emitted s |}.

Definition number (n : nat) : string := NilZero.string_of_uint (Nat.to_uint n).

Definition truthy_id (c : option string) : bool :=
  match c with
  | Some s => truthy s
  | None => false
  end.

(** [error.message || d] *)
Definition message_or (e d : string) : string := if truthy e then e else d.

Definition maxAttempts : nat := 60.

(** The [while (attempts < maxAttempts)] loop of [waitForServices], with
    [remaining = maxAttempts - attempts]: the outcome, the service with its
    log, and the number of polls made. *)
Fixpoint waitForServices_loop (remaining attempts : nat)
    (check : nat → completion ServiceStatus) (s : Service)
  : completion unit * Service * nat :=
  match remaining with
  | 0 =>
      (Throw ("Timeout waiting for services to start. "
                +:+ "Please check Docker logs for more information."), s, attempts)
  | S remaining' =>
      match check attempts with
      | Throw e => (Throw e, s, S attempts)
      | Normal serviceStatus =>
          if vncReady serviceStatus && noVncReady serviceStatus then
            (Normal tt, emitConsoleLog "info" "All VNC services started successfully" s,
             S attempts)
          else
            let progress := " [" +:+ number (attempts + 1) +:+ "/" +:+ number maxAttempts
                              +:+ "]" in
            let s :=
              if (attempts mod 5 =? 0)%nat then
                if negb (vncReady serviceStatus) && negb (noVncReady serviceStatus) then
                  emitConsoleLog "info" ("Waiting for VNC and noVNC services..." +:+ progress) s
                else if negb (vncReady serviceStatus) then
                  emitConsoleLog "info"
                    ("Waiting for VNC service (port 5900)..." +:+ progress) s
                else if negb (noVncReady serviceStatus) then
                  emitConsoleLog "info"
                    ("Waiting for noVNC service (port 6080)..." +:+ progress) s
                else s
              else s in
            waitForServices_loop remaining' (S attempts) check s
      end
  end.

(** [waitForServices] *)
Definition waitForServices (docker : Docker) (s : Service) : completion unit * Service * nat :=
  if negb (truthy_id (containerId s)) then (Throw "No container ID available", s, 0)
  else
    waitForServices_loop maxAttempts 0 (checkServiceDetailed docker)
      (emitConsoleLog "info" "Waiting for VNC services to start..." s).

(** [cleanup]: [stopScreenshotStream] does nothing, and no log stream is ever
    stored in [logStreams]. *)
Definition cleanup (s : Service) : Service :=
  let s := emitConsoleLog "info" "Cleaning up Ubuntu Docker VNC resources..." s in
  let s := set_ready false s in
  emitConsoleLog "info" "VNC resources cleaned up, container left running" s.

(** A step of an [async] body that may reject: the service as the step left
    it is kept either way. *)
Definition Outcome (A : Type) : Type := completion A * Service.

Definition and_then {A B} (o : Outcome A) (f : A → Service → Outcome B) : Outcome B :=
  match o with
  | (Normal a, s) => f a s
  | (Throw e, s) => (Throw e, s)
  end.

Definition await {A} (c : completion A) (s : Service) : Outcome A := (c, s).

(** [await this.launchFirefoxWithUrl(url)] *)
Definition launch (docker : Docker) (s : Service) : Outcome unit :=
  (settles (launchFirefoxWithUrl docker),
   {| isConnected := isConnected s; isInitialized := isInitialized s;
      containerId := containerId s;
      logs := logs s ++ launch_logs (launchFirefoxWithUrl docker);
      emitted := emitted s ++ launch_events (launchFirefoxWithUrl docker) |}).

(** [ensureImageExists] *)
Definition ensureImageExists (docker : Docker) (s : Service) : Outcome unit :=
  match images docker with
  | Normal _ => (Normal tt, s)
  | Throw e => (Throw e, emitConsoleLog "error" "Docker image not available." s)
  end.

(** The two branches of [initialize] after the container is known; the log
    streams that [setupLogStreams] starts report later, on their own. *)
Definition connect_existing (docker : Docker) (url : string) (shouldLaunchBrowser : bool)
    (containerStatus : ContainerStatus) (s : Service) : Outcome ActionResponse :=
  let s := set_containerId (id containerStatus) s in
  and_then
    (if negb (running containerStatus) then
       await (startContainer docker)
         (emitConsoleLog "info"
            ("Starting existing container " +:+ default "" (containerId s) +:+ "...") s)
     else
       (Normal tt,
        emitConsoleLog "info" ("Using running container " +:+ default "" (containerId s)) s))
    (fun _ s =>
       and_then (let '(r, s, _) := waitForServices docker s in (r, s))
         (fun _ s =>
            let s := emitConsoleLog "info"
                       "Allowing extra time for VNC services to stabilize..." s in
            let s := set_ready true s in
            let s := emitConsoleLog "info"
                       "Connected to existing Ubuntu Docker VNC container" s in
            and_then
              (if shouldLaunchBrowser && truthy_id (containerId s)
               then launch docker s else (Normal tt, s))
              (fun _ s =>
                 (Normal {| status := "success";
                            message :=
                              if shouldLaunchBrowser then
                                "Connected to existing Ubuntu Docker VNC container and "
                                  +:+ "launched Firefox with URL: " +:+ url
                              else "Connected to existing Ubuntu Docker VNC container";
                            screenshot := None |}, s)))).

Definition create_new (docker : Docker) (url : string) (shouldLaunchBrowser : bool)
    (s : Service) : Outcome ActionResponse :=
  and_then (ensureImageExists docker s)
    (fun _ s =>
       and_then (await (createContainer docker) s)
         (fun containerId s =>
            let s := set_containerId (Some containerId) s in
            and_then (let '(r, s, _) := waitForServices docker s in (r, s))
              (fun _ s =>
                 let s := emitConsoleLog "info"
                            "Allowing extra time for VNC services to stabilize..." s in
                 let s := set_ready true s in
                 let s := emitConsoleLog "info" "Ubuntu Docker VNC initialization complete" s in
                 and_then
                   (if shouldLaunchBrowser && truthy_id (DockerVNCService.containerId s)
                    then launch docker s else (Normal tt, s))
                   (fun _ s =>
                      (Normal {| status := "success";
                                 message :=
                                   if shouldLaunchBrowser then
                                     "Ubuntu Docker VNC initialization complete and "
                                       +:+ "Firefox launched with URL: " +:+ url
                                   else "Ubuntu Docker VNC initialization complete";
                                 screenshot := None |}, s))))).

(** [initialize] *)
Definition initialize (docker : Docker) (url : string) (s : Service) : Outcome ActionResponse :=
  let s := emitConsoleLog "info" "Initializing Ubuntu Docker VNC..." s in
  let shouldLaunchBrowser := truthy url && (0 <? String.length (trim url))%nat in
  match
    and_then (await (checkContainerStatus docker) s)
      (fun containerStatus s =>
         if exists_ containerStatus && truthy_id (id containerStatus) then
           connect_existing docker url shouldLaunchBrowser containerStatus s
         else create_new docker url shouldLaunchBrowser s)
  with
  | (Normal r, s) => (Normal r, s)
  | (Throw e, s) =>
      let s := emitConsoleLog "error"
                 ("VNC initialization error: " +:+ message_or e "Unknown error") s in
      (Throw e, cleanup s)
  end.

Definition ready (s : Service) : bool :=
  isInitialized s && isConnected s && truthy_id (containerId s).

(** [takeScreenshot]: the command is returned without [await], so its
    rejection is not caught. *)
Definition takeScreenshot (docker : Docker) (s : Service) : Outcome (option string) :=
  if negb (ready s) then (Throw "VNC not initialized", s)
  else
    match takeScreenshotCommand docker with
    | Normal image => (Normal (Some image), s)
    | Throw e => (Throw e, s)
    end.

(** [performAction]: [action] is [action.action] and [url] is [params?.url]. *)
Definition performAction (docker : Docker) (action : string) (url : option string)
    (s : Service) : Outcome ActionResponse :=
  if negb (ready s) then
    (Normal {| status := "error"; message := "VNC not initialized"; screenshot := None |}, s)
  else if String.eqb action "launch" && truthy_id url then
    let url := default "" url in
    match
      and_then (launch docker s)
        (fun _ s =>
           and_then (takeScreenshot docker s)
             (fun shot s =>
                let shot := if truthy_id shot then default "" shot else "" in
                let s := emitConsoleLog "info"
                           "Triggering automatic exploration via multiple methods" s in
                let s := emit {| event := "firefox-launched"; event_url := url;
                                 event_screenshot := shot; event_message := None |} s in
                let s := emit {| event := "auto-explore"; event_url := url;
                                 event_screenshot := shot;
                                 event_message := Some ("Explore " +:+ url) |} s in
                let s := emitConsoleLog "info" ("Running autotype script for " +:+ url) s in
                let s := match autotype docker with
                         | Normal _ => s
                         | Throw e =>
                             emitConsoleLog "warn"
                               ("Failed to run autotype script: "
                                  +:+ message_or e "Unknown error") s
                         end in
                (Normal {| status := "success";
                           message := "Launched Firefox with URL: " +:+ url
                                        +:+ " and triggered exploration";
                           screenshot := Some shot |}, s)))
    with
    | (Normal r, s) => (Normal r, s)
    | (Throw e, s) =>
        (Normal {| status := "error"; message := message_or e "Failed to launch Firefox";
                   screenshot := Some "" |}, s)
    end
  else
    let s := emitConsoleLog "info" ("Performing VNC action: " +:+ action) s in
    match dockerPerformAction docker with
    | Normal r => (Normal r, s)
    | Throw e =>
        (Normal {| status := "error"; message := message_or e "VNC action failed";
                   screenshot := None |},
         emitConsoleLog "error" ("VNC action error: " +:+ message_or e "Unknown error") s)
    end.

(** [getCurrentUrl] *)
Definition getCurrentUrl (docker : Docker) (s : Service) : Outcome ActionResponse :=
  if negb (ready s) then
    (Normal {| status := "error"; message := "VNC not initialized"; screenshot := Some "" |}, s)
  else (getUrl docker, s).

(** [startScreenshotStream] *)
Definition startScreenshotStream (s : Service) : Outcome unit :=
  if negb (isInitialized s) || negb (isConnected s) then (Throw "VNC not initialized", s)
  else (Normal tt, emitConsoleLog "info" "VNC streaming is handled by noVNC client" s).

(** No poll before [n] found both services ready. *)
Definition not_ready_before (check : nat → completion ServiceStatus) (n : nat) : Prop :=
  ∀ i, i < n →
       ∃ serviceStatus, check i = Normal serviceStatus
                        ∧ vncReady serviceStatus && noVncReady serviceStatus = false.

(** A container that exists but is stopped, whose noVNC service answers from
    the third poll on. *)
Definition slow_start : Docker :=
  {| checkContainerStatus := Normal {| exists_ := true; running := false; id := Some "4f2a" |};
     startContainer := Normal tt;
     checkServiceDetailed :=
       fun n => Normal {| vncReady := true; noVncReady := (2 <=? n)%nat |};
     images := Normal "";
     createContainer := Normal "4f2a";
     launchFirefoxWithUrl := {| settles := Normal tt; launch_logs := []; launch_events := [] |};
     takeScreenshotCommand := Normal "AAAA";
     autotype := Normal tt;
     dockerPerformAction :=
       Normal {| status := "success"; message := "Action performed"; screenshot := None |};
     getUrl := Normal {| status := "success"; message := "https://x/a"; screenshot := None |} |}.

(** The service once [initialize] has stored the container. *)
Definition stored : Service :=
  {| isConnected := false; isInitialized := false; containerId := Some "4f2a";
     logs := []; emitted := [] |}.

End DockerVNCService.

(** ** The screen stream: [SSEService] *)

Module SSEService.
Import JS.

(** What is given to [window.dispatchEvent]. *)
Inductive WindowEvent : Type :=
| screen_stream (detail : option JSON.value)
| browser_console (type message : string).

(** The singleton: [eventSource] holds the endpoint of the [EventSource] in
    use ([None] for [null]); [constructed] lists the endpoints of the
    [EventSource] objects made so far, [timers] the delay and the endpoint of
    every reconnection given to [setTimeout]. *)
Record t : Type := {
  eventSource : option string;
  source : CommonUtil.StreamingSource;
  reconnectAttempts : nat;
  constructed : list string;
  timers : list (nat * string);
  dispatched : list WindowEvent
}.

Definition maxReconnectAttempts : nat := 5.
Definition reconnectTimeout : nat := 3000.

Definition source_name (source : CommonUtil.StreamingSource) : string :=
  match source with
  | CommonUtil.chrome_puppeteer => "chrome-puppeteer"
  | CommonUtil.ubuntu_docker_vnc => "ubuntu-docker-vnc"
  end.

Definition dispatchEvent (e : WindowEvent) (s : t) : t :=
  {| eventSource := eventSource s; source := source s;
     reconnectAttempts := reconnectAttempts s; constructed := constructed s;
     timers := timers s; dispatched := dispatched s ++ [e] |}.

Definition setSource (source : CommonUtil.StreamingSource) (s : t) : t :=
  {| eventSource := eventSource s; source := source;
     reconnectAttempts := reconnectAttempts s; constructed := constructed s;
     timers := timers s; dispatched := dispatched s |}.

(** [connect(url)] *)
Definition connect (url : option string) (s : t) : t :=
  match eventSource s with
  | Some _ => s
  | None =>
      let endpoint :=
        match url with
        | Some u =>
            if truthy u then u
            else "http://localhost:3000/browser/screenstream?source=" +:+ source_name (source s)
        | None =>
            "http://localhost:3000/browser/screenstream?source=" +:+ source_name (source s)
        end in
      {| eventSource := Some endpoint; source := source s;
         reconnectAttempts := reconnectAttempts s;
         constructed := constructed s ++ [endpoint];
         timers := timers s; dispatched := dispatched s |}
  end.

(** [disconnect()] *)
Definition disconnect (s : t) : t :=
  match eventSource s with
  | Some _ =>
      dispatchEvent (browser_console "info" "Screen streaming disconnected")
        {| eventSource := None; source := source s;
           reconnectAttempts := reconnectAttempts s; constructed := constructed s;
           timers := timers s; dispatched := dispatched s |}
  | None => s
  end.

(** The value of a key of a parsed object; the last of equal keys counts. *)
Definition property (key : string) (v : JSON.value) : completion (option JSON.value) :=
  match v with
  | JSON.JNull => Throw "TypeError"
  | JSON.JObject members =>
      Normal (snd <$> List.find (fun m => String.eqb (fst m) key) (rev members))
  | _ => Normal None
  end.

(** [eventSource.onmessage] *)
Definition onmessage (data : string) (s : t) : t :=
  match bind (JSON.parse data) (property "screenShot") with
  | Normal detail => dispatchEvent (screen_stream detail) s
  | Throw _ => s
  end.

(** [eventSource.onopen] *)
Definition onopen (s : t) : t :=
  dispatchEvent (browser_console "info" "Screen streaming connected")
    {| eventSource := eventSource s; source := source s; reconnectAttempts := 0;
       constructed := constructed s; timers := timers s; dispatched := dispatched s |}.

(** [eventSource.onerror] of the [EventSource] made for [endpoint]; [error]
    is the text of the event. *)
Definition onerror (endpoint error : string) (s : t) : t :=
  let s := dispatchEvent (browser_console "error" ("SSE connection error: " +:+ error)) s in
  let s := disconnect s in
  if (reconnectAttempts s <? maxReconnectAttempts)%nat then
    let attempts := S (reconnectAttempts s) in
    let timeout := reconnectTimeout * 2 ^ (attempts - 1) in
    {| eventSource := eventSource s; source := source s; reconnectAttempts := attempts;
       constructed := constructed s; timers := timers s ++ [(timeout, endpoint)];
       dispatched := dispatched s |}
  else s.

Definition number (n : nat) : string := NilZero.string_of_uint (Nat.to_uint n).

(** The function given to [setTimeout], when it runs. *)
Definition reconnect (endpoint : string) (s : t) : t :=
  connect (Some endpoint)
    (dispatchEvent
       (browser_console "info"
          ("Attempting to reconnect (" +:+ number (reconnectAttempts s) +:+ "/"
             +:+ number maxReconnectAttempts +:+ ")...")) s).

(** What can happen to the service.  The handlers of an [EventSource] run
    only while it is the one in use: [close()] ends its events. *)
Inductive Event : Type :=
| Connect (url : option string)
| Disconnect
| Open
| Error (error : string)
| Message (data : string)
| TimerFired (endpoint : string).

Definition handle (s : t) (e : Event) : t :=
  match e with
  | Connect url => connect url s
  | Disconnect => disconnect s
  | Open => match eventSource s with Some _ => onopen s | None => s end
  | Error error => match eventSource s with Some endpoint => onerror endpoint error s | None => s end
  | Message data => match eventSource s with Some _ => onmessage data s | None => s end
  | TimerFired endpoint => reconnect endpoint s
  end.

Definition is_open (e : Event) : bool :=
  match e with
  | Open => true
  | _ => false
  end.

(** The singleton as [getInstance] makes it. *)
Definition initial : t :=
  {| eventSource := None; source := CommonUtil.chrome_puppeteer; reconnectAttempts := 0;
     constructed := []; timers := []; dispatched := [] |}.

End SSEService.

(** ** The URL bar of the preview: [usePreview] *)

Module Preview.
Import JS.

(** The state of [usePreview] that the URL bar works on, and the URLs given
    to [SocketService.getInstance().emit('change-url', { url })]. *)
Record t : Type := {
  currentUrl : string;
  urlHistory : list string;
  urlInput : string;
  streamingSource : CommonUtil.StreamingSource;
  change_url : list string
}.

(** The state of the first render. *)
Definition initial (streamingSource : CommonUtil.StreamingSource) : t :=
  {| currentUrl := ""; urlHistory := [""]; urlInput := "";
     streamingSource := streamingSource; change_url := [] |}.

Definition is_puppeteer (source : CommonUtil.StreamingSource) : bool :=
  match source with
  | CommonUtil.chrome_puppeteer => true
  | CommonUtil.ubuntu_docker_vnc => false
  end.

(** [setStreamingSource], as [handleSourceChange] calls it. *)
Definition setStreamingSource (newSource : CommonUtil.StreamingSource) (s : t) : t :=
  {| currentUrl := currentUrl s; urlHistory := urlHistory s; urlInput := urlInput s;
     streamingSource := newSource; change_url := change_url s |}.

(** [setUrlInput] *)
Definition setUrlInput (urlInput : string) (s : t) : t :=
  {| currentUrl := currentUrl s; urlHistory := urlHistory s; urlInput := urlInput;
     streamingSource := streamingSource s; change_url := change_url s |}.

(** [handleUrlSubmit] *)
Definition handleUrlSubmit (s : t) : t :=
  if truthy (trim (urlInput s)) && negb (is_puppeteer (streamingSource s)) then
    let formattedUrl :=
      if startsWith "http" (urlInput s) then urlInput s else "https://" +:+ urlInput s in
    {| currentUrl := formattedUrl; urlHistory := urlHistory s ++ [formattedUrl];
       urlInput := urlInput s; streamingSource := streamingSource s;
       change_url := change_url s ++ [formattedUrl] |}
  else s.

(** [handleBackNavigation]: [newHistory] keeps an entry, since [urlHistory]
    had more than one. *)
Definition handleBackNavigation (s : t) : t :=
  if (1 <? List.length (urlHistory s))%nat && negb (is_puppeteer (streamingSource s)) then
    let newHistory := removelast (urlHistory s) in
    let previousUrl := List.last newHistory "" in
    {| currentUrl := previousUrl; urlHistory := newHistory; urlInput := previousUrl;
       streamingSource := streamingSource s; change_url := change_url s ++ [previousUrl] |}
  else s.

(** What the user does to the URL bar; every handler runs on the state of
    the last render. *)
Inductive Event : Type :=
| Typed (urlInput : string)
| Selected (newSource : CommonUtil.StreamingSource)
| Submitted
| WentBack.

Definition handle (s : t) (e : Event) : t :=
  match e with
  | Typed urlInput => setUrlInput urlInput s
  | Selected newSource => setStreamingSource newSource s
  | Submitted => handleUrlSubmit s
  | WentBack => handleBackNavigation s
  end.

End Preview.

(** ** The reader of the chat stream: [sendChatMessage] of [services/api]

    [sendChatMessage] from the answer of [fetch] on: the timer it arms and
    the loop that reads the body.  What happens to it is a sequence of
    events: time that passes, in milliseconds, and reads that settle.  The
    text of a read is what [decoder.decode(value)] returns. *)

Module ChatStream.
Import JS.

(** The errors given to [onError]. *)
Inductive Failure : Type :=
| connection_timeout                      (** ['Connection timeout - no response received'] *)
| reported (message : option JSON.value)  (** [new Error(data.message)] *)
| thrown (error : string).                (** what [reader.read()] or the loop body threw *)

Inductive Callback : Type :=
| onChunk (chunk : JSON.value)
| onComplete
| onError (error : Failure).

(** [connectionTimeout] is the time at which the timer is due, while it is
    pending; [reading] says that [processStream] waits for [reader.read()];
    [cancelled] that [reader.cancel()] was called; [called] lists the
    callbacks called so far. *)
Record t : Type := {
  hasReceivedMessage : bool;
  connectionTimeout : option N;
  clock : N;
  reading : bool;
  cancelled : bool;
  called : list Callback
}.

(** The state when the timer is armed, at the time [now]. *)
Definition start (now : N) : t :=
  {| hasReceivedMessage := false; connectionTimeout := Some (now + 60 * 1000)%N;
     clock := now; reading := true; cancelled := false; called := [] |}.

Definition call (c : Callback) (s : t) : t :=
  {| hasReceivedMessage := hasReceivedMessage s; connectionTimeout := connectionTimeout s;
     clock := clock s; reading := reading s; cancelled := cancelled s;
     called := called s ++ [c] |}.

Definition clearTimeout (s : t) : t :=
  {| hasReceivedMessage := hasReceivedMessage s; connectionTimeout := None;
     clock := clock s; reading := reading s; cancelled := cancelled s;
     called := called s |}.

Definition cancel (s : t) : t :=
  {| hasReceivedMessage := hasReceivedMessage s; connectionTimeout := connectionTimeout s;
     clock := clock s; reading := reading s; cancelled := true; called := called s |}.

(** [processStream] returns, or leaves its loop. *)
Definition leave (s : t) : t :=
  {| hasReceivedMessage := hasReceivedMessage s; connectionTimeout := connectionTimeout s;
     clock := clock s; reading := false; cancelled := cancelled s; called := called s |}.

Definition received (s : t) : t :=
  {| hasReceivedMessage := true; connectionTimeout := connectionTimeout s;
     clock := clock s; reading := reading s; cancelled := cancelled s;
     called := called s |}.

Definition newline : ascii := ascii_of_nat 10.

(** [chunk.split('\n')] *)
Fixpoint split_lines (s : string) : list string :=
  match s with
  | EmptyString => [EmptyString]
  | String c s' =>
      match split_lines s' with
      | line :: rest =>
          if Ascii.eqb c newline then EmptyString :: line :: rest
          else String c line :: rest
      | [] => [String c EmptyString]
      end
  end.

(** How the body of the [for ... of] loop ends for a line. *)
Inductive Flow : Type :=
| Continue
| Return
| Raise (error : string).

Section Reader.

(** Whether the number that a lexeme denotes is other than zero: the doubles
    are not computed here. *)
Variable nonzero : string → bool.

(** The truth value of a property of the parsed event; [None] is
    [undefined]. *)
Definition truthy_value (v : option JSON.value) : bool :=
  match v with
  | None => false
  | Some JSON.JNull => false
  | Some (JSON.JBool b) => b
  | Some (JSON.JNumber lexeme) => nonzero lexeme
  | Some (JSON.JString raw) => truthy raw
  | Some (JSON.JArray _) => true
  | Some (JSON.JObject _) => true
  end.

(** A property of [data] once [data.isComplete] was read: [data] is not
    [null] then, and reading a property does not throw. *)
Definition read_property (key : string) (data : JSON.value) : option JSON.value :=
  match SSEService.property key data with
  | Normal v => v
  | Throw _ => None
  end.

(** The body of the loop over the lines. *)
Definition on_line (line : string) (s : t) : Flow * t :=
  if startsWith "data: " line then
    match JSON.parse (sdrop 6 line) with
    | Throw e => (Raise e, s)
    | Normal data =>
        match SSEService.property "isComplete" data with
        | Throw e => (Raise e, s)
        | Normal isComplete =>
            if truthy_value isComplete then (Return, call onComplete s)
            else if truthy_value (read_property "isError" data) then
              (Return, call (onError (reported (read_property "message" data))) s)
            else
              match read_property "message" data with
              | Some message =>
                  if truthy_value (Some message) then (Continue, call (onChunk message) s)
                  else (Continue, s)
              | None => (Continue, s)
              end
        end
    end
  else (Continue, s).

Fixpoint on_lines (lines : list string) (s : t) : Flow * t :=
  match lines with
  | [] => (Continue, s)
  | line :: rest =>
      match on_line line s with
      | (Continue, s) => on_lines rest s
      | ended => ended
      end
  end.

(** The [catch] of [processStream]. *)
Definition caught (error : string) (s : t) : t :=
  leave (call (onError (thrown error)) (clearTimeout s)).

(** [reader.read()] resolves with a chunk. *)
Definition on_read (value : string) (s : t) : t :=
  let s := clearTimeout (received s) in
  let lines := List.filter (fun line => truthy (trim line)) (split_lines value) in
  match on_lines lines s with
  | (Continue, s) => s
  | (Return, s) => leave s
  | (Raise error, s) => caught error s
  end.

(** [reader.read()] resolves with [done]. *)
Definition on_done (s : t) : t := leave (call onComplete s).

(** The function given to [setTimeout], when the timer is due. *)
Definition on_timer (s : t) : t :=
  if negb (hasReceivedMessage s) then call (onError connection_timeout) (cancel s) else s.

(** Time passes, and no read settles meanwhile. *)
Definition elapse (ms : N) (s : t) : t :=
  let s := {| hasReceivedMessage := hasReceivedMessage s;
              connectionTimeout := connectionTimeout s; clock := (clock s + ms)%N;
              reading := reading s; cancelled := cancelled s; called := called s |} in
  match connectionTimeout s with
  | Some due => if (due <=? clock s)%N then on_timer (clearTimeout s) else s
  | None => s
  end.

(** The function that [sendChatMessage] returns to its caller. *)
Definition cleanup (s : t) : t := cancel (clearTimeout s).

(** What can happen.  A read settles only while [processStream] waits for
    it. *)
Inductive Event : Type :=
| Elapse (ms : N)
| Read (value : string)
| Done
| ReadFails (error : string)
| Cleanup.

Definition handle (s : t) (e : Event) : t :=
  match e with
  | Elapse ms => elapse ms s
  | Read value => if reading s then on_read value s else s
  | Done => if reading s then on_done s else s
  | ReadFails error => if reading s then caught error s else s
  | Cleanup => cleanup s
  end.

Definition run (events : list Event) (s : t) : t := fold_left handle events s.

End Reader.

(** A callback with which the loop of [processStream] ends. *)
Definition ends_loop (c : Callback) : bool :=
  match c with
  | onComplete => true
  | onError (reported _) => true
  | onError (thrown _) => true
  | _ => false
  end.

Definition is_timeout (c : Callback) : bool :=
  match c with
  | onError connection_timeout => true
  | _ => false
  end.

(** After the callback with which the loop ends, nothing follows but the
    error of the timer. *)
Fixpoint well_ended (calls : list Callback) : bool :=
  match calls with
  | [] => true
  | c :: rest => if ends_loop c then forallb is_timeout rest else well_ended rest
  end.



End ChatStream.

(** ** Facts about the string primitives *)

Module JSFacts.
Import JS.

Lemma append_nil_r s : s +:+ "" = s.
Proof. induction s as [|c s IH]; simpl; [done | by rewrite IH]. Qed.

Lemma append_assoc s1 s2 s3 : (s1 +:+ s2) +:+ s3 = s1 +:+ (s2 +:+ s3).
Proof. induction s1 as [|c s1 IH]; simpl; [done | by rewrite IH]. Qed.

Lemma length_append s1 s2 :
  String.length (s1 +:+ s2) = String.length s1 + String.length s2.
Proof. induction s1 as [|c s1 IH]; simpl; [done | by rewrite IH]. Qed.

Lemma startsWith_app p s : startsWith p (p +:+ s) = true.
Proof.
  induction p as [|c p IH]; simpl; [done |].
  by rewrite Ascii.eqb_refl, IH.
Qed.

Lemma sdrop_app p s : sdrop (String.length p) (p +:+ s) = s.
Proof. induction p as [|c p IH]; simpl; done. Qed.

Lemma stake_app p s : stake (String.length p) (p +:+ s) = p.
Proof. induction p as [|c p IH]; simpl; [done | by rewrite IH]. Qed.

Lemma sdrop_add n p s : sdrop (String.length p + n) (p +:+ s) = sdrop n s.
Proof. induction p as [|c p IH]; simpl; done. Qed.

Lemma stake_add n p s : stake (String.length p + n) (p +:+ s) = p +:+ stake n s.
Proof. induction p as [|c p IH]; simpl; [done | by rewrite IH]. Qed.

Lemma length_sdrop n s : String.length (sdrop n s) = String.length s - n.
Proof.
  revert s; induction n as [|n IH]; intros [|c s]; simpl; auto with lia.
Qed.

Lemma stake_all n s : String.length s ≤ n → stake n s = s.
Proof.
  revert s; induction n as [|n IH]; intros [|c s]; simpl; try done; try lia.
  intros H. rewrite IH; [done | lia].
Qed.

Lemma sdrop_all n s : String.length s ≤ n → sdrop n s = "".
Proof.
  revert s; induction n as [|n IH]; intros [|c s]; simpl; try done; try lia.
  intros H. apply IH. lia.
Qed.

Lemma sforall_app P s1 s2 : sforall P (s1 +:+ s2) = sforall P s1 && sforall P s2.
Proof.
  induction s1 as [|c s1 IH]; simpl; [done |].
  by rewrite IH, andb_assoc.
Qed.

Lemma blank_plain s : blank s = true → plain s = true.
Proof.
  unfold blank, plain. induction s as [|c s IH]; simpl; [done |].
  intros [Hc Hs]%andb_true_iff. rewrite IH by done.
  destruct (Ascii.eqb_spec c "<") as [->|]; [by vm_compute in Hc | done].
Qed.

Lemma startsWith_lt needle :
  startsWith "<" needle = true → ∃ needle', needle = String "<" needle'.
Proof.
  destruct needle as [|a needle]; [done |]. cbn [startsWith].
  intros [->%Ascii.eqb_eq _]%andb_true_iff. by eexists.
Qed.

(** A needle that begins with ['<'] starts nowhere inside plain text. *)
Lemma absent_in_plain needle pre s :
  startsWith "<" needle = true → plain pre = true → absent_in needle pre s = true.
Proof.
  intros [needle' ->]%startsWith_lt. unfold plain.
  induction pre as [|c pre IH]; [done |].
  cbn [sforall absent_in]. intros [Hc Hs]%andb_true_iff. rewrite IH by done.
  simpl String.append. cbn [startsWith].
  destruct (Ascii.eqb_spec "<" c) as [<-|]; [by vm_compute in Hc | done].
Qed.

Lemma absent_in_app needle p1 p2 s :
  absent_in needle (p1 +:+ p2) s = absent_in needle p1 (p2 +:+ s) && absent_in needle p2 s.
Proof.
  induction p1 as [|c p1 IH]; simpl; [done |].
  by rewrite IH, append_assoc, andb_assoc.
Qed.

Lemma truthy_length s : truthy s = true ↔ 0 < String.length s.
Proof. destruct s; simpl; split; (done || lia). Qed.

(** [indexOf] skips a prefix in which the needle starts nowhere. *)
Lemma indexOf_skip needle pre s :
  absent_in needle pre s = true →
  indexOf needle (pre +:+ s) = (fun i => String.length pre + i) <$> indexOf needle s.
Proof.
  induction pre as [|c pre IH]; simpl absent_in; simpl String.length.
  { intros _. simpl. by destruct (indexOf needle s). }
  intros [Hc Hs]%andb_true_iff. apply negb_true_iff in Hc.
  change (String c pre +:+ s) with (String c (pre +:+ s)) in *.
  cbn [indexOf]. fold indexOf.
  destruct (startsWith needle (String c (pre +:+ s))) eqn:E.
  { destruct needle; simpl in *; congruence. }
  rewrite IH by done. by destruct (indexOf needle s).
Qed.

Lemma indexOf_here needle s : startsWith needle s = true → indexOf needle s = Some 0.
Proof. intros H. destruct s; simpl; by rewrite H. Qed.

Lemma indexOf_after needle s i :
  startsWith needle s = false → indexOf needle s = Some i → 0 < i.
Proof.
  intros H. destruct s as [|c s]; simpl; rewrite H; [done |].
  destruct (indexOf needle s); simpl; [| done]. intros [= <-]. lia.
Qed.

Lemma trimStart_split s :
  ∃ w, s = w +:+ trimStart s ∧ blank w = true ∧ ws_head (trimStart s) = false.
Proof.
  induction s as [|c s (w & Hs & Hw & Hh)]; [by exists "" |].
  cbn [trimStart]. destruct (is_white_space c) eqn:Ec.
  - exists (String c w). simpl String.append. rewrite <- Hs.
    unfold blank in *. cbn [sforall]. by rewrite Ec, Hw.
  - exists "". by cbn [ws_head].
Qed.

Lemma trimEnd_split s :
  ∃ w, s = trimEnd s +:+ w ∧ blank w = true
       ∧ (trimEnd s = "" ∨ last_visible (trimEnd s) = true).
Proof.
  induction s as [|c s (w & Hs & Hw & Hl)]; [exists ""; auto |].
  cbn [trimEnd]. destruct (trimEnd s) as [|d t] eqn:Et.
  - destruct (is_white_space c) eqn:Ec.
    + exists (String c w). simpl in Hs. subst w.
      unfold blank in *. cbn [sforall]. rewrite Ec, Hw. auto.
    + exists w. simpl in *. subst w. cbn [last_visible]. rewrite Ec. auto.
  - exists w. simpl String.append in *. rewrite <- Hs.
    destruct Hl as [Hl | Hl]; [done |]. auto.
Qed.

Lemma trimEnd_head s : ws_head s = false → ws_head (trimEnd s) = false.
Proof.
  destruct s as [|c s]; [done |]. cbn [ws_head trimEnd]. intros Hc.
  destruct (trimEnd s); [| done]. by rewrite Hc.
Qed.

(** A text is white space, its trimmed core, and white space again. *)
Lemma trim_split s :
  ∃ w1 w2, s = w1 +:+ trim s +:+ w2 ∧ blank w1 = true ∧ blank w2 = true
           ∧ ws_head (trim s) = false
           ∧ (trim s = "" ∨ last_visible (trim s) = true).
Proof.
  destruct (trimStart_split s) as (w1 & H1 & Hw1 & Hh).
  destruct (trimEnd_split (trimStart s)) as (w2 & H2 & Hw2 & Hl).
  exists w1, w2. unfold trim. rewrite <- H2, <- H1.
  repeat split; auto using trimEnd_head.
Qed.

Lemma trim_blank s : blank s = true → trim s = "".
Proof.
  unfold blank, trim. induction s as [|c s IH]; [done |].
  cbn [sforall trimStart]. intros [-> Hs]%andb_true_iff. by apply IH.
Qed.

Lemma plain_trim s : plain s = true → plain (trim s) = true.
Proof.
  destruct (trim_split s) as (w1 & w2 & Hs & _). intros H. rewrite Hs in H.
  unfold plain in *. rewrite !sforall_app in H.
  by apply andb_true_iff in H as [_ [H _]%andb_true_iff].
Qed.

End JSFacts.

(** ** Facts about the matcher *)

Module RegexFacts.
Import JS JSFacts Regex.

(** A continuation that fails unless the text begins with [p]: what follows
    a quantifier in the patterns always starts with a literal. *)
Definition guarded (p : string) (k : cont) : Prop :=
  ∀ s caps, startsWith p s = false → k s caps = None.

Lemma rmatch_seq r1 r2 s caps k :
  rmatch (RSeq r1 r2) s caps k = rmatch r1 s caps (fun s' caps' => rmatch r2 s' caps' k).
Proof. done. Qed.

Lemma rmatch_star c s caps k : rmatch (RStar c) s caps k = star_greedy c s caps k.
Proof. done. Qed.

Lemma rmatch_lazy c s caps k : rmatch (RLazy c) s caps k = star_lazy c s caps k.
Proof. done. Qed.

Lemma rmatch_lit l s caps k : rmatch (RLit l) (l +:+ s) caps k = k s caps.
Proof. cbn [rmatch]. by rewrite startsWith_app, sdrop_app. Qed.

Lemma guarded_lit p k : guarded p (fun s caps => rmatch (RLit p) s caps k).
Proof. intros s caps H. cbn [rmatch]. by rewrite H. Qed.

Lemma guarded_lit_seq p r k : guarded p (fun s caps => rmatch (RSeq (RLit p) r) s caps k).
Proof. intros s caps H. cbn [rmatch]. by rewrite H. Qed.

Lemma guarded_capture p k (f : string → captures → captures) :
  guarded p k → guarded p (fun s caps => k s (f s caps)).
Proof. intros Hk s caps H. by apply Hk. Qed.

Lemma includes_false_head s p : includes s p = false → startsWith p s = false.
Proof.
  unfold includes. destruct s as [|c s]; cbn [indexOf];
    by destruct (startsWith p _).
Qed.

Lemma includes_false_tail c s p : includes (String c s) p = false → includes s p = false.
Proof.
  unfold includes. cbn [indexOf]. destruct (startsWith p _); [done |].
  by destruct (indexOf p s).
Qed.

Lemma includes_app_false p a b :
  absent_in p a b = true → includes b p = false → includes (a +:+ b) p = false.
Proof.
  unfold includes. intros Ha Hb. rewrite indexOf_skip by done.
  by destruct (indexOf p b).
Qed.

Lemma star_lazy_here c s caps k x : k s caps = Some x → star_lazy c s caps k = Some x.
Proof. intros H. destruct s; cbn [star_lazy]; by rewrite H. Qed.

(** A lazy [[\s\S]*?] walks over text in which its continuation cannot start. *)
Lemma star_lazy_skip p k pre s caps :
  guarded p k → absent_in p pre s = true →
  star_lazy CAny (pre +:+ s) caps k = star_lazy CAny s caps k.
Proof.
  intros Hk. induction pre as [|c pre IH]; [done |].
  cbn [absent_in]. intros [Hc Hs]%andb_true_iff. apply negb_true_iff in Hc.
  simpl String.append in *. cbn [star_lazy cc_match].
  rewrite (Hk _ _ Hc). by apply IH.
Qed.

Lemma star_lazy_none p k s caps :
  guarded p k → includes s p = false → star_lazy CAny s caps k = None.
Proof.
  intros Hk. induction s as [|c s IH]; intros H; cbn [star_lazy cc_match].
  - by rewrite (Hk _ _ (includes_false_head _ _ H)).
  - rewrite (Hk _ _ (includes_false_head _ _ H)).
    apply IH. by eapply includes_false_tail.
Qed.

(** A greedy [[\s\n]*] takes all the white space in front of it. *)
Lemma star_greedy_blank w s caps k x :
  blank w = true → ws_head s = false → k s caps = Some x →
  star_greedy CSpace (w +:+ s) caps k = Some x.
Proof.
  intros Hw Hs Hk. unfold blank in Hw.
  induction w as [|c w IH].
  - simpl String.append. destruct s as [|c s]; cbn [star_greedy cc_match]; [done |].
    cbn [ws_head] in Hs. by rewrite Hs.
  - cbn [sforall] in Hw. apply andb_true_iff in Hw as [Hc Hw].
    simpl String.append. cbn [star_greedy cc_match]. rewrite Hc.
    by rewrite IH.
Qed.

(** ... and fails when its continuation can start neither after the white
    space nor inside it. *)
Lemma star_greedy_none p w s caps k :
  guarded p k → startsWith "<" p = true → blank w = true →
  ws_head s = false → startsWith p s = false →
  star_greedy CSpace (w +:+ s) caps k = None.
Proof.
  intros Hk [p' ->]%startsWith_lt Hw Hs Hp. unfold blank in Hw.
  induction w as [|c w IH].
  - simpl String.append. destruct s as [|c s]; cbn [star_greedy cc_match].
    + by apply Hk.
    + cbn [ws_head] in Hs. rewrite Hs. by apply Hk.
  - cbn [sforall] in Hw. apply andb_true_iff in Hw as [Hc Hw].
    simpl String.append. cbn [star_greedy cc_match]. rewrite Hc, IH by done.
    apply Hk. cbn [startsWith].
    destruct (Ascii.eqb_spec "<" c) as [<-|]; [by vm_compute in Hc | done].
Qed.

(** Inside plain text that ends in a visible character, a greedy [[\s\n]*]
    followed by a tag fails. *)
Lemma star_greedy_inside p u v caps k :
  guarded p k → startsWith "<" p = true → plain u = true → last_visible u = true →
  star_greedy CSpace (u +:+ v) caps k = None.
Proof.
  intros Hk [p' ->]%startsWith_lt. unfold plain.
  induction u as [|c u IH]; [done |].
  cbn [sforall]. intros [Hc Hu]%andb_true_iff Hl.
  assert (k (String c (u +:+ v)) caps = None) as Hfail.
  { apply Hk. cbn [startsWith].
    destruct (Ascii.eqb_spec "<" c) as [<-|]; [by vm_compute in Hc | done]. }
  simpl String.append. cbn [star_greedy cc_match].
  destruct (is_white_space c) eqn:Ec; [| done].
  rewrite IH; [done | done |].
  destruct u; [cbn in Hl; by rewrite Ec in Hl | done].
Qed.

(** A group [(.*?)] captures plain text up to the literal that follows. *)
Lemma rmatch_group_lazy p n body s caps k x :
  guarded p k → absent_in p body s = true →
  k s (<[n := Some body]> caps) = Some x →
  rmatch (RGroup n (RLazy CAny)) (body +:+ s) caps k = Some x.
Proof.
  intros Hk Hb Hx. cbn [rmatch].
  rewrite (star_lazy_skip p); [| by apply guarded_capture | done].
  apply star_lazy_here.
  rewrite length_append.
  replace (String.length body + String.length s - String.length s)
    with (String.length body) by lia.
  by rewrite stake_app.
Qed.

End RegexFacts.

(** ** The tag processors on well-formed tags *)

Module ProcessorFacts.
Import JS JSFacts Regex RegexFacts MessagePatterns Grammar.

Lemma rmatch_lit_end l caps k : rmatch (RLit l) l caps k = k "" caps.
Proof. rewrite <- (append_nil_r l) at 2. apply rmatch_lit. Qed.

Lemma smatch_here r groups s m : exec_here r groups s = Some m → smatch r groups s = Some m.
Proof. intros H. destruct s; cbn [smatch]; by rewrite H. Qed.

Fixpoint all_suffixes (P : string → Prop) (pre : string) : Prop :=
  match pre with
  | EmptyString => True
  | String _ pre' => P pre ∧ all_suffixes P pre'
  end.

Lemma star_lazy_skip_failing (k : cont) pre s caps :
  all_suffixes (fun t => k (t +:+ s) caps = None) pre →
  star_lazy CAny (pre +:+ s) caps k = star_lazy CAny s caps k.
Proof.
  induction pre as [|c pre IH]; [done |].
  cbn [all_suffixes]. intros [Hc Hs].
  simpl String.append in *. cbn [star_lazy cc_match]. rewrite Hc. by apply IH.
Qed.

Lemma all_suffixes_visible (P : string → Prop) core :
  (∀ t, plain t = true → last_visible t = true → P t) →
  plain core = true → core = "" ∨ last_visible core = true →
  all_suffixes P core.
Proof.
  intros HP. unfold plain. induction core as [|c core IH]; [done |].
  cbn [sforall all_suffixes]. intros [Hc Hp]%andb_true_iff [? | Hl]; [done |].
  split.
  - apply HP; [| done]. unfold plain. cbn [sforall]. by rewrite Hc, Hp.
  - apply IH; [done |]. destruct core; [by left | by right].
Qed.

(** The group of [[\s\n]*(.*?)[\s\n]*</question>] captures the trimmed core of
    the body. *)
Lemma rmatch_group_trim p n core s caps r (k : cont) x :
  guarded p (fun s' caps' => rmatch r s' caps' k) → startsWith "<" p = true →
  plain core = true → core = "" ∨ last_visible core = true →
  star_greedy CSpace s (<[n := Some core]> caps) (fun s' caps' => rmatch r s' caps' k)
  = Some x →
  rmatch (RGroup n (RLazy CAny)) (core +:+ s) caps
    (fun s' caps' => rmatch (RSeq (RStar CSpace) r) s' caps' k) = Some x.
Proof.
  intros Hk Hp Hc Hl Hx. cbn [rmatch].
  rewrite star_lazy_skip_failing.
  - apply star_lazy_here. rewrite length_append.
    replace (String.length core + String.length s - String.length s)
      with (String.length core) by lia.
    by rewrite stake_app.
  - apply all_suffixes_visible; [| done | done].
    intros t Ht Hv. by apply (star_greedy_inside p).
Qed.

Lemma followup_rmatch sep w1 core w2 caps :
  blank sep = true → blank w1 = true → blank w2 = true →
  plain core = true → ws_head core = false → last_visible core = true →
  rmatch followupQuestion
    ("<ask_followup_question>" +:+ sep +:+ "<question>" +:+ w1 +:+ core +:+ w2
       +:+ "</question>" +:+ sep +:+ "</ask_followup_question>") caps accept
  = Some ("", <[1 := Some core]> caps).
Proof.
  intros Hsep Hw1 Hw2 Hc Hh Hl. unfold followupQuestion. cbn [rseq].
  rewrite rmatch_seq, rmatch_lit, rmatch_seq, rmatch_star.
  apply star_greedy_blank; [done | done |]. cbv beta.
  rewrite rmatch_seq, rmatch_lit, rmatch_seq, rmatch_star.
  apply star_greedy_blank; [done | |]. cbv beta.
  { destruct core; [done | by simpl]. }
  rewrite rmatch_seq.
  apply (rmatch_group_trim "</question>"); [apply guarded_lit_seq | done | done | auto |].
  apply star_greedy_blank; [done | done |]. cbv beta.
  rewrite rmatch_seq, rmatch_lit, rmatch_seq, rmatch_star.
  apply star_greedy_blank; [done | done |]. cbv beta.
  by rewrite rmatch_lit_end.
Qed.

Lemma rmatch_opt_some r s caps k x :
  rmatch r s caps k = Some x → rmatch (ROpt r) s caps k = Some x.
Proof. intros H. cbn [rmatch]. by rewrite H. Qed.

Lemma rmatch_opt_none r s caps k :
  rmatch r s caps k = None → rmatch (ROpt r) s caps k = k s caps.
Proof. intros H. cbn [rmatch]. by rewrite H. Qed.

Definition open_tag (name : string) : string := "<" +:+ name +:+ ">".
Definition close_tag (name : string) : string := "</" +:+ name +:+ ">".

Lemma element_app name body s :
  element name body +:+ s = open_tag name +:+ body +:+ close_tag name +:+ s.
Proof. unfold element, open_tag, close_tag. by rewrite !append_assoc. Qed.

(** What an optional field leaves in the captures. *)
Definition set_group (n : nat) (b : option string) (caps : captures) : captures :=
  match b with
  | Some body => <[n := Some body]> caps
  | None => caps
  end.

(** [<name>(.*?)</name>] on an element with a plain body. *)
Lemma rmatch_element name n body s caps k x :
  plain body = true →
  k s (<[n := Some body]> caps) = Some x →
  rmatch (rseq [RLit (open_tag name); RGroup n (RLazy CAny); RLit (close_tag name)])
    (element name body +:+ s) caps k = Some x.
Proof.
  intros Hb Hx. rewrite element_app. cbn [rseq].
  rewrite rmatch_seq, rmatch_lit, rmatch_seq.
  apply (rmatch_group_lazy (close_tag name)); [apply guarded_lit | |].
  { by apply absent_in_plain. }
  by rewrite rmatch_lit.
Qed.

Lemma rmatch_optional_present name n pre body s caps k x :
  plain pre = true → plain body = true →
  k s (<[n := Some body]> caps) = Some x →
  rmatch (optional_field name n) (pre +:+ element name body +:+ s) caps k = Some x.
Proof.
  intros Hp Hb Hx. unfold optional_field. apply rmatch_opt_some.
  change (rseq (RLazy CAny :: ?l)) with (RSeq (RLazy CAny) (rseq l)).
  rewrite rmatch_seq, rmatch_lazy.
  rewrite (star_lazy_skip (open_tag name)).
  - apply star_lazy_here. by apply rmatch_element.
  - intros t c Ht. cbn [rseq]. by apply guarded_lit_seq.
  - by apply absent_in_plain.
Qed.

Lemma rmatch_optional_absent name n s caps k :
  includes s (open_tag name) = false →
  rmatch (optional_field name n) s caps k = k s caps.
Proof.
  intros H. unfold optional_field. apply rmatch_opt_none. cbn [rseq].
  rewrite rmatch_seq, rmatch_lazy.
  apply (star_lazy_none (open_tag name)); [apply guarded_lit_seq | done].
Qed.

Lemma rmatch_opt_element name n sep b s caps k x :
  plain sep = true → plain_opt b = true →
  (b = None → includes s (open_tag name) = false) →
  k s (set_group n b caps) = Some x →
  rmatch (optional_field name n) (opt_element sep name b +:+ s) caps k = Some x.
Proof.
  intros Hsep Hb Habs Hx. destruct b as [body|]; cbn [opt_element set_group] in *.
  - rewrite append_assoc. by apply rmatch_optional_present.
  - simpl String.append. rewrite rmatch_optional_absent; auto.
Qed.
Lemma rmatch_element_seq name n body s caps r k x :
  plain body = true →
  rmatch r s (<[n := Some body]> caps) k = Some x →
  rmatch (RSeq (RLit (open_tag name))
            (RSeq (RGroup n (RLazy CAny)) (RSeq (RLit (close_tag name)) r)))
    (element name body +:+ s) caps k = Some x.
Proof.
  intros Hb Hx. rewrite element_app.
  rewrite rmatch_seq, rmatch_lit, rmatch_seq.
  apply (rmatch_group_lazy (close_tag name)); [apply guarded_lit_seq | |].
  { by apply absent_in_plain. }
  by rewrite rmatch_seq, rmatch_lit.
Qed.

Lemma absent_in_tag p nm s :
  startsWith "<" p = true → plain nm = true →
  startsWith p (String "<" nm +:+ s) = false →
  absent_in p (String "<" nm) s = true.
Proof.
  intros Hp Hn Hs. cbn [absent_in]. rewrite Hs. by apply absent_in_plain.
Qed.

Lemma absent_in_element p name body s :
  startsWith "<" p = true → plain name = true → plain body = true →
  (∀ t, startsWith p (open_tag name +:+ t) = false) →
  (∀ t, startsWith p (close_tag name +:+ t) = false) →
  absent_in p (element name body) s = true.
Proof.
  intros Hp Hn Hb Ho Hc.
  assert (plain (name +:+ ">") = true) as Hn'.
  { unfold plain in *. by rewrite sforall_app, Hn. }
  assert (element name body = open_tag name +:+ body +:+ close_tag name) as ->.
  { by rewrite <- (append_nil_r (element name body)), element_app, append_nil_r. }
  rewrite !absent_in_app.
  apply andb_true_iff; split; [| apply andb_true_iff; split].
  - apply absent_in_tag; [done | done | apply Ho].
  - by apply absent_in_plain.
  - apply (absent_in_tag p (String "/" (name +:+ ">"))); [done | | apply Hc].
    unfold plain in *. cbn [sforall]. by rewrite Hn'.
Qed.

Lemma absent_in_opt_element p sep name b s :
  startsWith "<" p = true → plain sep = true → plain_opt b = true →
  (∀ t, startsWith p (open_tag name +:+ t) = false) →
  (∀ t, startsWith p (close_tag name +:+ t) = false) →
  plain name = true →
  absent_in p (opt_element sep name b) s = true.
Proof.
  intros Hp Hsep Hb Ho Hc Hn. destruct b as [body|]; [| done].
  cbn [opt_element plain_opt] in *. rewrite absent_in_app.
  apply andb_true_iff; split; [by apply absent_in_plain |].
  by apply absent_in_element.
Qed.

Ltac absent_tac :=
  first
    [ apply absent_in_opt_element;
      [reflexivity | assumption | assumption
       | intros; reflexivity | intros; reflexivity | reflexivity]
    | apply absent_in_element;
      [reflexivity | reflexivity | assumption
       | intros; reflexivity | intros; reflexivity]
    | apply absent_in_plain; [reflexivity | assumption] ].

Ltac includes_tac :=
  repeat (apply includes_app_false; [absent_tac |]); reflexivity.

Ltac optional_step :=
  rewrite rmatch_seq; apply rmatch_opt_element;
  [assumption | assumption | intros _; includes_tac | cbv beta].

Lemma perform_rmatch sep a u c t k ab mn caps :
  plain sep = true → plain a = true →
  plain_opt u = true → plain_opt c = true → plain_opt t = true → plain_opt k = true →
  plain_opt ab = true → plain_opt mn = true →
  rmatch performAction (render sep (perform_action_tag a u c t k ab mn)) caps accept
  = Some ("", set_group 7 mn (set_group 6 ab (set_group 5 k (set_group 4 t
            (set_group 3 c (set_group 2 u (<[1 := Some a]> caps))))))).
Proof.
  intros Hsep Ha Hu Hc Ht Hk Hab Hmn. unfold performAction. cbn [rseq render].
  rewrite rmatch_seq, rmatch_lit, rmatch_seq, rmatch_lazy.
  rewrite (star_lazy_skip "<action>");
    [| apply guarded_lit_seq | by apply absent_in_plain].
  apply star_lazy_here.
  apply (rmatch_element_seq "action"); [done |].
  do 6 optional_step.
  rewrite rmatch_seq, rmatch_lazy.
  rewrite (star_lazy_skip "</perform_action>");
    [| apply guarded_lit | by apply absent_in_plain].
  apply star_lazy_here. by rewrite rmatch_lit_end.
Qed.
Lemma complete_rmatch sep r c caps :
  blank sep = true → plain r = true → plain_opt c = true →
  rmatch completeTask (render sep (complete_task_tag r c)) caps accept
  = Some ("", set_group 2 c (<[1 := Some r]> caps)).
Proof.
  intros Hsep Hr Hc. unfold completeTask. cbn [rseq render].
  rewrite rmatch_seq, rmatch_lit, rmatch_seq, rmatch_star.
  apply star_greedy_blank; [done | done |]. cbv beta.
  apply (rmatch_element_seq "result"); [done |].
  rewrite rmatch_seq.
  destruct c as [body|]; cbn [opt_element set_group plain_opt] in *.
  - apply rmatch_opt_some. rewrite append_assoc.
    change (rseq (RStar CSpace :: ?l)) with (RSeq (RStar CSpace) (rseq l)).
    rewrite rmatch_seq, rmatch_star.
    apply star_greedy_blank; [done | done |]. cbv beta.
    apply (rmatch_element "command"); [done |].
    rewrite rmatch_seq, rmatch_star.
    apply star_greedy_blank; [done | done |]. cbv beta.
    by rewrite rmatch_lit_end.
  - simpl String.append. rewrite rmatch_opt_none.
    + rewrite rmatch_seq, rmatch_star.
      apply star_greedy_blank; [done | done |]. cbv beta.
      by rewrite rmatch_lit_end.
    + cbn [rseq]. rewrite rmatch_seq, rmatch_star.
      apply (star_greedy_none "<command>"); [apply guarded_lit_seq | done..].
Qed.

Lemma rmatch_group_alt_l n l1 r2 s caps k x :
  k s (<[n := Some l1]> caps) = Some x →
  rmatch (RGroup n (RAlt (RLit l1) r2)) (l1 +:+ s) caps k = Some x.
Proof.
  intros Hx. cbn [rmatch]. rewrite startsWith_app, sdrop_app, length_append.
  replace (String.length l1 + String.length s - String.length s)
    with (String.length l1) by lia.
  by rewrite stake_app, Hx.
Qed.

Lemma rmatch_group_alt_r n l1 l2 s caps k x :
  startsWith l1 (l2 +:+ s) = false →
  k s (<[n := Some l2]> caps) = Some x →
  rmatch (RGroup n (RAlt (RLit l1) (RLit l2))) (l2 +:+ s) caps k = Some x.
Proof.
  intros Hl Hx. cbn [rmatch]. rewrite Hl, startsWith_app, sdrop_app, length_append.
  replace (String.length l2 + String.length s - String.length s)
    with (String.length l2) by lia.
  by rewrite stake_app, Hx.
Qed.

Lemma result_rmatch sep st m sc o caps :
  blank sep = true → plain sep = true → st = "success" ∨ st = "error" →
  plain m = true → plain_opt sc = true → plain_opt o = true →
  rmatch actionResult (render sep (perform_action_result st m sc o)) caps accept
  = Some ("", set_group 4 o (set_group 3 sc
            (<[2 := Some m]> (<[1 := Some st]> caps)))).
Proof.
  intros Hb Hsep Hst Hm Hsc Ho. unfold actionResult. cbn [rseq render].
  rewrite rmatch_seq, rmatch_lit, rmatch_seq, rmatch_lazy.
  rewrite (star_lazy_skip "<action_status>");
    [| apply guarded_lit_seq | by apply absent_in_plain].
  apply star_lazy_here. rewrite element_app.
  rewrite rmatch_seq, (rmatch_lit (open_tag "action_status")), rmatch_seq.
  assert (∀ k x s,
    k s (<[1 := Some st]> caps) = Some x →
    rmatch (RGroup 1 (RAlt (RLit "success") (RLit "error"))) (st +:+ s) caps k = Some x)
    as Hgroup.
  { intros k x s Hx. destruct Hst as [-> | ->].
    - by apply rmatch_group_alt_l.
    - by apply rmatch_group_alt_r. }
  apply Hgroup.
  rewrite rmatch_seq, (rmatch_lit (close_tag "action_status")), rmatch_seq, rmatch_lazy.
  rewrite (star_lazy_skip "<action_message>");
    [| apply guarded_lit_seq | by apply absent_in_plain].
  apply star_lazy_here.
  apply (rmatch_element_seq "action_message"); [done |].
  do 2 optional_step.
  rewrite rmatch_seq, rmatch_lazy.
  rewrite (star_lazy_skip "</perform_action_result>");
    [| apply guarded_lit | by apply absent_in_plain].
  apply star_lazy_here. by rewrite rmatch_lit_end.
Qed.
(** The entry of [tagPairs] for a tag. *)
Definition pair_of (t : Tag) : TagPair :=
  match t with
  | ask_followup_question _ =>
      {| open := "<ask_followup_question>"; close := "</ask_followup_question>";
         processor := processFollowupQuestion |}
  | complete_task_tag _ _ =>
      {| open := "<complete_task>"; close := "</complete_task>";
         processor := processCompleteTaskMatch |}
  | perform_action_tag _ _ _ _ _ _ _ =>
      {| open := "<perform_action>"; close := "</perform_action>";
         processor := performActionMatch |}
  | perform_action_result _ _ _ _ =>
      {| open := "<perform_action_result>"; close := "</perform_action_result>";
         processor := performActionResultMatch |}
  end.

Lemma pair_of_tagPairs t : pair_of t ∈ tagPairs.
Proof. destruct t; cbn [pair_of]; unfold tagPairs; set_solver. Qed.

Lemma spread_present b : spread b = present b.
Proof. by destruct b as [[|c s]|]. Qed.

Lemma group_set_0 (m : captures) n x :
  group (<[0 := x]> m) (S n) = group m (S n).
Proof. unfold group. by destruct m. Qed.

Ltac plain_hyps :=
  repeat match goal with
    | H : _ && _ = true |- _ => apply andb_true_iff in H as [? ?]
    end.

Lemma smatch_groups r g s s' caps :
  rmatch r s (replicate (S g) None) accept = Some (s', caps) →
  ∃ m, smatch r g s = Some m ∧ ∀ n, group m (S n) = group caps (S n).
Proof.
  intros H. eexists. split.
  - apply smatch_here. unfold exec_here. rewrite H. reflexivity.
  - intros n. apply group_set_0.
Qed.

Lemma render_ask sep w1 core w2 :
  render sep (ask_followup_question (w1 +:+ core +:+ w2))
  = "<ask_followup_question>" +:+ sep +:+ "<question>" +:+ w1 +:+ core +:+ w2
      +:+ "</question>" +:+ sep +:+ "</ask_followup_question>".
Proof. cbn [render]. unfold element. rewrite !append_assoc. reflexivity. Qed.

Lemma processFollowupQuestion_well_formed sep q :
  blank sep = true → plain q = true → truthy (trim q) = true →
  processFollowupQuestion (render sep (ask_followup_question q))
  = Normal (Some {| length := String.length (render sep (ask_followup_question q));
                    part := followup_question (trim q) |}).
Proof.
  intros Hsep Hq Ht.
  destruct (trim_split q) as (w1 & w2 & Hs & Hw1 & Hw2 & Hh & Hl).
  assert (last_visible (trim q) = true) as Hv.
  { destruct Hl as [Hl | Hl]; [by rewrite Hl in Ht | done]. }
  destruct (smatch_groups followupQuestion 1 (render sep (ask_followup_question q))
              "" (<[1 := Some (trim q)]> (replicate 2 None))) as (m & Hm & Hg).
  { rewrite Hs at 1. rewrite render_ask.
    apply followup_rmatch; done || by apply plain_trim. }
  unfold processFollowupQuestion. rewrite Hm. cbn [mbind option_bind].
  rewrite Hg. cbn. by rewrite Ht.
Qed.
Lemma processCompleteTaskMatch_well_formed sep r c :
  blank sep = true → plain r = true → truthy r = true → plain_opt c = true →
  processCompleteTaskMatch (render sep (complete_task_tag r c))
  = Normal (Some {| length := String.length (render sep (complete_task_tag r c));
                    part := complete_task r (present c) |}).
Proof.
  intros Hsep Hr Ht Hc.
  destruct (smatch_groups completeTask 2 (render sep (complete_task_tag r c))
              "" (set_group 2 c (<[1 := Some r]> (replicate 3 None)))) as (m & Hm & Hg).
  { by apply complete_rmatch. }
  unfold processCompleteTaskMatch. rewrite Hm. cbn [mbind option_bind].
  rewrite !Hg.
  assert (group (set_group 2 c (<[1:=Some r]> (replicate 3 None))) 1 = Some r) as ->.
  { by destruct c. }
  assert (group (set_group 2 c (<[1:=Some r]> (replicate 3 None))) 2 = c) as ->.
  { by destruct c. }
  cbn [spread]. by rewrite Ht, spread_present.
Qed.

Lemma performActionMatch_well_formed sep a u c t k ab mn :
  blank sep = true → plain a = true →
  plain_opt u = true → plain_opt c = true → plain_opt t = true → plain_opt k = true →
  plain_opt ab = true → plain_opt mn = true →
  performActionMatch (render sep (perform_action_tag a u c t k ab mn))
  = Normal (Some {| length := String.length (render sep (perform_action_tag a u c t k ab mn));
                    part := perform_action
                              {| action := a; url := present u; coordinate := present c;
                                 text := present t; key := present k |} |}).
Proof.
  intros Hsep Ha Hu Hc Ht Hk Hab Hmn.
  destruct (smatch_groups performAction 7 (render sep (perform_action_tag a u c t k ab mn))
              "" (set_group 7 mn (set_group 6 ab (set_group 5 k (set_group 4 t
                   (set_group 3 c (set_group 2 u (<[1 := Some a]> (replicate 8 None))))))))) 
    as (m & Hm & Hg).
  { apply perform_rmatch; auto using blank_plain. }
  unfold performActionMatch. rewrite Hm, !Hg, <- !spread_present.
  repeat f_equal; by destruct u, c, t, k, ab, mn.
Qed.

Lemma performActionResultMatch_well_formed sep st m sc o :
  blank sep = true → st = "success" ∨ st = "error" →
  plain m = true → plain_opt sc = true → plain_opt o = true →
  performActionResultMatch (render sep (perform_action_result st m sc o))
  = bind (stored (perform_action_result st m sc o))
      (fun p => Normal (Some {| length := String.length
                                            (render sep (perform_action_result st m sc o));
                                part := p |})).
Proof.
  intros Hsep Hst Hm Hsc Ho.
  destruct (smatch_groups actionResult 4 (render sep (perform_action_result st m sc o))
              "" (set_group 4 o (set_group 3 sc
                   (<[2 := Some m]> (<[1 := Some st]> (replicate 5 None))))))
    as (mm & Hmm & Hg).
  { apply result_rmatch; auto using blank_plain. }
  unfold performActionResultMatch. rewrite Hmm, !Hg.
  assert (group (set_group 4 o (set_group 3 sc
            (<[2:=Some m]> (<[1:=Some st]> (replicate 5 None))))) 1 = Some st) as ->.
  { by destruct o, sc. }
  assert (group (set_group 4 o (set_group 3 sc
            (<[2:=Some m]> (<[1:=Some st]> (replicate 5 None))))) 2 = Some m) as ->.
  { by destruct o, sc. }
  assert (group (set_group 4 o (set_group 3 sc
            (<[2:=Some m]> (<[1:=Some st]> (replicate 5 None))))) 3 = sc) as ->.
  { by destruct o, sc. }
  assert (group (set_group 4 o (set_group 3 sc
            (<[2:=Some m]> (<[1:=Some st]> (replicate 5 None))))) 4 = o) as ->.
  { by destruct o, sc. }
  cbn [stored required default]. rewrite !spread_present.
  destruct (present o) as [body|]; [| done].
  cbn [bind]. by destruct (JSON.parse body).
Qed.

(** Every processor yields the part that corresponds to a well-formed tag. *)
Lemma processor_well_formed sep t :
  blank sep = true → well_formed t = true →
  processor (pair_of t) (render sep t)
  = bind (stored t)
      (fun p => Normal (Some {| length := String.length (render sep t); part := p |})).
Proof.
  intros Hsep Hwf. destruct t; cbn [well_formed] in Hwf; plain_hyps; cbn [pair_of processor].
  - by apply processFollowupQuestion_well_formed.
  - by apply processCompleteTaskMatch_well_formed.
  - by apply performActionMatch_well_formed.
  - apply performActionResultMatch_well_formed; try done.
    match goal with H : _ || _ = true |- _ => apply orb_true_iff in H as [H | H] end;
      apply String.eqb_eq in H; auto.
Qed.
End ProcessorFacts.

(** ** Facts about the scanning loop *)

Module ParseFacts.
Import JS JSFacts Regex RegexFacts MessagePatterns Grammar ProcessorFacts.

Lemma elem_of_tagStarts rem pair i :
  (pair, i) ∈ tagStarts rem ↔ pair ∈ tagPairs ∧ indexOf (open pair) rem = Some i.
Proof.
  unfold tagStarts. rewrite list_elem_of_omap. split.
  - intros (p & Hp & Hi). destruct (indexOf (open p) rem) eqn:E; [| done].
    cbn in Hi. by injection Hi as -> ->.
  - intros [Hp Hi]. exists pair. by rewrite Hi.
Qed.

Lemma earliest_spec first others :
  earliest first others ∈ first :: others
  ∧ ∀ x, x ∈ first :: others → snd (earliest first others) ≤ snd x.
Proof.
  unfold earliest. revert first. induction others as [|y others IH]; intros first.
  - cbn. split; [by left |]. intros x ->%list_elem_of_singleton. lia.
  - cbn [fold_left].
    set (f := if (snd y <? snd first)%nat then y else first).
    destruct (IH f) as [Hin Hmin].
    assert ((f = first ∨ f = y) ∧ snd f ≤ snd first ∧ snd f ≤ snd y) as (Hf & Hf1 & Hfy).
    { unfold f. destruct (Nat.ltb_spec (snd y) (snd first)); split; auto; lia. }
    assert (snd (fold_left
                   (λ min curr, if (snd curr <? snd min)%nat then curr else min)
                   others f) ≤ snd f) as Hef.
    { apply Hmin. by left. }
    split.
    + apply elem_of_cons in Hin as [-> | Hin].
      * destruct Hf as [-> | ->]; [by left | right; by left].
      * do 2 right. done.
    + intros x [-> | [-> | Hx]%elem_of_cons]%elem_of_cons; [lia | lia |].
      apply Hmin. by right.
Qed.

Lemma startsWith_inv p s : startsWith p s = true → s = p +:+ sdrop (String.length p) s.
Proof.
  revert s. induction p as [|a p IH]; intros [|b s]; cbn [startsWith]; try done.
  intros [->%Ascii.eqb_eq Hp]%andb_true_iff. simpl. f_equal. by apply IH.
Qed.

Lemma indexOf_startsWith needle s i :
  indexOf needle s = Some i → startsWith needle (sdrop i s) = true.
Proof.
  revert i. induction s as [|c s IH]; intros i; cbn [indexOf].
  - destruct (startsWith needle "") eqn:E; [| done]. by intros [= <-].
  - destruct (startsWith needle (String c s)) eqn:E; [by intros [= <-] |].
    destruct (indexOf needle s) as [j|]; [| done]. cbn. intros [= <-].
    by apply IH.
Qed.

Lemma indexOf_le needle s i : indexOf needle s = Some i → i ≤ String.length s.
Proof.
  revert i. induction s as [|c s IH]; intros i; cbn [indexOf].
  - destruct (startsWith needle ""); [| done]. intros [= <-]. lia.
  - destruct (startsWith needle (String c s)); [intros [= <-]; lia |].
    destruct (indexOf needle s) as [j|]; [| done]. cbn. intros [= <-].
    specialize (IH j eq_refl). simpl. lia.
Qed.

(** No text begins with two different opening tags. *)
Lemma opens_separate p1 p2 s :
  p1 ∈ tagPairs → p2 ∈ tagPairs →
  startsWith (open p1) s = true → startsWith (open p2) s = true → p1 = p2.
Proof.
  unfold tagPairs. intros H1 H2 Hs1 Hs2.
  apply startsWith_inv in Hs1. rewrite Hs1 in Hs2. clear Hs1.
  repeat (apply elem_of_cons in H1 as [-> | H1]); [.. | by apply elem_of_nil in H1];
    repeat (apply elem_of_cons in H2 as [-> | H2]); try (by apply elem_of_nil in H2);
    (reflexivity || by vm_compute in Hs2).
Qed.

Lemma open_tagPairs pair :
  pair ∈ tagPairs → startsWith "<" (open pair) = true ∧ 0 < String.length (open pair)
                    ∧ 0 < String.length (close pair).
Proof.
  unfold tagPairs. intros H.
  repeat (apply elem_of_cons in H as [-> | H]); [.. | by apply elem_of_nil in H];
    cbn; repeat split; lia.
Qed.

Lemma earliest_tagStarts rem pair i :
  earliest_is rem pair i →
  ∃ first others, tagStarts rem = first :: others ∧ earliest first others = (pair, i).
Proof.
  intros (Hp & Hi & Hmin).
  assert ((pair, i) ∈ tagStarts rem) as Hin by by apply elem_of_tagStarts.
  destruct (tagStarts rem) as [|first others] eqn:E; [by apply elem_of_nil in Hin |].
  exists first, others. split; [done |].
  destruct (earliest_spec first others) as [He Hle].
  destruct (earliest first others) as [pair' j] eqn:Ee.
  rewrite <- E in He. apply elem_of_tagStarts in He as [Hp' Hj].
  specialize (Hle _ Hin). cbn in Hle.
  specialize (Hmin _ _ Hp' Hj).
  assert (j = i) as -> by lia.
  f_equal. eapply opens_separate; [done | done | |]; by eapply indexOf_startsWith.
Qed.

Lemma earliest_truthy rem pair i : earliest_is rem pair i → truthy rem = true.
Proof.
  intros (Hp & Hi & _). destruct rem; [| done].
  apply open_tagPairs in Hp as (_ & Hl & _).
  cbn in Hi. destruct (open pair); [cbn in Hl; lia | done].
Qed.

Lemma parse_loop_unmatched fuel rem parts pair i :
  earliest_is rem pair i →
  indexOfFrom (close pair) rem (i + String.length (open pair)) = None →
  parse_loop (S fuel) rem parts
  = parse_loop fuel (slice_from rem (i + String.length (open pair)))
      (push_text parts (trim (slice rem 0 i))
         ++ [text_part (slice rem i (i + String.length (open pair)))]).
Proof.
  intros He Hc. cbn [parse_loop]. rewrite (earliest_truthy _ _ _ He). cbn [negb].
  destruct (earliest_tagStarts _ _ _ He) as (first & others & -> & ->).
  cbn [fst snd]. by rewrite Hc.
Qed.

Lemma parse_loop_matched fuel rem parts pair i closeIndex :
  earliest_is rem pair i →
  indexOfFrom (close pair) rem (i + String.length (open pair)) = Some closeIndex →
  parse_loop (S fuel) rem parts
  = match processor pair (slice rem i (closeIndex + String.length (close pair))) with
    | Throw e => Some (Throw e)
    | Normal processedMatch =>
        parse_loop fuel (slice_from rem (closeIndex + String.length (close pair)))
          (match processedMatch with
           | Some m => push_text parts (trim (slice rem 0 i)) ++ [part m]
           | None => push_text parts (trim (slice rem 0 i))
           end)
    end.
Proof.
  intros He Hc. cbn [parse_loop]. rewrite (earliest_truthy _ _ _ He). cbn [negb].
  destruct (earliest_tagStarts _ _ _ He) as (first & others & -> & ->).
  cbn [fst snd]. by rewrite Hc.
Qed.


(** What a tag holds between its opening and its closing tag. *)
Definition inner (sep : string) (t : Tag) : string :=
  match t with
  | ask_followup_question q => sep +:+ element "question" q +:+ sep
  | complete_task_tag r c =>
      sep +:+ element "result" r +:+ opt_element sep "command" c +:+ sep
  | perform_action_tag a u c t k ab mn =>
      sep +:+ element "action" a
        +:+ opt_element sep "url" u +:+ opt_element sep "coordinate" c
        +:+ opt_element sep "text" t +:+ opt_element sep "key" k
        +:+ opt_element sep "about_this_action" ab
        +:+ opt_element sep "marker_number" mn +:+ sep
  | perform_action_result st m sc o =>
      sep +:+ element "action_status" st +:+ sep +:+ element "action_message" m
        +:+ opt_element sep "screenshot" sc +:+ opt_element sep "omni_parser" o +:+ sep
  end.

Lemma render_inner sep t :
  render sep t = open (pair_of t) +:+ inner sep t +:+ close (pair_of t).
Proof. destruct t; cbn [render inner pair_of open close]; by rewrite !append_assoc. Qed.

Ltac absent_chain :=
  repeat (rewrite absent_in_app; apply andb_true_iff; split; [absent_tac |]);
  absent_tac.

(** The closing tag of a well-formed tag starts nowhere inside it. *)
Lemma inner_absent sep t s :
  plain sep = true → well_formed t = true →
  absent_in (close (pair_of t)) (inner sep t) s = true.
Proof.
  intros Hsep Hwf.
  destruct t; cbn [well_formed] in Hwf; plain_hyps; cbn [inner pair_of close].
  - absent_chain.
  - absent_chain.
  - absent_chain.
  - assert (plain action_status = true).
    { match goal with H : _ || _ = true |- _ => apply orb_true_iff in H as [H | H] end;
        apply String.eqb_eq in H; by subst. }
    absent_chain.
Qed.




Lemma slice_prefix a b : slice (a +:+ b) 0 (String.length a) = a.
Proof. unfold slice. rewrite Nat.sub_0_r. cbn [sdrop]. apply stake_app. Qed.

Lemma slice_middle a b c n :
  n = String.length a + String.length b → slice (a +:+ b +:+ c) (String.length a) n = b.
Proof.
  intros ->. unfold slice.
  replace (String.length a + String.length b - String.length a)
    with (String.length b) by lia.
  by rewrite sdrop_app, stake_app.
Qed.

Lemma slice_from_suffix a b c n :
  n = String.length a + String.length b → slice_from (a +:+ b +:+ c) n = c.
Proof.
  intros ->. unfold slice_from. by rewrite sdrop_add, sdrop_app.
Qed.

(** The pair chosen in a round belongs to the table and opens in the text. *)
Lemma earliest_in_tagStarts rem first others :
  tagStarts rem = first :: others →
  fst (earliest first others) ∈ tagPairs
  ∧ indexOf (open (fst (earliest first others))) rem = Some (snd (earliest first others)).
Proof.
  intros E. destruct (earliest_spec first others) as [Hin _].
  rewrite <- E in Hin. destruct (earliest first others) as [pair i].
  by apply elem_of_tagStarts in Hin.
Qed.

(** Every round shortens the text, so as many rounds as the text has
    characters, and one more to see it empty, always suffice. *)
Lemma parse_loop_enough fuel fuel' rem parts :
  String.length rem < fuel → String.length rem < fuel' →
  parse_loop fuel rem parts = parse_loop fuel' rem parts
  ∧ is_Some (parse_loop fuel rem parts).
Proof.
  revert fuel' rem parts. induction fuel as [|fuel IH]; intros fuel' rem parts Hf Hf';
    [lia |].
  destruct fuel' as [|fuel']; [lia |]. cbn [parse_loop].
  destruct rem as [|ch rem']; [by cbn |]. cbn [truthy negb].
  set (rem := String ch rem') in *.
  destruct (tagStarts rem) as [|first others] eqn:E; [by cbn |].
  destruct (earliest_in_tagStarts _ _ _ E) as [Hp Hi].
  destruct (open_tagPairs _ Hp) as (_ & Hlo & Hlc).
  set (pair := fst (earliest first others)) in *.
  set (index := snd (earliest first others)) in *.
  assert (String.length rem = S (String.length rem')) as Hlen by done.
  destruct (indexOfFrom (close pair) rem (index + String.length (open pair)))
    as [closeIndex|].
  - destruct (processor pair _) as [processedMatch | e]; [| by cbn].
    apply IH; unfold slice_from; rewrite length_sdrop; lia.
  - apply IH; unfold slice_from; rewrite length_sdrop; lia.
Qed.

Lemma parseMessage_total text : is_Some (parseMessage text).
Proof.
  unfold parseMessage.
  by destruct (parse_loop_enough (S (String.length text)) (S (String.length text)) text [])
    as [_ H]; [lia | lia |].
Qed.

Lemma push_text_app parts content : push_text parts content = parts ++ push_text [] content.
Proof. unfold push_text. destruct (truthy content); [done | by rewrite app_nil_r]. Qed.

Lemma parse_loop_prepend fuel rem parts :
  parse_loop fuel rem parts = prepend parts <$> parse_loop fuel rem [].
Proof.
  revert rem parts. induction fuel as [|fuel IH]; intros rem parts; [done |].
  cbn [parse_loop]. destruct (negb (truthy rem)); [cbn; by rewrite app_nil_r |].
  destruct (tagStarts rem) as [|first others].
  { cbn. by rewrite push_text_app. }
  set (pair := fst (earliest first others)).
  set (index := snd (earliest first others)).
  destruct (indexOfFrom (close pair) rem (index + String.length (open pair)))
    as [closeIndex|].
  - destruct (processor pair _) as [processedMatch | e]; [| done].
    rewrite IH. symmetry. rewrite IH. symmetry.
    destruct (parse_loop fuel _ []) as [[ps | e] |]; cbn; [| done | done].
    rewrite (push_text_app parts).
    destruct processedMatch; by rewrite <- ?app_assoc.
  - rewrite IH. symmetry. rewrite IH. symmetry.
    destruct (parse_loop fuel _ []) as [[ps | e] |]; cbn; [| done | done].
    rewrite (push_text_app parts). by rewrite <- !app_assoc.
Qed.

Lemma earliest_isb_correct rem k i pair :
  tagPairs !! k = Some pair → earliest_isb rem k i = true → earliest_is rem pair i.
Proof.
  unfold earliest_isb. intros Hk. rewrite Hk.
  intros [Hi Hall]%andb_true_iff. apply bool_decide_eq_true in Hi.
  repeat split; [by eapply list_elem_of_lookup_2 | done |].
  intros pair' j Hp' Hj. rewrite forallb_forall in Hall.
  apply list_elem_of_In in Hp'. specialize (Hall _ Hp'). rewrite Hj in Hall.
  by apply Nat.leb_le.
Qed.

End ParseFacts.

(** ** The parser on a complete, well-formed tag *)

Module ParseTheorems.
Import JS JSFacts Regex MessagePatterns Grammar ProcessorFacts ParseFacts.





(** C4, as the code has it: when the earliest opening tag of the text has no
    closing tag after it, [parseMessage] emits the text before it (trimmed, when
    something is left), then the opening tag itself as a text part, and goes on
    scanning right behind the opening tag; the scan always ends.  It throws
    exactly when the scan of the rest throws. *)
Theorem parseMessage_unmatched_open text pair i :
  earliest_is text pair i →
  indexOfFrom (close pair) text (i + String.length (open pair)) = None →
  parseMessage text
  = prepend (push_text [] (trim (slice text 0 i)) ++ [text_part (open pair)])
      <$> parseMessage (slice_from text (i + String.length (open pair)))
  ∧ is_Some (parseMessage text).
Proof.
  intros He Hc. split; [| apply parseMessage_total].
  pose proof He as (Hp & Hi & _).
  destruct (open_tagPairs _ Hp) as (_ & Hlo & _).
  pose proof (indexOf_le _ _ _ Hi) as Hle.
  pose proof (indexOf_startsWith _ _ _ Hi) as Hs.
  assert (slice text i (i + String.length (open pair)) = open pair) as Hopen.
  { unfold slice. replace (i + String.length (open pair) - i)
      with (String.length (open pair)) by lia.
    rewrite (startsWith_inv _ _ Hs). apply stake_app. }
  assert (String.length (open pair) ≤ String.length (sdrop i text)) as Hlen.
  { rewrite (startsWith_inv _ _ Hs), length_append. lia. }
  rewrite length_sdrop in Hlen.
  unfold parseMessage.
  rewrite (parse_loop_unmatched _ _ _ _ _ He Hc), Hopen, parse_loop_prepend.
  f_equal. apply parse_loop_enough; unfold slice_from; rewrite length_sdrop; lia.
Qed.

Lemma parseMessage_unmatched_open_witness :
  parseMessage "a <complete_task> b"
  = prepend [text_part "a"; text_part "<complete_task>"] <$> parseMessage " b"
  ∧ is_Some (parseMessage "a <complete_task> b").
Proof.
  refine (parseMessage_unmatched_open "a <complete_task> b"
            {| open := "<complete_task>"; close := "</complete_task>";
               processor := processCompleteTaskMatch |} 2 _ _).
  - apply (earliest_isb_correct _ 1); reflexivity.
  - reflexivity.
Defined.

(** C4 as the specification words it fails: an opening tag without a closing
    tag is dropped when it stands inside another tag that is complete but not
    well-formed, and the parser throws when a later tag carries an [omni_parser]
    body that is not JSON. *)
Lemma parseMessage_unmatched_counterexample :
  (includes "<perform_action_result><complete_task></perform_action_result>"
     "<complete_task>" = true
   ∧ includes "<perform_action_result><complete_task></perform_action_result>"
       "</complete_task>" = false
   ∧ parseMessage "<perform_action_result><complete_task></perform_action_result>"
     = Some (Normal []))
  ∧ (includes
       ("<complete_task> <perform_action_result><action_status>success</action_status>"
          +:+ "<action_message>m</action_message><omni_parser>{</omni_parser>"
          +:+ "</perform_action_result>")
       "</complete_task>" = false
     ∧ parseMessage
         ("<complete_task> <perform_action_result><action_status>success</action_status>"
            +:+ "<action_message>m</action_message><omni_parser>{</omni_parser>"
            +:+ "</perform_action_result>")
       = Some (Throw "SyntaxError")).
Proof. repeat split; by vm_compute. Qed.

End ParseTheorems.

(** ** Facts about the exploration bookkeeping *)

Module ExploreFacts.
Import JS ExploreChat.

Lemma fold_set_add_elem l acc x :
  x ∈ fold_left set_add l acc ↔ x ∈ acc ∨ x ∈ l.
Proof.
  revert acc. induction l as [|y l IH]; intros acc; cbn [fold_left].
  - set_solver.
  - rewrite IH. unfold set_add, set_has. case_bool_decide; set_solver.
Qed.

Lemma new_Set_elem l x : x ∈ new_Set l ↔ x ∈ l.
Proof. unfold new_Set. rewrite fold_set_add_elem. set_solver. Qed.

Lemma fold_set_add_NoDup l acc :
  NoDup (acc ++ l) → fold_left set_add l acc = acc ++ l.
Proof.
  revert acc. induction l as [|y l IH]; intros acc Hnd; cbn [fold_left].
  - by rewrite app_nil_r.
  - assert (y ∉ acc) as Hy.
    { apply NoDup_app in Hnd as (_ & Hd & _). intros Hin. apply (Hd _ Hin). by left. }
    unfold set_add at 2, set_has. rewrite bool_decide_eq_false_2 by done.
    rewrite IH; rewrite <- app_assoc; done.
Qed.

Lemma new_Set_NoDup l : NoDup l → new_Set l = l.
Proof. intros H. unfold new_Set. by rewrite fold_set_add_NoDup. Qed.

Lemma set_has_new_Set l x : set_has (new_Set l) x = bool_decide (x ∈ l).
Proof. unfold set_has. apply bool_decide_ext, new_Set_elem. Qed.

(** A call of [localStorage.setItem] that returns has counted itself, and
    that is all. *)
Definition set_setItem_calls (n : nat) (st : State) : State :=
  {| exploreQueue := exploreQueue st; exploreRoute := exploreRoute st;
     exploreGraphData := exploreGraphData st; currentlyExploring := currentlyExploring st;
     isProcessing := isProcessing st; activeMessageId := activeMessageId st;
     isChatStreaming := isChatStreaming st; messagesRef := messagesRef st;
     uuid_source := uuid_source st; uuid_drawn := uuid_drawn st; requests := requests st;
     setItem_outcome := setItem_outcome st; setItem_calls := n |}.

Lemma localStorage_setItem_Normal key st st' :
  localStorage_setItem key st = Normal st' →
  st' = set_setItem_calls (S (setItem_calls st)) st.
Proof.
  unfold localStorage_setItem. destruct (setItem_outcome st (setItem_calls st)); [| done].
  by intros [= <-].
Qed.

Lemma localStorage_setItem_accepted key st :
  (∀ n, setItem_outcome st n = Normal tt) →
  localStorage_setItem key st = Normal (set_setItem_calls (S (setItem_calls st)) st).
Proof. intros H. unfold localStorage_setItem. by rewrite H. Qed.

Lemma handleQueueUpdate_loop_frame elems resp url nodeId parent st st' :
  handleQueueUpdate_loop elems resp url nodeId parent st = Normal st' →
  exploreGraphData st' = exploreGraphData st
  ∧ exploreRoute st' = exploreRoute st
  ∧ currentlyExploring st' = currentlyExploring st
  ∧ uuid_source st' = uuid_source st.
Proof.
  revert st. induction elems as [|e elems IH]; intros st; cbn [handleQueueUpdate_loop].
  - by intros [= <-].
  - unfold handleQueueUpdate_element.
    destruct (truthy (Element.text e) && truthy (Element.coordinates e)).
    + cbn [uuid]. cbn [exploreQueue]. destruct (exploreQueue st !! url); [| done].
      cbn [bind]. intros H. by destruct (IH _ H) as (-> & -> & -> & ->).
    + cbn [bind]. apply IH.
Qed.

(** What [handleQueueUpdate] has done when it returns: the loop, and one
    call of [localStorage.setItem]. *)
Lemma handleQueueUpdate_Normal elems resp url nodeId parent st st' :
  handleQueueUpdate elems resp url nodeId parent st = Normal st' →
  ∃ st1, handleQueueUpdate_loop elems resp url nodeId parent st = Normal st1
         ∧ st' = set_setItem_calls (S (setItem_calls st1)) st1.
Proof.
  unfold handleQueueUpdate.
  destruct (handleQueueUpdate_loop elems resp url nodeId parent st) as [st1|]; [| done].
  cbn [bind]. intros H%localStorage_setItem_Normal. by exists st1.
Qed.

(** [handleQueueUpdate] touches the queue and the supply of identifiers
    only. *)
Lemma handleQueueUpdate_frame elems resp url nodeId parent st st' :
  handleQueueUpdate elems resp url nodeId parent st = Normal st' →
  exploreGraphData st' = exploreGraphData st
  ∧ exploreRoute st' = exploreRoute st
  ∧ currentlyExploring st' = currentlyExploring st
  ∧ uuid_source st' = uuid_source st.
Proof.
  intros (st1 & H1 & ->)%handleQueueUpdate_Normal.
  by apply handleQueueUpdate_loop_frame in H1.
Qed.

Section Graph.
Variable normalize : string → string.

#[local] Abbreviation matches := (ExploreChat.matches normalize).
#[local] Abbreviation count_for := (ExploreChat.count_for normalize).
#[local] Abbreviation node_id_for := (ExploreChat.node_id_for normalize).
#[local] Abbreviation unique_nodes := (ExploreChat.unique_nodes normalize).


Lemma matches_normalize url url' : normalize url = normalize url' → matches url = matches url'.
Proof. intros H. unfold matches. by rewrite H. Qed.

Lemma find_fmap (P : Node.t → bool) (f : Node.t → Node.t) l :
  (∀ n, P (f n) = P n) → List.find P (f <$> l) = f <$> List.find P l.
Proof.
  intros HP. induction l as [|n l IH]; [done |].
  cbn. rewrite HP. by destruct (P n).
Qed.

Lemma filter_fmap_length (P : Node.t → bool) (f : Node.t → Node.t) l :
  (∀ n, P (f n) = P n) →
  List.length (List.filter P (f <$> l)) = List.length (List.filter P l).
Proof.
  intros HP. induction l as [|n l IH]; [done |].
  cbn. rewrite HP. destruct (P n); cbn; by rewrite IH.
Qed.

Lemma find_app_None (P : Node.t → bool) l n :
  List.find P l = None → P n = true → List.find P (l ++ [n]) = Some n.
Proof.
  intros Hl Hn. induction l as [|m l IH]; cbn in *; [by rewrite Hn |].
  destruct (P m); [done | by apply IH].
Qed.

Lemma filter_find_None (P : Node.t → bool) l :
  List.find P l = None → List.filter P l = [].
Proof.
  induction l as [|m l IH]; cbn; [done |]. destruct (P m); [done | apply IH].
Qed.

Lemma filter_find_Some (P : Node.t → bool) l n :
  List.find P l = Some n → 0 < List.length (List.filter P l) ∧ 0 < List.length l.
Proof.
  induction l as [|m l IH]; cbn; [done |].
  destruct (P m); cbn; [lia |]. intros H. destruct (IH H). lia.
Qed.

(** What [createEdge] does to a node leaves its identity alone. *)
Definition with_edge (sourceId edgeId : string) (node : Node.t) : Node.t :=
  if String.eqb (Node.id node) sourceId then
    {| Node.id := Node.id node; Node.position := Node.position node;
       Node.label := Node.label node; Node.edges := Node.edges node ++ [edgeId];
       Node.imageData := Node.imageData node |}
  else node.

Lemma with_edge_id s e n : Node.id (with_edge s e n) = Node.id n.
Proof. unfold with_edge. by destruct (String.eqb _ _). Qed.

Lemma with_edge_matches url s e n : matches url (with_edge s e n) = matches url n.
Proof. unfold with_edge, matches. by destruct (String.eqb (Node.id n) s). Qed.

Definition edge_of (c : Exploring.t) (target : string) : Edge.t :=
  {| Edge.id := Exploring.id c; Edge.source := Exploring.nodeId c; Edge.target := target;
     Edge.sourceHandle := Exploring.id c; Edge.label := Exploring.label c |}.

(** The whole effect of [handleEdgeAndNodeCreation] on the graph. *)
Lemma handleEdgeAndNodeCreation_effect url img st nodeId st' :
  handleEdgeAndNodeCreation normalize url img st = Normal (nodeId, st') →
  let g := exploreGraphData st in
  let g' := exploreGraphData st' in
  let link (l : list Node.t) :=
    match currentlyExploring st with
    | Some c => with_edge (Exploring.nodeId c) (Exploring.id c) <$> l
    | None => l
    end in
  edges g' = edges g ++ match currentlyExploring st with
                        | Some c => [edge_of c nodeId]
                        | None => []
                        end
  ∧ exploreQueue st' = exploreQueue st ∧ exploreRoute st' = exploreRoute st
  ∧ currentlyExploring st' = currentlyExploring st
  ∧ ((List.find (matches url) (nodes g) = None
      ∧ nodeId = uuid_source st (uuid_drawn st)
      ∧ nodes g' = link (nodes g ++ [ {| Node.id := nodeId;
                                         Node.position := (200, List.length (nodes g) * 100);
                                         Node.label := url; Node.edges := [];
                                         Node.imageData := processedImage_create img |} ]))
     ∨ (∃ n, List.find (matches url) (nodes g) = Some n
             ∧ nodeId = Node.id n ∧ nodes g' = link (nodes g))).
Proof.
  unfold handleEdgeAndNodeCreation, createEdgeOrNode. fold (matches url).
  destruct (List.find (matches url) (nodes (exploreGraphData st))) as [n|] eqn:Ef;
    cbn [fst snd].
  - destruct (filter_find_Some _ _ _ Ef) as [_ Hlen].
    destruct (List.length (nodes (exploreGraphData st))) eqn:El; [lia |].
    cbn [Nat.eqb andb fmap option_fmap option_map default bind].
    destruct (currentlyExploring st) as [c|] eqn:Ec.
    + unfold createEdge.
      destruct (localStorage_setItem "MAP" _) as [st1|] eqn:E1; [| done].
      apply localStorage_setItem_Normal in E1 as ->. cbn [bind]. intros [= <- <-]. cbn.
      rewrite ?Ec. repeat split; try done. right. exists n. by rewrite ?Ef.
    + cbn [bind]. intros [= <- <-]. cbn. rewrite ?Ec, ?app_nil_r.
      repeat split; try done. right. exists n. by rewrite ?Ef.
  - cbn [uuid]. unfold createConstructNode.
    destruct (localStorage_setItem "MAP" _) as [st1|] eqn:E1; [| done].
    apply localStorage_setItem_Normal in E1 as ->. cbn [bind].
    cbn [currentlyExploring set_setItem_calls set_exploreGraphData].
    destruct (currentlyExploring st) as [c|] eqn:Ec.
    + unfold createEdge.
      destruct (localStorage_setItem "MAP" _) as [st2|] eqn:E2; [| done].
      apply localStorage_setItem_Normal in E2 as ->. cbn [bind]. intros [= <- <-]. cbn.
      rewrite ?Ec. repeat split; try done. by left.
    + cbn [bind]. intros [= <- <-]. cbn. rewrite ?Ec, ?app_nil_r.
      repeat split; try done. by left.
Qed.

Lemma link_length (c : option Exploring.t) (l : list Node.t) :
  List.length (match c with
               | Some c => with_edge (Exploring.nodeId c) (Exploring.id c) <$> l
               | None => l
               end) = List.length l.
Proof. destruct c; [apply length_fmap | done]. Qed.

Lemma link_find url (c : option Exploring.t) (l : list Node.t) :
  Node.id <$> List.find (matches url)
                (match c with
                 | Some c => with_edge (Exploring.nodeId c) (Exploring.id c) <$> l
                 | None => l
                 end)
  = Node.id <$> List.find (matches url) l.
Proof.
  destruct c as [c|]; [| done].
  rewrite find_fmap by apply with_edge_matches.
  destruct (List.find (matches url) l); cbn; [by rewrite with_edge_id | done].
Qed.

Lemma link_count url (c : option Exploring.t) (l : list Node.t) :
  List.length (List.filter (matches url)
                 (match c with
                  | Some c => with_edge (Exploring.nodeId c) (Exploring.id c) <$> l
                  | None => l
                  end))
  = List.length (List.filter (matches url) l).
Proof. destruct c as [c|]; [| done]. apply filter_fmap_length, with_edge_matches. Qed.

Lemma matches_refl url n : Node.label n = url → matches url n = true.
Proof. intros <-. unfold matches. apply String.eqb_refl. Qed.

(** After [handleEdgeAndNodeCreation] the graph has a node for the URL, with
    the identifier the function returned; a node is added only when there was
    none. *)
Lemma handleEdgeAndNodeCreation_upsert url img st nodeId st' :
  handleEdgeAndNodeCreation normalize url img st = Normal (nodeId, st') →
  node_id_for url st' = Some nodeId
  ∧ (node_id_for url st = None →
     List.length (nodes (exploreGraphData st')) = S (List.length (nodes (exploreGraphData st)))
     ∧ count_for url st' = 1)
  ∧ (∀ id, node_id_for url st = Some id →
     nodeId = id
     ∧ List.length (nodes (exploreGraphData st')) = List.length (nodes (exploreGraphData st))
     ∧ count_for url st' = count_for url st).
Proof.
  intros H. destruct (handleEdgeAndNodeCreation_effect _ _ _ _ _ H)
    as (_ & _ & _ & _ & [(Ef & Hid & Hn) | (n & Ef & Hid & Hn)]);
    unfold node_id_for, count_for; rewrite Hn, link_find, link_length, link_count.
  - rewrite (find_app_None _ _ _ Ef) by by apply matches_refl.
    rewrite Ef, length_app, List.filter_app, (filter_find_None _ _ Ef).
    cbn. rewrite matches_refl by done. cbn.
    repeat split; try done; lia.
  - rewrite Ef. cbn. repeat split; try done; congruence.
Qed.

(** [handleEdgeAndNodeCreation] keeps the nodes unique. *)
Lemma handleEdgeAndNodeCreation_unique url img st nodeId st' :
  handleEdgeAndNodeCreation normalize url img st = Normal (nodeId, st') →
  unique_nodes st → unique_nodes st'.
Proof.
  intros H Hu url0. specialize (Hu url0).
  destruct (handleEdgeAndNodeCreation_effect _ _ _ _ _ H)
    as (_ & _ & _ & _ & [(Ef & Hid & Hn) | (n & Ef & Hid & Hn)]);
    unfold count_for in *; rewrite Hn, link_count; [| done].
  rewrite List.filter_app, length_app. cbn [List.filter].
  destruct (matches url0 _) eqn:Em; [| cbn; lia].
  unfold matches in Em. cbn in Em. apply String.eqb_eq in Em.
  rewrite <- (matches_normalize _ _ Em), (filter_find_None _ _ Ef). cbn. lia.
Qed.

End Graph.

End ExploreFacts.

(** ** The properties of the exploration bookkeeping *)

Module ExploreTheorems.
Import JS ExploreChat ExploreFacts.

(** C6: recording a page twice under the same normalized URL gives the same
    node identifier both times and adds no node the second time; a graph that
    had at most one node for the URL has exactly one afterwards.  (The two
    calls are calls that return: [handleEdgeAndNodeCreation] throws only when
    [localStorage.setItem] does.) *)
Theorem node_upsert_idempotent normalize url url' img img' st id1 st1 id2 st2 :
  normalize url = normalize url' →
  handleEdgeAndNodeCreation normalize url img st = Normal (id1, st1) →
  handleEdgeAndNodeCreation normalize url' img' st1 = Normal (id2, st2) →
  count_for normalize url st ≤ 1 →
  id1 = id2
  ∧ List.length (nodes (exploreGraphData st2)) = List.length (nodes (exploreGraphData st1))
  ∧ count_for normalize url st2 = 1.
Proof.
  intros Hn H1 H2 Hc.
  destruct (handleEdgeAndNodeCreation_upsert _ _ _ _ _ _ H1) as (Hid1 & Hnew & Hold).
  destruct (handleEdgeAndNodeCreation_upsert _ _ _ _ _ _ H2) as (_ & _ & Hold2).
  unfold node_id_for, count_for in *. rewrite <- (matches_normalize _ _ _ Hn) in Hold2.
  destruct (Hold2 _ Hid1) as (-> & Hlen & Hcount).
  repeat split; [done |]. rewrite Hcount.
  destruct (List.find (matches normalize url) (nodes (exploreGraphData st))) as [n|] eqn:Ef.
  - destruct (Hold _ eq_refl) as (_ & _ & ->).
    destruct (filter_find_Some _ _ _ Ef). lia.
  - by destruct (Hnew eq_refl).
Qed.

Lemma node_upsert_idempotent_witness :
  ∃ id1 st1 id2 st2,
    handleEdgeAndNodeCreation id "https://x/a" None Scenario.initial = Normal (id1, st1)
    ∧ handleEdgeAndNodeCreation id "https://x/a" None st1 = Normal (id2, st2)
    ∧ id1 = id2
    ∧ List.length (nodes (exploreGraphData st2)) = List.length (nodes (exploreGraphData st1))
    ∧ count_for id "https://x/a" st2 = 1.
Proof.
  eexists _, _, _, _. split; [vm_compute; reflexivity |]. split; [vm_compute; reflexivity |].
  eapply (node_upsert_idempotent id "https://x/a" "https://x/a" None None Scenario.initial);
    [reflexivity | vm_compute; reflexivity | vm_compute; reflexivity | vm_compute; lia].
Defined.

Lemma getNextToExplore_exploring st0 item st :
  getNextToExplore st0 = Normal (Some item, st) →
  ∃ route, head (exploreRoute st0) = Some route
           ∧ currentlyExploring st = Some (exploring_of (route, item)).
Proof.
  unfold getNextToExplore. destruct (exploreRoute st0) as [|route routes]; [done |].
  destruct (truthy route); [| done].
  destruct (exploreQueue st0 !! route) as [[|nextItem queue]|]; try done.
  intros [= <- <-]. by exists route.
Qed.

(** A turn that discovers a page not seen before. *)
Lemma explore_turn_new_url normalize elems resp url img st e st' :
  explore_turn normalize elems resp (Some url) img st = Normal (Some (Some e), st') →
  url ∉ exploreRoute st →
  ∃ nodeId st1 st2,
    handleEdgeAndNodeCreation normalize url img
      (set_exploreQueue (<[url := []]> (exploreQueue st)) st) = Normal (nodeId, st1)
    ∧ handleQueueUpdate elems resp url nodeId
        (parent_of <$> currentlyExploring st) st1 = Normal st2
    ∧ st' = set_exploreRoute (set_add (new_Set (exploreRoute st)) url) st2.
Proof.
  unfold explore_turn, processExploreOutput, cleanCompletedQueue. intros H Hnew.
  destruct elems as [|e0 elems0]; [done |].
  set (elems := e0 :: elems0) in *. cbn [List.length Nat.ltb Nat.leb] in H.
  - destruct (truthy url); cbn [negb] in H; [| done].
    rewrite set_has_new_Set, bool_decide_eq_false_2 in H by done. cbn [negb] in H.
    destruct (handleEdgeAndNodeCreation normalize url img _) as [[nodeId st1]|] eqn:E1;
      [| done].
    cbn [bind] in H.
    destruct (handleQueueUpdate elems resp url nodeId _ st1) as [st2|] eqn:E2;
      [| done].
    cbn [bind] in H. injection H as _ <-. by exists nodeId, st1, st2.
Qed.

(** C7: when a turn establishes a URL that was not visited before, the graph
    gets a node for it (a new one when no node stood for the URL), and, while
    an item taken from the frontier is being explored, exactly one edge: from
    the node of that item to the node of the page, labeled with the text of
    the item.  When no item is being explored, no edge is created. *)
Theorem new_page_edge normalize elems resp url img st e st' who :
  explore_turn normalize elems resp (Some url) img st = Normal (Some (Some e), st') →
  url ∉ exploreRoute st →
  currentlyExploring st = exploring_of <$> who →
  ∃ nodeId,
    node_id_for normalize url st' = Some nodeId
    ∧ (node_id_for normalize url st = None →
       List.length (nodes (exploreGraphData st'))
       = S (List.length (nodes (exploreGraphData st))))
    ∧ edges (exploreGraphData st')
      = edges (exploreGraphData st)
          ++ match who with
             | Some (_, item) =>
                 [ {| Edge.id := Item.id item; Edge.source := Item.nodeId item;
                      Edge.target := nodeId; Edge.sourceHandle := Item.id item;
                      Edge.label := Item.text item |} ]
             | None => []
             end.
Proof.
  intros H Hnew Hwho.
  destruct (explore_turn_new_url _ _ _ _ _ _ _ _ H Hnew) as (nodeId & st1 & st2 & H1 & H2 & ->).
  destruct (handleQueueUpdate_frame _ _ _ _ _ _ _ H2) as (Hg & _).
  destruct (handleEdgeAndNodeCreation_upsert _ _ _ _ _ _ H1) as (Hid & Hfresh & _).
  destruct (handleEdgeAndNodeCreation_effect _ _ _ _ _ _ H1) as (He & _).
  exists nodeId. unfold node_id_for in *. cbn in *. rewrite Hg.
  repeat split; [done | by intros Hn; destruct (Hfresh Hn) |].
  rewrite He, Hwho. by destruct who as [[route item]|].
Qed.

Lemma new_page_edge_witness :
  ∃ nodeId,
    node_id_for id "https://x/b" Scenario.discovered_b = Some nodeId
    ∧ (node_id_for id "https://x/b" Scenario.exploring_login = None →
       List.length (nodes (exploreGraphData Scenario.discovered_b))
       = S (List.length (nodes (exploreGraphData Scenario.exploring_login))))
    ∧ edges (exploreGraphData Scenario.discovered_b)
      = edges (exploreGraphData Scenario.exploring_login)
          ++ [ {| Edge.id := "id1"; Edge.source := "id0"; Edge.target := nodeId;
                  Edge.sourceHandle := "id1"; Edge.label := "Login" |} ].
Proof.
  refine (new_page_edge id [Scenario.element "Sign in" "30,30"] "second" "https://x/b"
            None Scenario.exploring_login (Scenario.element "Sign in" "30,30")
            Scenario.discovered_b
            (Some ("https://x/a",
                   {| Item.text := "Login"; Item.coordinates := "10,10";
                      Item.aboutThisElement := ""; Item.source := "first";
                      Item.url := "https://x/a"; Item.id := "id1"; Item.nodeId := "id0";
                      Item.parent := {| Parent.url := "https://x/a"; Parent.id := "id1";
                                        Parent.nodeId := "id0" |} |})) _ _ _).
  - by vm_compute.
  - apply (bool_decide_unpack _). by vm_compute.
  - by vm_compute.
Defined.

(** The scenario of the specification: two discoveries in a row, from
    [https://x/a] through "Login" to [https://x/b], leave two nodes and one
    edge from the first to the second, labeled "Login". *)
Example two_discoveries :
  (Node.label <$> nodes (exploreGraphData Scenario.discovered_b))
  = ["https://x/a"; "https://x/b"]
  ∧ (Node.id <$> nodes (exploreGraphData Scenario.discovered_b)) = ["id0"; "id3"]
  ∧ edges (exploreGraphData Scenario.discovered_b)
    = [ {| Edge.id := "id1"; Edge.source := "id0"; Edge.target := "id3";
           Edge.sourceHandle := "id1"; Edge.label := "Login" |} ].
Proof. by vm_compute. Qed.

(** A turn on a URL that is already among the visited routes leaves the graph
    and the queues alone: the page is recorded once. *)
Lemma explore_turn_visited_url normalize elems resp url img st r st' :
  explore_turn normalize elems resp (Some url) img st = Normal (r, st') →
  url ∈ exploreRoute st →
  exploreGraphData st' = exploreGraphData st ∧ exploreQueue st' = exploreQueue st.
Proof.
  unfold explore_turn, processExploreOutput, cleanCompletedQueue. intros H Hin.
  destruct (0 <? List.length elems)%nat; [| by injection H as _ <-].
  destruct (truthy url); cbn [negb] in H; [| by injection H as _ <-].
  rewrite set_has_new_Set, bool_decide_eq_true_2 in H by done. cbn [negb] in H.
  by injection H as _ <-.
Qed.

(** The back end reports the empty string when the Puppeteer browser is not
    ready, or when asking it fails. *)
Lemma getCurrentUrlBasedOnSource_not_ready driver :
  CommonUtil.isBrowserReady driver ≠ Normal true →
  CommonUtil.getCurrentUrlBasedOnSource CommonUtil.chrome_puppeteer driver = "".
Proof.
  intros H. unfold CommonUtil.getCurrentUrlBasedOnSource.
  by destruct (CommonUtil.isBrowserReady driver) as [[|]|].
Qed.

(** A failed query, and the empty string that the back end then reports,
    reach [processExploreOutput] as a missing URL. *)
Lemma getCurrentUrl_missing driver :
  CommonUtil.isBrowserReady driver ≠ Normal true →
  url_missing (Api.getCurrentUrl Api.FetchFailed) = true
  ∧ url_missing
      (Api.getCurrentUrl
         (Api.Body (Some (CommonUtil.getCurrentUrlBasedOnSource
                            CommonUtil.chrome_puppeteer driver)))) = true.
Proof. intros H. by rewrite getCurrentUrlBasedOnSource_not_ready. Qed.

(** C8: when the current-URL query returns empty or nothing, the turn
    creates no node and no edge and leaves the frontier queue, the item being
    explored and the set of visited routes as they were (the list of routes
    itself too, as soon as it has no duplicates). *)
Theorem processExploreOutput_without_url normalize elems resp parent url img st r st' :
  url_missing url = true →
  processExploreOutput normalize elems resp parent url img st = Normal (r, st') →
  exploreGraphData st' = exploreGraphData st
  ∧ exploreQueue st' = exploreQueue st
  ∧ currentlyExploring st' = currentlyExploring st
  ∧ (∀ route, route ∈ exploreRoute st' ↔ route ∈ exploreRoute st)
  ∧ (NoDup (exploreRoute st) → exploreRoute st' = exploreRoute st).
Proof.
  intros Hurl. unfold processExploreOutput, cleanCompletedQueue.
  destruct (0 <? List.length elems)%nat.
  - destruct url as [u|]; cbn [url_missing] in Hurl; [rewrite Hurl |];
      intros [= <- <-]; repeat split; auto.
  - intros [= <- <-]. cbn. repeat split; try done.
    + apply new_Set_elem.
    + apply new_Set_elem.
    + apply new_Set_NoDup.
Qed.

Lemma processExploreOutput_without_url_witness :
  exploreGraphData Scenario.discovered_a = exploreGraphData Scenario.discovered_a
  ∧ exploreQueue Scenario.discovered_a = exploreQueue Scenario.discovered_a
  ∧ currentlyExploring Scenario.discovered_a = currentlyExploring Scenario.discovered_a
  ∧ (∀ route, route ∈ exploreRoute Scenario.discovered_a
              ↔ route ∈ exploreRoute Scenario.discovered_a)
  ∧ (NoDup (exploreRoute Scenario.discovered_a)
     → exploreRoute Scenario.discovered_a = exploreRoute Scenario.discovered_a).
Proof.
  exact (processExploreOutput_without_url id [Scenario.element "Sign in" "30,30"] "second"
           None (Some "") None Scenario.discovered_a None Scenario.discovered_a
           eq_refl eq_refl).
Defined.

(** What the loop of [handleQueueUpdate] appends when there is no parent. *)
Lemma handleQueueUpdate_loop_self_parented elems resp url nodeId st st' :
  handleQueueUpdate_loop elems resp url nodeId None st = Normal st' →
  ∃ new,
    exploreQueue st' !! url = (fun queue => queue ++ new) <$> exploreQueue st !! url
    ∧ List.length new = List.length (List.filter admitted elems)
    ∧ Forall self_parented new
    ∧ Forall (fun item => Item.url item = url ∧ Item.nodeId item = nodeId) new
    ∧ (Item.id <$> new)
      = (fun k => uuid_source st (uuid_drawn st + k)) <$> seq 0 (List.length new).
Proof.
  revert st. induction elems as [|e elems IH]; intros st; cbn [handleQueueUpdate_loop].
  - intros [= <-]. exists []. cbn. repeat split; try done.
    destruct (exploreQueue st !! url); cbn; by rewrite ?app_nil_r.
  - unfold handleQueueUpdate_element. cbn [List.filter]. fold (admitted e).
    destruct (admitted e).
    + cbn [uuid exploreQueue fmap option_fmap option_map or_else].
      destruct (exploreQueue st !! url) as [queue|] eqn:Eq; [| done].
      cbn [bind]. intros H. destruct (IH _ H) as (new & Hq & Hlen & Hself & Hurl & Hids).
      cbn [exploreQueue set_exploreQueue uuid_source uuid_drawn] in Hq, Hids.
      rewrite lookup_insert_eq in Hq. cbn in Hq.
      eexists (_ :: new). rewrite Hq, <- app_assoc. cbn.
      repeat split; try (by f_equal); try (constructor; done).
      rewrite Nat.add_0_r. f_equal. rewrite Hids, <- fmap_S_seq, <- list_fmap_compose.
      apply list_fmap_ext. intros _ k _. cbn. f_equal. lia.
    + cbn [bind]. apply IH.
Qed.

(** C10: without a parent, [handleQueueUpdate] appends to the queue of the
    URL one item per element that has a text and coordinates, and each of these
    items is its own parent: the parent's [url], [nodeId] and [id] are the
    item's own, the [id] being the identifier drawn for the item. *)
Theorem handleQueueUpdate_self_parented elems resp url nodeId st st' :
  handleQueueUpdate elems resp url nodeId None st = Normal st' →
  ∃ new,
    exploreQueue st' !! url = (fun queue => queue ++ new) <$> exploreQueue st !! url
    ∧ List.length new = List.length (List.filter admitted elems)
    ∧ Forall self_parented new
    ∧ Forall (fun item => Item.url item = url ∧ Item.nodeId item = nodeId) new
    ∧ (Item.id <$> new)
      = (fun k => uuid_source st (uuid_drawn st + k)) <$> seq 0 (List.length new).
Proof.
  intros (st1 & H1 & ->)%handleQueueUpdate_Normal.
  destruct (handleQueueUpdate_loop_self_parented _ _ _ _ _ _ H1) as (new & H).
  by exists new.
Qed.

Lemma handleQueueUpdate_self_parented_witness :
  ∃ new,
    exploreQueue Scenario.queued !! "https://x/a" = Some ([] ++ new)
    ∧ List.length new = 2
    ∧ Forall self_parented new
    ∧ Forall (fun item => Item.url item = "https://x/a" ∧ Item.nodeId item = "node") new
    ∧ (Item.id <$> new) = (fun k => Scenario.uuids (0 + k)) <$> seq 0 (List.length new).
Proof.
  exact (handleQueueUpdate_self_parented
           [Scenario.element "Login" "10,10"; Scenario.element "Logo" "";
            Scenario.element "About" "20,20"]
           "first" "https://x/a" "node" Scenario.before_queueing Scenario.queued eq_refl).
Defined.

(** What holds of the frontier: an item comes from the route visited first,
    and it is the oldest item of that route. *)
Lemma getNextToExplore_first_route st item st' :
  getNextToExplore st = Normal (Some item, st') →
  ∃ route routes queue,
    exploreRoute st = route :: routes
    ∧ exploreQueue st !! route = Some (item :: queue)
    ∧ exploreQueue st' = <[route := queue]> (exploreQueue st)
    ∧ exploreRoute st' = exploreRoute st.
Proof.
  unfold getNextToExplore. destruct (exploreRoute st) as [|route routes] eqn:Er; [done |].
  destruct (truthy route); [| done].
  destruct (exploreQueue st !! route) as [[|nextItem queue]|] eqn:E; try done.
  intros [= <- <-]. exists route, routes, queue. cbn. by rewrite Er.
Qed.

(** Once the queue of the route visited first is empty, nothing is handed
    out any more, whatever the queues of the later routes hold. *)
Lemma getNextToExplore_exhausted st route routes :
  exploreRoute st = route :: routes → exploreQueue st !! route = Some [] →
  getNextToExplore st = Normal (None, st).
Proof.
  intros Hr Hq. unfold getNextToExplore. rewrite Hr.
  destruct (truthy route); [| done]. by rewrite Hq.
Qed.

(** C1 fails on the code: after two discoveries and two items handed out,
    the first route is exhausted while the second still holds "Sign in", and
    [getNextToExplore] returns nothing instead of that item. *)
Theorem getNextToExplore_stalls :
  exploreRoute Scenario.exploring_about = ["https://x/a"; "https://x/b"]
  ∧ exploreQueue Scenario.exploring_about !! "https://x/a" = Some []
  ∧ (Item.text <$> default [] (exploreQueue Scenario.exploring_about !! "https://x/b"))
    = ["Sign in"]
  ∧ getNextToExplore Scenario.exploring_about = Normal (None, Scenario.exploring_about).
Proof. repeat split; by vm_compute. Qed.

(** A request that meets the guard is dropped. *)
Lemma handleExploreMessage_dropped now msg type img st :
  isProcessing st = true → handleExploreMessage now msg type img st = st.
Proof. intros Hp. unfold handleExploreMessage. by rewrite Hp. Qed.

(** A request that is let in sets the guard and sends one model turn. *)
Lemma handleExploreMessage_idle now msg type img st :
  isProcessing st = false →
  isProcessing (handleExploreMessage now msg type img st) = true
  ∧ List.length (requests (handleExploreMessage now msg type img st))
    = S (List.length (requests st)).
Proof.
  intros Hp. unfold handleExploreMessage. rewrite Hp. cbn.
  split; [done |]. rewrite length_app. cbn. lia.
Qed.

Lemma start_turns_cons now msg type img calls st :
  start_turns ((now, msg, type, img) :: calls) st
  = start_turns calls (handleExploreMessage now msg type img st).
Proof. done. Qed.

(** So requests in a row send at most one model turn, and none when the guard
    was set from the start. *)
Lemma start_turns_single_flight calls st :
  List.length (requests (start_turns calls st)) ≤ S (List.length (requests st))
  ∧ (isProcessing st = true →
     List.length (requests (start_turns calls st)) = List.length (requests st)).
Proof.
  revert st. induction calls as [|[[[now msg] type] img] calls IH]; intros st.
  { cbn. split; [lia | done]. }
  rewrite start_turns_cons.
  destruct (isProcessing st) eqn:Hp.
  - rewrite handleExploreMessage_dropped by done. destruct (IH st) as [Hle Heq].
    split; [done | ]. intros _. by apply Heq.
  - destruct (handleExploreMessage_idle now msg type img st Hp) as [Hg Hl].
    destruct (IH (handleExploreMessage now msg type img st)) as [_ Heq].
    split; [| done]. rewrite (Heq Hg). lia.
Qed.

(** C5: while the guard [isProcessing] is set, a request to start a turn, and
    any number of them in a row, is dropped and not queued: the state stays as
    it is, the list of the model turns sent included. *)
Theorem handleExploreMessage_guard calls st :
  isProcessing st = true → start_turns calls st = st.
Proof.
  intros Hp. induction calls as [|[[[now msg] type] img] calls IH]; [done |].
  by rewrite start_turns_cons, handleExploreMessage_dropped.
Qed.

Lemma handleExploreMessage_guard_witness :
  start_turns
    [(1730000000001%N, "again", "explore", None); (1730000000002%N, "and again", "action", None)]
    (handleExploreMessage 1730000000000%N "Explore the site" "explore" None Scenario.initial)
  = handleExploreMessage 1730000000000%N "Explore the site" "explore" None Scenario.initial.
Proof.
  exact (handleExploreMessage_guard
           [(1730000000001%N, "again", "explore", None);
            (1730000000002%N, "and again", "action", None)]
           (handleExploreMessage 1730000000000%N "Explore the site" "explore" None
              Scenario.initial)
           eq_refl).
Defined.

End ExploreTheorems.

(** ** The retry loop when every attempt fails *)

Module ProviderTheorems.
Import JS Provider.

Lemma forward_chunks_app cs res : forward_chunks cs res = res ++ forward_chunks cs [].
Proof.
  revert res. induction cs as [|c cs IH]; intros res; cbn [forward_chunks].
  - by rewrite app_nil_r.
  - rewrite IH. symmetry. rewrite IH. symmetry.
    destruct (delta_text c) as [text|]; [| done].
    destruct (String.eqb _ _ && truthy text); [| done].
    unfold sendStreamResponse. by rewrite <- app_assoc.
Qed.

Lemma forward_chunks_plain cs :
  Forall (fun data => isError data = None ∧ isComplete data = None
                      ∧ truthy (message data) = true)
    (forward_chunks cs []).
Proof.
  induction cs as [|c cs IH]; cbn [forward_chunks]; [constructor |].
  rewrite forward_chunks_app. apply Forall_app. split; [| done].
  destruct (delta_text c) as [text|]; [| constructor].
  destruct (String.eqb _ _); cbn [andb]; [| constructor].
  destruct (truthy text) eqn:Et; [| constructor].
  unfold sendStreamResponse. cbn. by repeat constructor.
Qed.

Lemma processStream_fails res img attempt :
  fails attempt = true →
  processStream res img attempt = (false, res ++ failed_events attempt).
Proof.
  unfold processStream, failed_events, processStreamResponse, sendStreamResponse.
  destruct attempt as [|stream]; cbn [fails]; [done |]. intros ->.
  by rewrite forward_chunks_app, <- app_assoc.
Qed.

Lemma retry_loop_all_fail n i attempts img res :
  (∀ k, k < n → fails (attempts (i + k)) = true) →
  retry_loop (replicate n 0) i attempts img res
  = (false, res ++ concat ((fun k => failed_events (attempts (i + k))) <$> seq 0 n)).
Proof.
  revert i res. induction n as [|n IH]; intros i res Hall; cbn [replicate retry_loop].
  - cbn. by rewrite app_nil_r.
  - rewrite processStream_fails.
    2:{ rewrite <- (Nat.add_0_r i). apply Hall. lia. }
    rewrite IH.
    2:{ intros k Hk. replace (S i + k) with (i + S k) by lia. apply Hall. lia. }
    cbn [seq fmap list_fmap concat]. rewrite Nat.add_0_r, <- app_assoc.
    do 3 f_equal. rewrite <- fmap_S_seq, <- list_fmap_compose.
    f_equal. apply list_fmap_ext. intros _ k _. cbn. do 2 f_equal. lia.
Qed.

Lemma failed_events_counts attempt :
  List.filter is_terminal_error (failed_events attempt) = []
  ∧ List.filter is_completion (failed_events attempt) = []
  ∧ List.length (List.filter is_retrying (failed_events attempt)) = 1.
Proof.
  unfold failed_events. rewrite !List.filter_app. cbn.
  assert (∀ cs, List.filter is_terminal_error (forward_chunks cs []) = []
                ∧ List.filter is_completion (forward_chunks cs []) = []
                ∧ List.filter is_retrying (forward_chunks cs []) = []) as Hcs.
  { intros cs. pose proof (forward_chunks_plain cs) as H.
    induction H as [|d l (He & Hc & Hm) _ (IH1 & IH2 & IH3)]; [done |].
    cbn. unfold is_terminal_error, is_completion, is_retrying in *.
    by rewrite He, Hc, IH1, IH2, IH3. }
  destruct attempt as [|stream]; [done |].
  destruct (Hcs (chunks stream)) as (-> & -> & ->). done.
Qed.

Lemma concat_failed_counts (l : list Attempt) :
  List.filter is_terminal_error (concat (failed_events <$> l)) = []
  ∧ List.filter is_completion (concat (failed_events <$> l)) = []
  ∧ List.length (List.filter is_retrying (concat (failed_events <$> l))) = List.length l.
Proof.
  induction l as [|a l (IH1 & IH2 & IH3)]; [done |].
  cbn. rewrite !List.filter_app, length_app, IH1, IH2, IH3.
  destruct (failed_events_counts a) as (-> & -> & ->). done.
Qed.

(** C2, as the code has it: when each of the [retryCount] attempts fails,
    [streamResponse] makes exactly [retryCount] attempts and then writes one
    terminal error event, the last event, and no completion event.  The deltas
    a failed attempt received before it failed have been written as chunk
    events and stay, and each failed attempt adds a notice with [isError:
    false].  ([generateComponentDescription], awaited first for [EXPLORE],
    must not have thrown.) *)
Theorem streamResponse_all_attempts_fail res type img description attempts retryCount :
  (type = EXPLORE → ∃ b, description = Normal b) →
  (∀ i, i < retryCount → fails (attempts i) = true) →
  ∃ written,
    streamResponse res type img description attempts retryCount
    = Normal (res ++ written ++ [error_event])
    ∧ written = concat (failed_events <$> (attempts <$> seq 0 retryCount))
    ∧ List.length (List.filter is_retrying written) = retryCount
    ∧ List.length (List.filter is_terminal_error (written ++ [error_event])) = 1
    ∧ List.filter is_completion (written ++ [error_event]) = [].
Proof.
  intros Hd Hall. eexists. split; [| split; [reflexivity |]].
  - unfold streamResponse.
    assert (match type with
            | EXPLORE => bind description (fun _ => Normal tt)
            | ACTION => Normal tt
            end = Normal tt) as ->.
    { destruct type; [| done]. by destruct (Hd eq_refl) as [b ->]. }
    cbn [bind]. rewrite retry_loop_all_fail by done.
    unfold sendStreamResponse. rewrite <- app_assoc. do 3 f_equal.
    by rewrite <- list_fmap_compose.
  - destruct (concat_failed_counts (attempts <$> seq 0 retryCount)) as (H1 & H2 & H3).
    rewrite !List.filter_app, length_app, H1, H2, H3, length_fmap, length_seq.
    done.
Qed.

Lemma streamResponse_all_attempts_fail_witness :
  ∃ written,
    streamResponse [] ACTION None (Normal true)
      (fun _ => Streams {| chunks := [ {| chunk_type := "content_block_delta";
                                         delta_text := Some "Hel" |} ];
                           throws := true |}) 3
    = Normal ([] ++ written ++ [error_event])
    ∧ written
      = concat (failed_events
                  <$> ((fun _ => Streams {| chunks := [ {| chunk_type := "content_block_delta";
                                                          delta_text := Some "Hel" |} ];
                                            throws := true |}) <$> seq 0 3))
    ∧ List.length (List.filter is_retrying written) = 3
    ∧ List.length (List.filter is_terminal_error (written ++ [error_event])) = 1
    ∧ List.filter is_completion (written ++ [error_event]) = [].
Proof.
  apply (streamResponse_all_attempts_fail [] ACTION None (Normal true)
           (fun _ => Streams {| chunks := [ {| chunk_type := "content_block_delta";
                                              delta_text := Some "Hel" |} ];
                                throws := true |}) 3).
  - intros H. discriminate H.
  - intros i _. reflexivity.
Defined.

(** C2 as the specification words it fails: the delta of an attempt that
    failed afterwards is written as a chunk event like any other, and the reader
    in the front end takes it, and the notice of the retry, for output. *)
Lemma streamResponse_chunks_counterexample :
  fails (Streams {| chunks := [ {| chunk_type := "content_block_delta";
                                   delta_text := Some "Hel" |} ];
                    throws := true |}) = true
  ∧ streamResponse [] ACTION None (Normal true)
      (fun _ => Streams {| chunks := [ {| chunk_type := "content_block_delta";
                                         delta_text := Some "Hel" |} ];
                           throws := true |}) 1
    = Normal [chunk_event "Hel"; retrying_event; error_event]
  ∧ surfaced_chunks [chunk_event "Hel"; retrying_event; error_event]
    = ["Hel"; "Error processing message re-trying"].
Proof. repeat split; by vm_compute. Qed.

End ProviderTheorems.

(** ** More about the parser and [extractAction] *)

Module ParserTheorems.
Import JS JSFacts Regex RegexFacts MessagePatterns Grammar ProcessorFacts ParseFacts ActionExtract.

Lemma earliest_is_after_plain pre pair s :
  pair ∈ tagPairs → plain pre = true →
  earliest_is (pre +:+ open pair +:+ s) pair (String.length pre).
Proof.
  intros Hp Hpre. repeat split; [done | |].
  - destruct (open_tagPairs _ Hp) as (Ho & _).
    rewrite indexOf_skip by by apply absent_in_plain.
    rewrite indexOf_here by apply startsWith_app. cbn. f_equal. lia.
  - intros pair' j Hp' Hj. destruct (open_tagPairs _ Hp') as (Ho & _).
    rewrite indexOf_skip in Hj by by apply absent_in_plain.
    destruct (indexOf (open pair') _); [| done]. cbn in Hj. injection Hj as <-. lia.
Qed.

(** X3: [parseMessage] works tag by tag.  For a text made of text without [<],
    a complete well-formed tag and any rest, the result is the trimmed leading
    text as a text part (none when it is blank), then the part of the tag,
    then the parts of the rest parsed on its own.  It throws when the
    [omni_parser] body of the tag is not JSON, or when parsing the rest
    throws. *)
Theorem parseMessage_tag_then_rest sep pre t rest :
  blank sep = true → plain pre = true → well_formed t = true →
  parseMessage (pre +:+ render sep t +:+ rest)
  = (fun r => bind (stored t) (fun p => prepend (push_text [] (trim pre) ++ [p]) r))
      <$> parseMessage rest.
Proof.
  intros Hsep Hpre Hwf.
  pose proof (pair_of_tagPairs t) as Hpair.
  destruct (open_tagPairs _ Hpair) as (Ho & Hlo & Hlc).
  set (o := open (pair_of t)) in *. set (c := close (pair_of t)) in *.
  assert (render sep t +:+ rest = o +:+ inner sep t +:+ c +:+ rest) as Hr.
  { rewrite render_inner. by rewrite !append_assoc. }
  assert (String.length (render sep t)
          = String.length o + String.length (inner sep t) + String.length c) as Hlen.
  { rewrite render_inner, !length_append. fold o c. lia. }
  assert (earliest_is (pre +:+ render sep t +:+ rest) (pair_of t) (String.length pre)) as He.
  { rewrite Hr. by apply earliest_is_after_plain. }
  assert (indexOfFrom c (pre +:+ render sep t +:+ rest) (String.length pre + String.length o)
          = Some (String.length pre + String.length o + String.length (inner sep t))) as Hc.
  { unfold indexOfFrom. rewrite Hr, !length_append.
    rewrite Nat.min_l by lia.
    rewrite <- (append_assoc pre o), <- length_append, sdrop_app.
    rewrite indexOf_skip by (apply inner_absent; [by apply blank_plain | done]).
    rewrite indexOf_here by apply startsWith_app. cbn. f_equal.
    rewrite length_append. lia. }
  unfold parseMessage.
  rewrite (parse_loop_matched _ _ _ _ _ _ He Hc).
  rewrite slice_middle by (fold c; lia).
  rewrite slice_prefix.
  rewrite processor_well_formed by done.
  rewrite slice_from_suffix by (fold c; lia).
  destruct (parse_loop_enough (S (String.length rest))
              (String.length (pre +:+ render sep t +:+ rest)) rest []) as [Hfuel [r Hrest]].
  { lia. }
  { rewrite !length_append, Hlen. lia. }
  rewrite Hrest. rewrite Hrest in Hfuel. cbn [fmap option_fmap option_map].
  destruct (stored t) as [p | e]; cbn [bind]; [| done].
  cbn [MessagePatterns.part].
  by rewrite parse_loop_prepend, <- Hfuel.
Qed.

Lemma parseMessage_tag_then_rest_witness :
  parseMessage ("Opening the page. "
                  +:+ render " " (complete_task_tag "All pages were visited." None)
                  +:+ " Bye.")
  = Some (Normal [text_part "Opening the page.";
                  complete_task "All pages were visited." None;
                  text_part "Bye."]).
Proof.
  exact (parseMessage_tag_then_rest " " "Opening the page. "
           (complete_task_tag "All pages were visited." None) " Bye."
           eq_refl eq_refl eq_refl).
Defined.


Lemma blank_app a b : blank (a +:+ b) = blank a && blank b.
Proof. apply sforall_app. Qed.

Lemma truthy_trim s : truthy (trim s) = negb (blank s).
Proof.
  destruct (blank s) eqn:Hb; cbn [negb]; [by rewrite trim_blank |].
  destruct (trim_split s) as (w1 & w2 & Hs & Hw1 & Hw2 & _).
  destruct (trim s) as [|c t]; [| done].
  rewrite Hs, !blank_app, Hw1, Hw2 in Hb. done.
Qed.

Lemma tagStarts_nil text :
  forallb (fun pair => negb (includes text (open pair))) tagPairs = true →
  tagStarts text = [].
Proof.
  intros H. apply elem_of_nil_inv. intros [pair i] [Hp Hi]%elem_of_tagStarts.
  rewrite forallb_forall in H. apply list_elem_of_In in Hp.
  specialize (H _ Hp). unfold includes in H. by rewrite Hi in H.
Qed.

(** X2: a text in which none of the four opening tags occurs comes back as one
    text part that holds the trimmed text, and as no part at all when the text
    is empty or white space. *)
Theorem parseMessage_without_tags text :
  forallb (fun pair => negb (includes text (open pair))) tagPairs = true →
  parseMessage text = Some (Normal (if blank text then [] else [text_part (trim text)])).
Proof.
  intros H. unfold parseMessage. cbn [parse_loop].
  destruct text as [|c text]; [done |]. cbn [truthy negb].
  rewrite (tagStarts_nil _ H). unfold push_text. rewrite truthy_trim.
  by destruct (blank (String c text)).
Qed.

Lemma parseMessage_without_tags_witness :
  parseMessage "  see <b>this</b> " = Some (Normal [text_part "see <b>this</b>"]).
Proof. exact (parseMessage_without_tags "  see <b>this</b> " eq_refl). Defined.

(** X1: the scanning loop of [parseMessage] always ends.  Every round takes at
    least one character off the text, so one round more than the text has
    characters is enough, and a longer run returns the same result. *)
Theorem parseMessage_terminates text fuel :
  String.length text < fuel →
  ∃ r, parseMessage text = Some r ∧ parse_loop fuel text [] = Some r.
Proof.
  intros Hf. unfold parseMessage.
  destruct (parse_loop_enough (S (String.length text)) fuel text []) as [He [r Hr]];
    [lia | done |].
  exists r. split; [done |]. by rewrite <- He.
Qed.

Lemma parseMessage_terminates_witness :
  ∃ r, parseMessage "<complete_task>never closed" = Some r
       ∧ parse_loop 100 "<complete_task>never closed" [] = Some r.
Proof. apply (parseMessage_terminates "<complete_task>never closed" 100). cbn. lia. Defined.

(** *** Text parts are trimmed *)
Definition tidy (p : MessagePart) : Prop :=
  match p with
  | text_part content => truthy content = true ∧ trim content = content
  | _ => True
  end.

Lemma trimStart_fix s : ws_head s = false → trimStart s = s.
Proof. destruct s as [|c s]; [done |]. cbn. by intros ->. Qed.

Lemma trimEnd_fix s : s = "" ∨ last_visible s = true → trimEnd s = s.
Proof.
  intros [-> | H]; [done |].
  induction s as [|c s IH]; [done |].
  cbn [trimEnd]. destruct s as [|d s].
  - cbn in *. by destruct (is_white_space c).
  - rewrite IH by done. done.
Qed.

Lemma trim_trim s : trim (trim s) = trim s.
Proof.
  destruct (trim_split s) as (w1 & w2 & _ & _ & _ & Hh & Hl).
  unfold trim at 1. rewrite trimStart_fix by done. by apply trimEnd_fix.
Qed.

Lemma tidy_push_text parts s :
  Forall tidy parts → Forall tidy (push_text parts (trim s)).
Proof.
  intros H. unfold push_text. destruct (truthy (trim s)) eqn:E; [| done].
  apply Forall_app. split; [done |]. constructor; [| done].
  split; [done | apply trim_trim].
Qed.

Lemma tidy_open pair : pair ∈ tagPairs → tidy (text_part (open pair)).
Proof.
  unfold tagPairs. intros H.
  repeat (apply elem_of_cons in H as [-> | H]); [.. | by apply elem_of_nil in H];
    by vm_compute.
Qed.

Lemma slice_open rem pair i :
  indexOf (open pair) rem = Some i →
  slice rem i (i + String.length (open pair)) = open pair.
Proof.
  intros Hi. pose proof (indexOf_startsWith _ _ _ Hi) as Hs.
  unfold slice. replace (i + String.length (open pair) - i)
    with (String.length (open pair)) by lia.
  rewrite (startsWith_inv _ _ Hs). apply stake_app.
Qed.

Lemma parse_loop_tidy fuel rem parts ps :
  parse_loop fuel rem parts = Some (Normal ps) → Forall tidy parts → Forall tidy ps.
Proof.
  revert rem parts. induction fuel as [|fuel IH]; intros rem parts; [done |].
  cbn [parse_loop]. destruct (negb (truthy rem)); [by intros [= <-] |].
  destruct (tagStarts rem) as [|first others] eqn:E.
  { intros [= <-] H. by apply tidy_push_text. }
  destruct (earliest_in_tagStarts _ _ _ E) as [Hp Hi].
  set (pair := fst (earliest first others)) in *.
  set (index := snd (earliest first others)) in *.
  destruct (indexOfFrom (close pair) rem (index + String.length (open pair)))
    as [closeIndex|].
  - destruct (processor pair _) as [processedMatch | e] eqn:Ep; [| done].
    intros H Hparts. apply (IH _ _ H).
    destruct processedMatch as [m|]; [| by apply tidy_push_text].
    apply Forall_app. split; [by apply tidy_push_text |].
    constructor; [| done].
    (* a processor never yields a text part *)
    revert Ep. clear -Hp. unfold tagPairs in Hp.
    repeat (apply elem_of_cons in Hp as [-> | Hp]); [.. | by apply elem_of_nil in Hp];
      cbn [processor].
    + unfold processFollowupQuestion. destruct (spread _); by intros [= <-].
    + unfold processCompleteTaskMatch. destruct (spread _); by intros [= <-].
    + unfold performActionMatch. destruct (smatch _ _ _); by intros [= <-].
    + unfold performActionResultMatch. destruct (smatch _ _ _); [| done].
      destruct (spread _); cbn [bind]; [| by intros [= <-]].
      destruct (JSON.parse _); cbn [bind]; by intros [= <-].
  - intros H Hparts. apply (IH _ _ H).
    apply Forall_app. split; [by apply tidy_push_text |].
    constructor; [| done]. rewrite slice_open by done. by apply tidy_open.
Qed.

(** X4: every text part that [parseMessage] returns is non-empty and has no
    white space at its ends. *)
Theorem parseMessage_text_parts text parts content :
  parseMessage text = Some (Normal parts) → text_part content ∈ parts →
  truthy content = true ∧ trim content = content.
Proof.
  intros H Hin. apply parse_loop_tidy in H; [| constructor].
  rewrite Forall_forall in H. exact (H _ Hin).
Qed.

Lemma parseMessage_text_parts_witness :
  truthy "see this" = true ∧ trim "see this" = "see this".
Proof.
  apply (parseMessage_text_parts
           "  see this <complete_task><result>ok</result></complete_task>"
           [text_part "see this"; complete_task "ok" None] "see this").
  - vm_compute. reflexivity.
  - apply elem_of_cons. by left.
Defined.


Lemma sdrop_sdrop n m s : sdrop m (sdrop n s) = sdrop (n + m) s.
Proof.
  revert s. induction n as [|n IH]; intros s; [done |].
  destruct s as [|c s]; cbn [sdrop Nat.add].
  - by destruct m.
  - apply IH.
Qed.

(** A pattern fails when what follows it fails at every later position. *)
Lemma star_greedy_fails c s caps (k : cont) :
  (∀ n caps', k (sdrop n s) caps' = None) → star_greedy c s caps k = None.
Proof.
  induction s as [|a s IH]; intros Hk; cbn [star_greedy].
  - apply (Hk 0).
  - rewrite IH by (intros n caps'; apply (Hk (S n))).
    rewrite (Hk 0). by destruct (cc_match c a).
Qed.

Lemma star_lazy_fails c s caps (k : cont) :
  (∀ n caps', k (sdrop n s) caps' = None) → star_lazy c s caps k = None.
Proof.
  induction s as [|a s IH]; intros Hk; cbn [star_lazy].
  - by rewrite (Hk 0).
  - rewrite (Hk 0). rewrite IH by (intros n caps'; apply (Hk (S n))).
    by destruct (cc_match c a).
Qed.

Lemma rmatch_fails r s caps (k : cont) :
  (∀ n caps', k (sdrop n s) caps' = None) → rmatch r s caps k = None.
Proof.
  revert s caps k. induction r as [l | c | c | r1 IH1 r2 IH2 | r1 IH1 r2 IH2 | r1 IH1 | g r1 IH1];
    intros s caps k Hk; cbn [rmatch].
  - destruct (startsWith l s); [apply Hk | done].
  - by apply star_greedy_fails.
  - by apply star_lazy_fails.
  - apply IH1. intros n caps'. apply IH2. intros m caps''. rewrite sdrop_sdrop. apply Hk.
  - rewrite IH1 by done. by apply IH2.
  - rewrite IH1 by done. apply (Hk 0).
  - apply IH1. intros n caps'. apply Hk.
Qed.

Lemma includes_false_sdrop s l n : includes s l = false → startsWith l (sdrop n s) = false.
Proof.
  revert s. induction n as [|n IH]; intros s H; cbn [sdrop].
  - by apply includes_false_head.
  - destruct s as [|c s]; [by apply includes_false_head |].
    apply IH. by eapply includes_false_tail.
Qed.

Lemma rmatch_needs l r s caps k :
  needs l r = true → includes s l = false → rmatch r s caps k = None.
Proof.
  intros Hn Hs. assert (∀ n, startsWith l (sdrop n s) = false) as H.
  { intros n. by apply includes_false_sdrop. }
  clear Hs. revert s caps k H Hn.
  induction r as [l' | c | c | r1 IH1 r2 IH2 | r1 IH1 r2 IH2 | r1 IH1 | g r1 IH1];
    intros s caps k H; cbn [needs rmatch]; try done.
  - intros <-%String.eqb_eq. pose proof (H 0) as H0. cbn [sdrop] in H0. by rewrite H0.
  - intros [Hn | Hn]%orb_true_iff; [by apply IH1 |].
    apply rmatch_fails. intros n caps'. apply IH2; [| done].
    intros m. rewrite sdrop_sdrop. apply H.
  - intros [Hn1 Hn2]%andb_true_iff. rewrite IH1 by done. by apply IH2.
  - intros Hn. by apply IH1.
Qed.

Lemma smatch_needs l r g s :
  needs l r = true → includes s l = false → smatch r g s = None.
Proof.
  intros Hn. induction s as [|c s IH]; intros Hs; cbn [smatch]; unfold exec_here.
  - by rewrite (rmatch_needs l).
  - rewrite (rmatch_needs l) by done. apply IH. by eapply includes_false_tail.
Qed.

(** X6: [extractAction] returns [null] for every text that lacks one of the
    literals that every match of its pattern goes through, such as
    [<action>] or the closing [</perform_action>]. *)
Theorem extractAction_requires text l :
  needs l performAction = true → includes text l = false → extractAction text = None.
Proof.
  intros Hn Hs. unfold extractAction. by rewrite (smatch_needs l).
Qed.

Lemma extractAction_requires_witness :
  extractAction "<perform_action><action>click</action><url>u</url>" = None.
Proof.
  exact (extractAction_requires "<perform_action><action>click</action><url>u</url>"
           "</perform_action>" eq_refl eq_refl).
Defined.


Lemma includes_plain s p : startsWith "<" p = true → plain s = true → includes s p = false.
Proof.
  intros Hp Hs. pose proof (indexOf_skip p s "" (absent_in_plain _ _ _ Hp Hs)) as H.
  rewrite append_nil_r in H. unfold includes. rewrite H.
  apply startsWith_lt in Hp as [p' ->]. done.
Qed.

Lemma open_includes pair lit body :
  pair ∈ tagPairs → plain body = true →
  lit ∈ ["<question>"; "<result>"; "<action>"; "<action_status>"] →
  includes (open pair +:+ body +:+ close pair) lit = false.
Proof.
  unfold tagPairs. intros Hp Hb Hl.
  assert (startsWith "<" lit = true) as Hlt.
  { repeat (apply elem_of_cons in Hl as [-> | Hl]); [done.. | by apply elem_of_nil in Hl]. }
  repeat (apply elem_of_cons in Hp as [-> | Hp]); [.. | by apply elem_of_nil in Hp];
    cbn [open close];
    (apply includes_app_false;
     [ repeat (apply elem_of_cons in Hl as [-> | Hl]); [reflexivity.. | by apply elem_of_nil in Hl]
     | apply includes_app_false; [by apply absent_in_plain |];
       repeat (apply elem_of_cons in Hl as [-> | Hl]); [reflexivity.. | by apply elem_of_nil in Hl] ]).
Qed.

Lemma processor_hollow pair body :
  pair ∈ tagPairs → plain body = true →
  processor pair (open pair +:+ body +:+ close pair) = Normal None.
Proof.
  intros Hp Hb. pose proof (fun lit => open_includes pair lit body Hp Hb) as Hi.
  unfold tagPairs in Hp.
  repeat (apply elem_of_cons in Hp as [-> | Hp]); [.. | by apply elem_of_nil in Hp];
    cbn [processor open close] in *.
  - unfold processFollowupQuestion.
    rewrite (smatch_needs "<question>"); [done | done | apply Hi; set_solver].
  - unfold processCompleteTaskMatch.
    rewrite (smatch_needs "<result>"); [done | done | apply Hi; set_solver].
  - unfold performActionMatch.
    rewrite (smatch_needs "<action>"); [done | done | apply Hi; set_solver].
  - unfold performActionResultMatch.
    rewrite (smatch_needs "<action_status>"); [done | done | apply Hi; set_solver].
Qed.

(** X5: a text that is one of the four opening tags, a body without [<] and the
    matching closing tag yields no part at all: the processor of the tag finds
    none of its fields, and the whole tag is dropped, text included. *)
Theorem parseMessage_hollow_tag pair body :
  pair ∈ tagPairs → plain body = true →
  parseMessage (open pair +:+ body +:+ close pair) = Some (Normal []).
Proof.
  intros Hp Hb. destruct (open_tagPairs _ Hp) as (Ho & Hlo & Hlc).
  assert (startsWith "<" (close pair) = true) as Hc.
  { clear -Hp. unfold tagPairs in Hp.
    repeat (apply elem_of_cons in Hp as [-> | Hp]); [done.. | by apply elem_of_nil in Hp]. }
  set (text := open pair +:+ body +:+ close pair).
  assert (String.length text
          = String.length (open pair) + String.length body + String.length (close pair)) as Hlen.
  { unfold text. rewrite !length_append. lia. }
  assert (earliest_is text pair 0) as He.
  { apply (earliest_is_after_plain "" pair (body +:+ close pair)); done. }
  assert (indexOfFrom (close pair) text (0 + String.length (open pair))
          = Some (String.length (open pair) + String.length body)) as Hci.
  { unfold indexOfFrom. rewrite Nat.min_l by lia. cbn [Nat.add]. unfold text.
    rewrite sdrop_app, indexOf_skip by by apply absent_in_plain.
    rewrite indexOf_here; [cbn; f_equal; lia |].
    rewrite <- (append_nil_r (close pair)) at 2. apply startsWith_app. }
  unfold parseMessage. rewrite (parse_loop_matched _ _ _ _ _ _ He Hci).
  assert (slice text 0 (String.length (open pair) + String.length body
                        + String.length (close pair)) = text) as ->.
  { unfold slice. cbn [sdrop]. apply stake_all. lia. }
  unfold text at 1. rewrite processor_hollow by done.
  assert (slice_from text (String.length (open pair) + String.length body
                           + String.length (close pair)) = "") as ->.
  { unfold slice_from. apply sdrop_all. lia. }
  rewrite Hlen. destruct (String.length (open pair)); [lia |]. done.
Qed.

Lemma parseMessage_hollow_tag_witness :
  parseMessage "<complete_task>All pages were visited.</complete_task>" = Some (Normal []).
Proof.
  refine (parseMessage_hollow_tag
            {| open := "<complete_task>"; close := "</complete_task>";
               processor := processCompleteTaskMatch |} "All pages were visited." _ eq_refl).
  unfold tagPairs. apply elem_of_cons. right. apply elem_of_cons. by left.
Defined.

(** *** [extractAction] inside running text *)

Lemma smatch_skip l r g pre s :
  absent_in l pre s = true →
  smatch (RSeq (RLit l) r) g (pre +:+ s) = smatch (RSeq (RLit l) r) g s.
Proof.
  induction pre as [|c pre IH]; [done |].
  cbn [absent_in]. intros [Hc Hs]%andb_true_iff. apply negb_true_iff in Hc.
  simpl String.append in *. cbn [smatch]. unfold exec_here at 1. cbn [rmatch].
  rewrite Hc. by apply IH.
Qed.

Ltac includes_tail :=
  repeat (apply includes_app_false; [absent_tac |]);
  apply includes_app_false; [reflexivity | by apply includes_plain].

Ltac optional_tail :=
  rewrite rmatch_seq; apply rmatch_opt_element;
  [assumption | assumption | intros _; includes_tail | cbv beta].

Lemma perform_rmatch_tail sep a u c t k ab mn post caps :
  plain sep = true → plain post = true → plain a = true →
  plain_opt u = true → plain_opt c = true → plain_opt t = true → plain_opt k = true →
  plain_opt ab = true → plain_opt mn = true →
  rmatch performAction (render sep (perform_action_tag a u c t k ab mn) +:+ post) caps accept
  = Some (post, set_group 7 mn (set_group 6 ab (set_group 5 k (set_group 4 t
            (set_group 3 c (set_group 2 u (<[1 := Some a]> caps))))))).
Proof.
  intros Hsep Hpost Ha Hu Hc Ht Hk Hab Hmn. unfold performAction. cbn [rseq render].
  rewrite !append_assoc.
  rewrite rmatch_seq, rmatch_lit, rmatch_seq, rmatch_lazy.
  rewrite (star_lazy_skip "<action>");
    [| apply guarded_lit_seq | by apply absent_in_plain].
  apply star_lazy_here.
  apply (rmatch_element_seq "action"); [done |].
  do 6 optional_tail.
  rewrite rmatch_seq, rmatch_lazy.
  rewrite (star_lazy_skip "</perform_action>");
    [| apply guarded_lit | by apply absent_in_plain].
  apply star_lazy_here. by rewrite rmatch_lit.
Qed.

(** X7: for a well-formed [perform_action] tag that stands between texts
    without [<], [extractAction] returns the action with the [url],
    [coordinate], [text] and [key] bodies as they stand in the tag; a field
    that is missing or empty is absent, and [about_this_action] and
    [marker_number] are not returned. *)
Theorem extractAction_embedded sep pre post a u c t k ab mn :
  plain sep = true → plain pre = true → plain post = true →
  well_formed (perform_action_tag a u c t k ab mn) = true →
  extractAction (pre +:+ render sep (perform_action_tag a u c t k ab mn) +:+ post)
  = Some {| action := a; url := present u; coordinate := present c;
            text := present t; key := present k |}.
Proof.
  intros Hsep Hpre Hpost Hwf. cbn [well_formed] in Hwf. plain_hyps.
  destruct (smatch_groups performAction 7
              (render sep (perform_action_tag a u c t k ab mn) +:+ post) post
              (set_group 7 mn (set_group 6 ab (set_group 5 k (set_group 4 t
                 (set_group 3 c (set_group 2 u (<[1 := Some a]> (replicate 8 None)))))))))
    as (m & Hm & Hg).
  { by apply perform_rmatch_tail. }
  unfold extractAction.
  assert (smatch performAction 7
            (pre +:+ render sep (perform_action_tag a u c t k ab mn) +:+ post)
          = Some m) as ->.
  { rewrite <- Hm. unfold performAction. cbn [rseq]. apply smatch_skip.
    by apply absent_in_plain. }
  rewrite !Hg, <- !spread_present.
  repeat f_equal; by destruct u, c, t, k, ab, mn.
Qed.

Lemma extractAction_embedded_witness :
  extractAction ("I will open the menu. "
                   +:+ render " " (perform_action_tag "click" None (Some "10,20") None None
                                     (Some "opens the menu") (Some "3"))
                   +:+ " Done.")
  = Some {| action := "click"; url := None; coordinate := Some "10,20";
            text := None; key := None |}.
Proof.
  exact (extractAction_embedded " " "I will open the menu. " " Done." "click" None
           (Some "10,20") None None (Some "opens the menu") (Some "3")
           eq_refl eq_refl eq_refl eq_refl).
Defined.

End ParserTheorems.

(** ** The queue after [handleQueueUpdate] *)

Module QueueFacts.
Import JS ExploreChat ExploreFacts ExploreRun.

Definition item_of (fullResponse url nodeId : string) (parent : option Parent.t)
    (elementId : string) (element : Element.t) : Item.t :=
  {| Item.text := Element.text element;
     Item.coordinates := Element.coordinates element;
     Item.aboutThisElement := or_else (Some (Element.aboutThisElement element)) "";
     Item.source := fullResponse;
     Item.url := url;
     Item.id := elementId;
     Item.nodeId := nodeId;
     Item.parent := {| Parent.url := or_else (Parent.url <$> parent) url;
                       Parent.nodeId := or_else (Parent.nodeId <$> parent) nodeId;
                       Parent.id := or_else (Parent.id <$> parent) elementId |} |}.

Fixpoint items_of (fullResponse url nodeId : string) (parent : option Parent.t)
    (ids : nat → string) (k : nat) (elems : list Element.t) : list Item.t :=
  match elems with
  | [] => []
  | e :: rest =>
      if admitted e then
        item_of fullResponse url nodeId parent (ids k) e
          :: items_of fullResponse url nodeId parent ids (S k) rest
      else items_of fullResponse url nodeId parent ids k rest
  end.

(** The whole effect of the loop of [handleQueueUpdate] when the URL has a
    queue. *)
Lemma handleQueueUpdate_loop_effect elems resp url nodeId parent st queue :
  exploreQueue st !! url = Some queue →
  ∃ st', handleQueueUpdate_loop elems resp url nodeId parent st = Normal st'
         ∧ exploreQueue st'
           = <[url := queue ++ items_of resp url nodeId parent (uuid_source st)
                                  (uuid_drawn st) elems]> (exploreQueue st)
         ∧ exploreGraphData st' = exploreGraphData st
         ∧ exploreRoute st' = exploreRoute st
         ∧ currentlyExploring st' = currentlyExploring st
         ∧ setItem_outcome st' = setItem_outcome st.
Proof.
  revert st queue. induction elems as [|e elems IH]; intros st queue Hq;
    cbn [handleQueueUpdate_loop items_of].
  - exists st. rewrite app_nil_r, insert_id by done. done.
  - unfold handleQueueUpdate_element. fold (admitted e). destruct (admitted e).
    + cbn [uuid exploreQueue]. rewrite Hq. cbn [bind].
      match goal with
      | |- ∃ st', handleQueueUpdate_loop _ _ _ _ _ ?s = _ ∧ _ =>
          eassert (exploreQueue s !! url = Some _) as Hs
            by (cbn [set_exploreQueue exploreQueue]; apply lookup_insert_eq);
          destruct (IH s _ Hs) as (st' & Hrun & Hq' & Hg & Hr & Hc & Ho)
      end.
      exists st'. split; [done |]. rewrite Hq'. cbn.
      rewrite insert_insert_eq, <- app_assoc. done.
    + cbn [bind]. by apply IH.
Qed.

(** The whole effect of [handleQueueUpdate] when the URL has a queue and the
    function returns. *)
Lemma handleQueueUpdate_effect elems resp url nodeId parent st queue st' :
  exploreQueue st !! url = Some queue →
  handleQueueUpdate elems resp url nodeId parent st = Normal st' →
  exploreQueue st'
  = <[url := queue ++ items_of resp url nodeId parent (uuid_source st)
                         (uuid_drawn st) elems]> (exploreQueue st)
  ∧ exploreGraphData st' = exploreGraphData st
  ∧ exploreRoute st' = exploreRoute st
  ∧ currentlyExploring st' = currentlyExploring st
  ∧ setItem_outcome st' = setItem_outcome st.
Proof.
  intros Hq (st1 & H1 & ->)%handleQueueUpdate_Normal.
  destruct (handleQueueUpdate_loop_effect elems resp url nodeId parent st queue Hq)
    as (st1' & H1' & H).
  rewrite H1 in H1'. injection H1' as <-. exact H.
Qed.

(** With a queue for the URL, [handleQueueUpdate] throws only when the store
    refuses the queue. *)
Lemma handleQueueUpdate_accepted elems resp url nodeId parent st queue :
  exploreQueue st !! url = Some queue → store_accepts st →
  ∃ st', handleQueueUpdate elems resp url nodeId parent st = Normal st'.
Proof.
  intros Hq Ha.
  destruct (handleQueueUpdate_loop_effect elems resp url nodeId parent st queue Hq)
    as (st1 & H1 & _ & _ & _ & _ & Ho).
  unfold handleQueueUpdate. rewrite H1. cbn [bind].
  rewrite localStorage_setItem_accepted; [by eexists |].
  intros n. rewrite Ho. apply Ha.
Qed.

(** [handleEdgeAndNodeCreation] throws only when the store refuses the
    graph. *)
Lemma handleEdgeAndNodeCreation_accepted normalize url img st :
  store_accepts st →
  ∃ nodeId st', handleEdgeAndNodeCreation normalize url img st = Normal (nodeId, st').
Proof.
  intros Ha. unfold handleEdgeAndNodeCreation.
  destruct (fst (createEdgeOrNode normalize (nodes (exploreGraphData st)) url)).
  - cbn [uuid]. unfold createConstructNode.
    rewrite localStorage_setItem_accepted by done. cbn [bind].
    cbn [currentlyExploring set_setItem_calls set_exploreGraphData].
    destruct (currentlyExploring st) as [c|]; [| by eexists _, _].
    unfold createEdge. rewrite localStorage_setItem_accepted by done. by eexists _, _.
  - match goal with
    | |- context [bind (if ?b then _ else _) _] => destruct b
    end; cbn [bind currentlyExploring set_exploreGraphData].
    + destruct (currentlyExploring st) as [c|]; [| by eexists _, _].
      unfold createEdge. rewrite localStorage_setItem_accepted by done. by eexists _, _.
    + destruct (currentlyExploring st) as [c|]; [| by eexists _, _].
      unfold createEdge. rewrite localStorage_setItem_accepted by done. by eexists _, _.
Qed.

(** What [handleEdgeAndNodeCreation] leaves of the store. *)
Lemma handleEdgeAndNodeCreation_store normalize url img st nodeId st' :
  handleEdgeAndNodeCreation normalize url img st = Normal (nodeId, st') →
  setItem_outcome st' = setItem_outcome st.
Proof.
  unfold handleEdgeAndNodeCreation.
  destruct (fst (createEdgeOrNode normalize (nodes (exploreGraphData st)) url)).
  - cbn [uuid]. unfold createConstructNode.
    destruct (localStorage_setItem "MAP" _) as [st1|] eqn:E1; [| done].
    apply localStorage_setItem_Normal in E1 as ->. cbn [bind].
    cbn [currentlyExploring set_setItem_calls set_exploreGraphData].
    destruct (currentlyExploring st) as [c|]; [| by intros [= _ <-]].
    unfold createEdge.
    destruct (localStorage_setItem "MAP" _) as [st2|] eqn:E2; [| done].
    apply localStorage_setItem_Normal in E2 as ->. by intros [= _ <-].
  - match goal with
    | |- context [bind (if ?b then _ else _) _] => destruct b
    end; cbn [bind currentlyExploring set_exploreGraphData].
    + destruct (currentlyExploring st) as [c|]; [| by intros [= _ <-]].
      unfold createEdge.
      destruct (localStorage_setItem "MAP" _) as [st2|] eqn:E2; [| done].
      apply localStorage_setItem_Normal in E2 as ->. by intros [= _ <-].
    + destruct (currentlyExploring st) as [c|]; [| by intros [= _ <-]].
      unfold createEdge.
      destruct (localStorage_setItem "MAP" _) as [st2|] eqn:E2; [| done].
      apply localStorage_setItem_Normal in E2 as ->. by intros [= _ <-].
Qed.

Lemma items_of_fields resp url nodeId parent ids k elems :
  Item.text <$> items_of resp url nodeId parent ids k elems
  = Element.text <$> List.filter admitted elems
  ∧ Item.coordinates <$> items_of resp url nodeId parent ids k elems
    = Element.coordinates <$> List.filter admitted elems
  ∧ Forall (fun item => Item.nodeId item = nodeId ∧ Item.url item = url)
      (items_of resp url nodeId parent ids k elems).
Proof.
  revert k. induction elems as [|e elems IH]; intros k; cbn [items_of List.filter].
  - by repeat split.
  - destruct (admitted e); [| apply IH].
    destruct (IH (S k)) as (Ht & Hc & Hn). cbn. rewrite Ht, Hc.
    repeat split. by constructor.
Qed.

End QueueFacts.

(** ** What every run of the exploration keeps *)

Module RunTheorems.
Import JS ExploreChat ExploreFacts ExploreRun QueueFacts.

Section Run.
Variable normalize : string → string.

Lemma fold_set_add_NoDup_acc l acc : NoDup acc → NoDup (fold_left set_add l acc).
Proof.
  revert acc. induction l as [|y l IH]; intros acc Hacc; cbn [fold_left]; [done |].
  apply IH. unfold set_add, set_has. case_bool_decide; [done |].
  apply NoDup_app. repeat split; [done | | apply NoDup_singleton].
  intros x Hx ->%list_elem_of_singleton. done.
Qed.

Lemma new_Set_distinct l : NoDup (new_Set l).
Proof. apply fold_set_add_NoDup_acc. constructor. Qed.

Lemma new_Set_elem_1 l x : x ∈ new_Set l → x ∈ l.
Proof. apply new_Set_elem. Qed.

Lemma set_add_elem_1 l y x : x ∈ set_add l y → x ∈ l ∨ x = y.
Proof. unfold set_add, set_has. case_bool_decide; set_solver. Qed.

Lemma set_add_NoDup l y : NoDup l → NoDup (set_add l y).
Proof.
  intros H. unfold set_add, set_has. case_bool_decide; [done |].
  apply NoDup_app. repeat split; [done | | apply NoDup_singleton].
  intros x Hx ->%list_elem_of_singleton. done.
Qed.

(** The four ways [processExploreOutput] can end. *)
Inductive turn_outcome (elems : list Element.t) (resp : string) (parent : option Parent.t)
    (url : option string) (img : option ImageData) (st : State)
  : option (option Element.t) → State → Prop :=
| turn_no_url :
    elems ≠ [] → url_missing url = true →
    turn_outcome elems resp parent url img st None st
| turn_no_elements :
    elems = [] →
    turn_outcome elems resp parent url img st (Some None)
      (set_exploreRoute (new_Set (exploreRoute st)) st)
| turn_visited u :
    elems ≠ [] → url = Some u → truthy u = true → u ∈ exploreRoute st →
    turn_outcome elems resp parent url img st (Some (head elems))
      (set_exploreRoute (new_Set (exploreRoute st)) st)
| turn_new u nodeId st1 st2 :
    elems ≠ [] → url = Some u → truthy u = true → u ∉ exploreRoute st →
    handleEdgeAndNodeCreation normalize u img
      (set_exploreQueue (<[u := []]> (exploreQueue st)) st) = Normal (nodeId, st1) →
    handleQueueUpdate elems resp u nodeId parent st1 = Normal st2 →
    exploreQueue st2
    = <[u := items_of resp u nodeId parent (uuid_source st1) (uuid_drawn st1) elems]>
        (<[u := []]> (exploreQueue st)) →
    exploreGraphData st2 = exploreGraphData st1 →
    currentlyExploring st2 = currentlyExploring st →
    setItem_outcome st2 = setItem_outcome st →
    turn_outcome elems resp parent url img st (Some (head elems))
      (set_exploreRoute (set_add (new_Set (exploreRoute st)) u) st2).

Lemma processExploreOutput_outcome elems resp parent url img st r st' :
  processExploreOutput normalize elems resp parent url img st = Normal (r, st') →
  turn_outcome elems resp parent url img st r st'.
Proof.
  unfold processExploreOutput, cleanCompletedQueue.
  destruct elems as [|e0 elems0].
  { cbn. intros [= <- <-]. by constructor. }
  set (elems := e0 :: elems0) in *.
  assert (elems ≠ []) as Hne by done.
  change (0 <? List.length elems)%nat with true. cbv iota.
  destruct url as [u|]; [| intros [= <- <-]; by constructor].
  destruct (truthy u) eqn:Hu; cbn [negb];
    [| intros [= <- <-]; constructor; [done | by cbn; rewrite Hu]].
  rewrite set_has_new_Set. case_bool_decide as Hin; cbn [negb].
  { intros [= <- <-]. by eapply turn_visited. }
  destruct (handleEdgeAndNodeCreation normalize u img _) as [[nodeId st1]|] eqn:E1; [| done].
  cbn [bind].
  destruct (handleEdgeAndNodeCreation_effect _ _ _ _ _ _ E1) as (_ & Hq1 & _ & Hc1 & _).
  pose proof (handleEdgeAndNodeCreation_store _ _ _ _ _ _ E1) as Ho1.
  cbn [set_exploreQueue exploreQueue currentlyExploring setItem_outcome] in Hq1, Hc1, Ho1.
  destruct (handleQueueUpdate elems resp u nodeId parent st1) as [st2|] eqn:E2; [| done].
  cbn [bind]. intros [= <- <-].
  destruct (handleQueueUpdate_effect elems resp u nodeId parent st1 [] st2)
    as (Hq2 & Hg2 & Hr2 & Hc2 & Ho2); [rewrite Hq1; apply lookup_insert_eq | done |].
  apply (turn_new elems resp parent (Some u) img st u nodeId st1 st2); try done.
  - by rewrite Hq2, Hq1.
  - by rewrite Hc2.
  - by rewrite Ho2.
Qed.

(** [processExploreOutput] returns when the store takes every value, and
    also when it has no reason to write to it. *)
Lemma processExploreOutput_returns elems resp parent url img st :
  store_accepts st ∨ elems = [] ∨ url_missing url = true
  ∨ (∃ u, url = Some u ∧ u ∈ exploreRoute st) →
  ∃ r st', processExploreOutput normalize elems resp parent url img st = Normal (r, st').
Proof.
  intros H. unfold processExploreOutput, cleanCompletedQueue.
  destruct elems as [|e0 elems0]; [cbn; by eexists _, _ |].
  set (elems := e0 :: elems0) in *.
  change (0 <? List.length elems)%nat with true. cbv iota.
  destruct url as [u|]; [| by eexists _, _].
  destruct (truthy u) eqn:Hu; cbn [negb]; [| by eexists _, _].
  rewrite set_has_new_Set. case_bool_decide as Hin; cbn [negb]; [by eexists _, _ |].
  destruct H as [Ha | [Hn | [Hm | (u' & [= <-] & Hu')]]]; [| done | | done].
  2:{ cbn in Hm. by rewrite Hu in Hm. }
  destruct (handleEdgeAndNodeCreation_accepted normalize u img
              (set_exploreQueue (<[u := []]> (exploreQueue st)) st)) as (nodeId & st1 & E1);
    [done |].
  rewrite E1. cbn [bind].
  destruct (handleEdgeAndNodeCreation_effect _ _ _ _ _ _ E1) as (_ & Hq1 & _).
  pose proof (handleEdgeAndNodeCreation_store _ _ _ _ _ _ E1) as Ho1.
  cbn [set_exploreQueue exploreQueue setItem_outcome] in Hq1, Ho1.
  destruct (handleQueueUpdate_accepted elems resp u nodeId parent st1 []) as [st2 E2].
  { rewrite Hq1. apply lookup_insert_eq. }
  { intros n. rewrite Ho1. apply Ha. }
  rewrite E2. cbn [bind]. by eexists _, _.
Qed.

Lemma turn_outcome_store elems resp parent url img st r st' :
  turn_outcome elems resp parent url img st r st' →
  setItem_outcome st' = setItem_outcome st.
Proof. by intros [ | | | ]. Qed.

(** The two ways [getNextToExplore] can end when it does not throw. *)
Lemma getNextToExplore_outcome st r st' :
  getNextToExplore st = Normal (r, st') →
  (r = None ∧ st' = st)
  ∨ ∃ route routes item queue,
      exploreRoute st = route :: routes ∧ truthy route = true
      ∧ exploreQueue st !! route = Some (item :: queue)
      ∧ r = Some item
      ∧ st' = set_currentlyExploring (Some (exploring_of (route, item)))
                (set_exploreQueue (<[route := queue]> (exploreQueue st)) st).
Proof.
  unfold getNextToExplore. destruct (exploreRoute st) as [|route routes] eqn:Er.
  { intros [= <- <-]. by left. }
  destruct (truthy route) eqn:Ht; [| intros [= <- <-]; by left].
  destruct (exploreQueue st !! route) as [[|item queue]|] eqn:Eq; [| | done].
  { intros [= <- <-]. by left. }
  intros [= <- <-]. right. by exists route, routes, item, queue.
Qed.

Lemma step_turn elems resp url img st st' :
  step normalize (Turn elems resp url img) st = Normal st' →
  ∃ r, turn_outcome elems resp (parent_of <$> currentlyExploring st) url img st r st'.
Proof.
  cbn [step]. unfold explore_turn.
  destruct (processExploreOutput normalize elems resp _ url img st) as [[r st1]|] eqn:E;
    [| done].
  cbn. intros [= <-]. exists r. by apply processExploreOutput_outcome.
Qed.

Lemma step_next st st' :
  step normalize Next st = Normal st' →
  ∃ r, getNextToExplore st = Normal (r, st').
Proof.
  cbn [step]. destruct (getNextToExplore st) as [[r st1]|]; [| done].
  cbn. intros [= <-]. by exists r.
Qed.

Lemma run_invariant (P : State → Prop) :
  (∀ op st st', P st → step normalize op st = Normal st' → P st') →
  ∀ ops st st', P st → run normalize ops st = Normal st' → P st'.
Proof.
  intros Hstep ops. induction ops as [|op ops IH]; intros st st' HP; cbn [run].
  - by intros [= <-].
  - destruct (step normalize op st) as [st1|] eqn:E; [| done]. cbn [bind].
    apply IH. by eapply Hstep.
Qed.

(** *** [processExploreOutput] throws only with the store *)

(** X8: given the elements and the answer of the current-URL query,
    [processExploreOutput] throws only when [localStorage.setItem] throws,
    which it calls only for a URL that was not visited before: it returns
    when the store takes every value, and also when there is no element, when
    the URL came back empty, and when the URL is among the visited routes;
    the queue it pushes to was created just before.  It then returns
    [undefined] exactly when there are elements and the URL came back empty,
    and otherwise the first element, [null] when there is none. *)
Theorem processExploreOutput_throws_with_store elems resp parent url img st :
  store_accepts st ∨ elems = [] ∨ url_missing url = true
  ∨ (∃ u, url = Some u ∧ u ∈ exploreRoute st) →
  ∃ r st',
    processExploreOutput normalize elems resp parent url img st = Normal (r, st')
    ∧ (r = None ↔ elems ≠ [] ∧ url_missing url = true)
    ∧ (∀ first, r = Some first → first = head elems).
Proof.
  intros Hs.
  destruct (processExploreOutput_returns elems resp parent url img st Hs) as (r & st' & E).
  exists r, st'. split; [done |]. apply processExploreOutput_outcome in E as H.
  destruct H as [Hne Hu | -> | u Hne -> Ht Hin | u nodeId st1 st2 Hne -> Ht Hnew _ _ _ _ _ _].
  - split; [done |]. by intros first.
  - split; [split; [done | by intros [? _]] |]. by intros first [= <-].
  - split; [| by intros first [= <-]].
    split; [done |]. intros [_ Hm]. cbn in Hm. by rewrite Ht in Hm.
  - split; [| by intros first [= <-]].
    split; [done |]. intros [_ Hm]. cbn in Hm. by rewrite Ht in Hm.
Qed.

(** *** Consistency *)

Lemma turn_consistent elems resp parent url img st r st' :
  consistent st → turn_outcome elems resp parent url img st r st' → consistent st'.
Proof.
  intros Hc H. pose proof Hc as [Hnd Hq].
  destruct H as [ | | u | u nodeId st1 st2 _ _ _ Hnew H1 H2 Hq2 Hg2 Hc2 Ho2].
  - done.
  - split; cbn; [apply new_Set_distinct |]. intros route Hr%new_Set_elem_1. by apply Hq.
  - split; cbn; [apply new_Set_distinct |]. intros route Hr%new_Set_elem_1. by apply Hq.
  - split; cbn [set_exploreRoute exploreRoute exploreQueue].
    + apply set_add_NoDup, new_Set_distinct.
    + intros route [Hr%new_Set_elem_1 | ->]%set_add_elem_1; rewrite Hq2.
      * destruct (decide (route = u)) as [-> | Hne]; [by rewrite lookup_insert_eq |].
        rewrite !lookup_insert_ne by done. by apply Hq.
      * by rewrite lookup_insert_eq.
Qed.

(** With a queue for every visited route, [getNextToExplore] returns. *)
Lemma getNextToExplore_consistent st :
  consistent st →
  ∃ r st', getNextToExplore st = Normal (r, st') ∧ consistent st'
           ∧ setItem_outcome st' = setItem_outcome st.
Proof.
  intros Hc. pose proof Hc as [Hnd Hq]. unfold getNextToExplore.
  destruct (exploreRoute st) as [|route routes] eqn:Er; [by exists None, st |].
  destruct (truthy route); [| by exists None, st].
  destruct (Hq route) as [[|item queue] Hl]; [rewrite ?Er; by left | |]; rewrite Hl.
  { by exists None, st. }
  cbn. eexists _, _. split; [done |]. split; [| done]. split; cbn; [by rewrite ?Er |].
  intros r Hr. destruct (decide (r = route)) as [-> | Hne].
  + by rewrite lookup_insert_eq.
  + rewrite lookup_insert_ne by done. apply Hq. by rewrite ?Er in *.
Qed.

Lemma step_consistent op st :
  consistent st → store_accepts st →
  ∃ st', step normalize op st = Normal st' ∧ consistent st' ∧ store_accepts st'.
Proof.
  intros Hc Ha. destruct op as [elems resp url img|].
  - cbn [step]. unfold explore_turn.
    destruct (processExploreOutput_returns elems resp (parent_of <$> currentlyExploring st)
                url img st) as (r & st' & E); [by left |].
    rewrite E. cbn [bind snd]. exists st'. split; [done |].
    apply processExploreOutput_outcome in E. split; [by eapply turn_consistent |].
    intros n. rewrite (turn_outcome_store _ _ _ _ _ _ _ _ E). apply Ha.
  - cbn [step]. destruct (getNextToExplore_consistent st Hc) as (r & st' & -> & Hc' & Ho).
    cbn [bind snd]. exists st'. split; [done |]. split; [done |].
    intros n. rewrite Ho. apply Ha.
Qed.

(** X9: from refs whose visited routes are distinct and all have a queue, any
    sequence of turns ([processExploreOutput]) and of calls of
    [getNextToExplore] runs without throwing, as long as the store takes every
    value, and ends in such refs again: [getNextToExplore] never shifts the
    queue of a route that has none, and the only throw of a turn is that of
    [localStorage.setItem]. *)
Theorem run_consistent ops st :
  consistent st → store_accepts st →
  ∃ st', run normalize ops st = Normal st' ∧ consistent st' ∧ store_accepts st'.
Proof.
  revert st. induction ops as [|op ops IH]; intros st Hc Ha; cbn [run].
  - by exists st.
  - destruct (step_consistent op st Hc Ha) as (st1 & -> & Hc1 & Ha1). cbn [bind].
    by apply IH.
Qed.

(** *** The graph *)

Lemma node_ids_link (c : option Exploring.t) (l : list Node.t) :
  Node.id <$> (match c with
               | Some c => with_edge (Exploring.nodeId c) (Exploring.id c) <$> l
               | None => l
               end) = Node.id <$> l.
Proof.
  destruct c as [c|]; [| done]. rewrite <- list_fmap_compose.
  apply list_fmap_ext. intros _ n _. apply with_edge_id.
Qed.

(** What [handleEdgeAndNodeCreation] does to the identifiers of the nodes. *)
Lemma handleEdgeAndNodeCreation_ids url img st nodeId st' :
  handleEdgeAndNodeCreation normalize url img st = Normal (nodeId, st') →
  nodeId ∈ node_ids st' ∧ ∀ x, x ∈ node_ids st → x ∈ node_ids st'.
Proof.
  intros H. destruct (handleEdgeAndNodeCreation_effect _ _ _ _ _ _ H)
    as (_ & _ & _ & _ & [(Ef & Hid & Hn) | (n & Ef & Hid & Hn)]);
    unfold node_ids; rewrite Hn, node_ids_link.
  - rewrite fmap_app. cbn. set_solver.
  - split; [| done]. subst nodeId. apply list_elem_of_fmap_2.
    apply list_elem_of_In. by apply find_some in Ef as [? _].
Qed.

Lemma step_anchored op st st' :
  anchored st → step normalize op st = Normal st' → anchored st'.
Proof.
  intros (He & Hq & Hc). destruct op as [elems resp url img|].
  - intros [r H]%step_turn.
    destruct H as [ | | u | u nodeId st1 st2 _ _ _ Hnew H1 H2 Hq2 Hg2 Hc2 Ho2]; try done.
    destruct (handleEdgeAndNodeCreation_ids _ _ _ _ _ H1) as [Hid Hsub].
    destruct (handleEdgeAndNodeCreation_effect _ _ _ _ _ _ H1) as (Hed & _ & _ & Hc1 & _).
    cbn [set_exploreQueue exploreGraphData currentlyExploring] in Hed, Hc1.
    unfold anchored, node_ids in *.
    cbn [set_exploreRoute exploreGraphData exploreQueue currentlyExploring].
    rewrite Hg2, Hc2, Hq2. repeat split.
    + apply list_elem_of_fmap_2 with (f := Edge.source) in H. revert H.
      rewrite Hed, fmap_app. intros [H | H]%elem_of_app.
      * apply Hsub. apply list_elem_of_fmap in H as (e' & -> & H'). by apply He.
      * destruct (currentlyExploring st) as [c|] eqn:Ec; [| by apply elem_of_nil in H].
        apply list_elem_of_singleton in H. rewrite H. cbn. apply Hsub. by apply Hc.
    + apply list_elem_of_fmap_2 with (f := Edge.target) in H. revert H.
      rewrite Hed, fmap_app. intros [H | H]%elem_of_app.
      * apply Hsub. apply list_elem_of_fmap in H as (e' & -> & H'). by apply He.
      * destruct (currentlyExploring st) as [c|] eqn:Ec; [| by apply elem_of_nil in H].
        apply list_elem_of_singleton in H. by rewrite H.
    + intros route items item Hl Hin.
      destruct (decide (route = u)) as [-> | Hne].
      * rewrite lookup_insert_eq in Hl. injection Hl as <-.
        destruct (items_of_fields resp u nodeId (parent_of <$> currentlyExploring st)
                    (uuid_source st1) (uuid_drawn st1) elems) as (_ & _ & Hf).
        rewrite Forall_forall in Hf. destruct (Hf _ Hin) as [-> _]. done.
      * rewrite !lookup_insert_ne in Hl by done. apply Hsub. by eapply Hq.
    + intros c Hcc. apply Hsub. by apply Hc.
  - intros [r H]%step_next. apply getNextToExplore_outcome in H
      as [[_ ->] | (route & routes & item & queue & Hr & Ht & Hl & _ & ->)]; [done |].
    unfold anchored, node_ids in *.
    cbn [set_currentlyExploring set_exploreQueue exploreGraphData exploreQueue
           currentlyExploring].
    repeat split; try (by apply He).
    + intros route' items item' Hl' Hin.
      destruct (decide (route' = route)) as [-> | Hne].
      * rewrite lookup_insert_eq in Hl'. injection Hl' as <-.
        eapply Hq; [done |]. by right.
      * rewrite lookup_insert_ne in Hl' by done. by eapply Hq.
    + intros c [= <-]. cbn. eapply Hq; [done |]. by left.
Qed.

(** X10: no run of turns and of calls of [getNextToExplore] leaves a dangling
    reference: when both ends of every edge, the [nodeId] of every queued item
    and the [nodeId] of the item being explored are nodes of the graph before
    the run, they are after it. *)
Theorem run_anchored ops st st' :
  anchored st → run normalize ops st = Normal st' → anchored st'.
Proof. apply run_invariant, step_anchored. Qed.

End Run.

Lemma processExploreOutput_throws_with_store_witness :
  ∃ r st',
    processExploreOutput id [Scenario.element "Login" "10,10"] "first" None
      (Some "https://x/a") None Scenario.initial = Normal (r, st')
    ∧ (r = None
       ↔ [Scenario.element "Login" "10,10"] ≠ [] ∧ url_missing (Some "https://x/a") = true)
    ∧ (∀ first, r = Some first → first = head [Scenario.element "Login" "10,10"]).
Proof.
  apply (processExploreOutput_throws_with_store id [Scenario.element "Login" "10,10"]
           "first" None (Some "https://x/a") None Scenario.initial).
  left. intros n. reflexivity.
Defined.

Lemma run_consistent_witness :
  ∃ st', run id tour Scenario.initial = Normal st' ∧ consistent st' ∧ store_accepts st'.
Proof.
  apply (run_consistent id tour Scenario.initial).
  - split; [constructor |]. intros route H. by apply elem_of_nil in H.
  - intros n. reflexivity.
Defined.

Lemma run_anchored_witness : anchored Scenario.exploring_about.
Proof.
  apply (run_anchored id tour Scenario.initial Scenario.exploring_about).
  - split; [| split].
    + intros e H. by apply elem_of_nil in H.
    + intros route items item H. cbn [Scenario.initial exploreQueue] in H.
      by rewrite lookup_empty in H.
    + intros c H. discriminate H.
  - vm_compute. reflexivity.
Defined.

End RunTheorems.

(** ** The graph and the queue along a run *)

Module GraphTheorems.
Import JS ExploreChat ExploreFacts ExploreRun QueueFacts RunTheorems.

Section Run.
Variable normalize : string → string.

Lemma elem_of_link (c : option Exploring.t) (l : list Node.t) node :
  node ∈ (match c with
          | Some c => with_edge (Exploring.nodeId c) (Exploring.id c) <$> l
          | None => l
          end) →
  ∃ n, n ∈ l ∧ Node.id node = Node.id n
       ∧ ∀ h, h ∈ Node.edges node →
              h ∈ Node.edges n
              ∨ ∃ c', c = Some c' ∧ h = Exploring.id c' ∧ Node.id n = Exploring.nodeId c'.
Proof.
  destruct c as [c|].
  - intros (n & -> & Hn)%list_elem_of_fmap. exists n. split; [done |].
    split; [apply with_edge_id |]. unfold with_edge.
    destruct (String.eqb_spec (Node.id n) (Exploring.nodeId c)) as [Heq | Hne]; cbn.
    + intros h [Hh | ->%list_elem_of_singleton]%elem_of_app; [by left |].
      right. by exists c.
    + intros h Hh. by left.
  - intros Hn. exists node. repeat split; [done |]. intros h Hh. by left.
Qed.

Lemma step_handles_backed op st st' :
  handles_backed st → step normalize op st = Normal st' → handles_backed st'.
Proof.
  intros Hb. destruct op as [elems resp url img|].
  - intros [r H]%step_turn.
    destruct H as [ | | u | u nodeId st1 st2 _ _ _ Hnew H1 H2 Hq2 Hg2 Hc2 Ho2]; try done.
    destruct (handleEdgeAndNodeCreation_effect _ _ _ _ _ _ H1) as (Hed & _ & _ & _ & Hn).
    cbn [set_exploreQueue exploreGraphData currentlyExploring] in Hed, Hn.
    unfold handles_backed in *. cbn [set_exploreRoute exploreGraphData]. rewrite Hg2, Hed.
    intros node h Hnode Hh.
    assert (∃ n, (n ∈ nodes (exploreGraphData st) ∨ Node.edges n = [])
                 ∧ Node.id node = Node.id n
                 ∧ (h ∈ Node.edges n
                    ∨ ∃ c', currentlyExploring st = Some c' ∧ h = Exploring.id c'
                            ∧ Node.id n = Exploring.nodeId c')) as (n & Hin & Hid & Hcase).
    { destruct Hn as [(_ & _ & Hn) | (n0 & _ & _ & Hn)]; rewrite Hn in Hnode;
        apply elem_of_link in Hnode as (n & Hin & Hid & Hedges); exists n;
        (split; [| split; [done | by apply Hedges]]).
      - apply elem_of_app in Hin as [Hin | ->%list_elem_of_singleton]; [by left | by right].
      - by left. }
    destruct Hcase as [Hold | (c' & Hc' & -> & Hsrc)].
    + destruct Hin as [Hin | Hnil]; [| rewrite Hnil in Hold; by apply elem_of_nil in Hold].
      destruct (Hb n h Hin Hold) as (e & He & Hh' & Hs).
      exists e. rewrite Hid. split; [apply elem_of_app; by left | done].
    + rewrite Hc'. exists (edge_of c' nodeId). split; [apply elem_of_app; right; by left |].
      cbn. by rewrite Hid, Hsrc.
  - intros [r H]%step_next. apply getNextToExplore_outcome in H
      as [[_ ->] | (route & routes & item & queue & Hr & Ht & Hl & _ & ->)]; done.
Qed.

(** X11: along any run, every handle that a node lists in [data.edges]
    ([PageNode] renders one source [Handle] for each) is the [sourceHandle] of
    an edge that leaves that node. *)
Theorem run_handles_backed ops st st' :
  handles_backed st → run normalize ops st = Normal st' → handles_backed st'.
Proof. apply run_invariant, step_handles_backed. Qed.

Lemma lookup_link (c : option Exploring.t) (l : list Node.t) k node :
  (match c with
   | Some c => with_edge (Exploring.nodeId c) (Exploring.id c) <$> l
   | None => l
   end) !! k = Some node →
  ∃ n, l !! k = Some n ∧ Node.position node = Node.position n.
Proof.
  destruct c as [c|]; [| by exists node].
  rewrite list_lookup_fmap. destruct (l !! k) as [n|]; [| done].
  cbn. intros [= <-]. exists n. split; [done |]. unfold with_edge.
  by destruct (String.eqb _ _).
Qed.

Lemma step_laid_out op st st' :
  laid_out st → step normalize op st = Normal st' → laid_out st'.
Proof.
  intros Hl. destruct op as [elems resp url img|].
  - intros [r H]%step_turn.
    destruct H as [ | | u | u nodeId st1 st2 _ _ _ Hnew H1 H2 Hq2 Hg2 Hc2 Ho2]; try done.
    destruct (handleEdgeAndNodeCreation_effect _ _ _ _ _ _ H1) as (_ & _ & _ & _ & Hn).
    cbn [set_exploreQueue exploreGraphData currentlyExploring] in Hn.
    unfold laid_out in *. cbn [set_exploreRoute exploreGraphData]. rewrite Hg2.
    intros k node Hk.
    destruct Hn as [(_ & _ & Hn) | (n0 & _ & _ & Hn)]; rewrite Hn in Hk;
      apply lookup_link in Hk as (n & Hk & ->); [| by apply Hl].
    destruct (decide (k < List.length (nodes (exploreGraphData st)))) as [Hlt | Hge].
    + rewrite lookup_app_l in Hk by done. by apply Hl.
    + rewrite lookup_app_r in Hk by lia.
      destruct (k - List.length (nodes (exploreGraphData st))) as [|j] eqn:Ej; [| done].
      injection Hk as <-. cbn. f_equal.
      assert (k = List.length (nodes (exploreGraphData st))) as -> by lia. done.
  - intros [r H]%step_next. apply getNextToExplore_outcome in H
      as [[_ ->] | (route & routes & item & queue & Hr & Ht & Hq & _ & ->)]; done.
Qed.

(** X12: along any run the nodes keep their layout: the node number [k] of the
    graph, in the order of creation and counted from 0, stands at [x = 200],
    [y = 100 * k]. *)
Theorem run_laid_out ops st st' :
  laid_out st → run normalize ops st = Normal st' → laid_out st'.
Proof. apply run_invariant, step_laid_out. Qed.

(** *** The queue of the first page is first in, first out *)

Lemma drain_queue fuel st route routes items :
  exploreRoute st = route :: routes → truthy route = true →
  exploreQueue st !! route = Some items → List.length items < fuel →
  ∃ st', drain fuel st = Normal (items, st')
         ∧ exploreQueue st' !! route = Some []
         ∧ exploreRoute st' = exploreRoute st.
Proof.
  revert st items. induction fuel as [|fuel IH]; intros st items Hr Ht Hq Hf; [lia |].
  cbn [drain]. unfold getNextToExplore. rewrite Hr, Ht, Hq.
  destruct items as [|item items]; cbn [bind fst snd].
  - exists st. by rewrite Hr.
  - match goal with
    | |- ∃ st', bind (drain _ ?s) _ = _ ∧ _ =>
        destruct (IH s items) as (st' & Hd & Hq' & Hr');
          [done | done | apply lookup_insert_eq | cbn in Hf; lia |]
    end.
    rewrite Hd. cbn [bind fst snd]. exists st'. split; [done |]. split; [done |].
    by rewrite Hr'.
Qed.

(** X13: when the first page is discovered (no route was visited before),
    calling [getNextToExplore] again and again hands out exactly the elements
    that have a text and coordinates, in the order they were listed, and
    leaves the queue of the page empty. *)
Theorem first_page_fifo elems resp url img st first st1 :
  exploreRoute st = [] →
  explore_turn normalize elems resp (Some url) img st = Normal (Some (Some first), st1) →
  ∃ items st2,
    drain (S (List.length elems)) st1 = Normal (items, st2)
    ∧ Item.text <$> items = Element.text <$> List.filter admitted elems
    ∧ Item.coordinates <$> items = Element.coordinates <$> List.filter admitted elems
    ∧ exploreQueue st2 !! url = Some [].
Proof.
  intros Hr. unfold explore_turn. intros H%processExploreOutput_outcome.
  inversion H
    as [ | Hnil | u Hne Hu Ht Hin | u nodeId st1' st2 Hne Hu Ht Hnew H1 H2 Hq2 Hg2 Hc2 Ho2];
    subst.
  - rewrite Hr in Hin. by apply elem_of_nil in Hin.
  - match goal with Hu : Some _ = Some _ |- _ => injection Hu as <- end.
    destruct (items_of_fields resp url nodeId (parent_of <$> currentlyExploring st)
                (uuid_source st1') (uuid_drawn st1') elems) as (Htext & Hcoord & _).
    set (items := items_of _ _ _ _ _ _ _) in *.
    destruct (drain_queue (S (List.length elems))
                (set_exploreRoute (set_add (new_Set (exploreRoute st)) url) st2)
                url [] items) as (st3 & Hd & Hq3 & _).
    + cbn. by rewrite Hr.
    + done.
    + cbn. rewrite Hq2. apply lookup_insert_eq.
    + apply (f_equal List.length) in Htext. rewrite !length_fmap in Htext.
      rewrite Htext. pose proof (List.filter_length_le admitted elems). lia.
    + by exists items, st3.
Qed.

End Run.

Lemma run_handles_backed_witness : handles_backed Scenario.exploring_about.
Proof.
  apply (run_handles_backed id tour Scenario.initial Scenario.exploring_about).
  - intros node h H. by apply elem_of_nil in H.
  - vm_compute. reflexivity.
Defined.

Lemma run_laid_out_witness : laid_out Scenario.exploring_about.
Proof.
  apply (run_laid_out id tour Scenario.initial Scenario.exploring_about).
  - intros k node H. discriminate H.
  - vm_compute. reflexivity.
Defined.

Lemma first_page_fifo_witness :
  ∃ items st2,
    drain 4 (Scenario.state_of
               (explore_turn id
                  [Scenario.element "Login" "10,10"; Scenario.element "Logo" "";
                   Scenario.element "About" "20,20"]
                  "first" (Some "https://x/a") None Scenario.initial))
    = Normal (items, st2)
    ∧ Item.text <$> items = ["Login"; "About"]
    ∧ Item.coordinates <$> items = ["10,10"; "20,20"]
    ∧ exploreQueue st2 !! "https://x/a" = Some [].
Proof.
  apply (first_page_fifo id
           [Scenario.element "Login" "10,10"; Scenario.element "Logo" "";
            Scenario.element "About" "20,20"]
           "first" "https://x/a" None Scenario.initial
           (Scenario.element "Login" "10,10")).
  - reflexivity.
  - vm_compute. reflexivity.
Defined.

End GraphTheorems.

(** ** The callbacks of the hook *)

Module HookTheorems.
Import JS JSFacts ExploreChat ExploreFacts ExploreRun QueueFacts RunTheorems ExploreHook.

(** *** [addMessage] *)

Lemma same_message_key msg newMessage :
  same_message msg newMessage = true ↔ message_key msg = message_key newMessage.
Proof.
  unfold same_message, message_key. rewrite !andb_true_iff, String.eqb_eq, Bool.eqb_true_iff,
    N.eqb_eq. split; [by intros [[-> ->] ->] | by intros [= -> -> ->]].
Qed.

Lemma existsb_same_message newMessage prev :
  existsb (fun msg => same_message msg newMessage) prev = true
  ↔ message_key newMessage ∈ message_key <$> prev.
Proof.
  rewrite existsb_exists, list_elem_of_fmap. split.
  - intros (msg & Hin%list_elem_of_In & Hs). exists msg.
    split; [| done]. symmetry. by apply (proj1 (same_message_key _ _)).
  - intros (msg & Hk & Hin%list_elem_of_In). exists msg. split; [done |].
    by apply (proj2 (same_message_key _ _)).
Qed.

(** X14: [addMessage] is idempotent: adding a message twice gives what adding it
    once gives.  It appends at most one message, at the end, and messages that
    differ pairwise in text, author or time still do afterwards. *)
Theorem addMessage_once newMessage prev :
  addMessage newMessage (addMessage newMessage prev) = addMessage newMessage prev
  ∧ (NoDup (message_key <$> prev) → NoDup (message_key <$> addMessage newMessage prev))
  ∧ (∃ rest, addMessage newMessage prev = prev ++ rest ∧ List.length rest ≤ 1).
Proof.
  assert (same_message newMessage newMessage = true) as Hrefl
    by (by apply (proj2 (same_message_key _ _))).
  destruct (existsb (fun msg => same_message msg newMessage) prev) eqn:E.
  - assert (addMessage newMessage prev = prev) as Hsame by (unfold addMessage; by rewrite E).
    rewrite !Hsame. repeat split; [done |]. exists [].
    split; [by rewrite app_nil_r | cbn; lia].
  - assert (addMessage newMessage prev = prev ++ [newMessage]) as Hadd
      by (unfold addMessage; by rewrite E).
    rewrite !Hadd. repeat split.
    + unfold addMessage. rewrite existsb_app. cbn. by rewrite Hrefl, orb_true_r.
    + intros Hnd. rewrite fmap_app. apply NoDup_app.
      repeat split; [done | | apply NoDup_singleton].
      intros k Hk ->%list_elem_of_singleton.
      apply existsb_same_message in Hk. congruence.
    + exists [newMessage]. split; [done | cbn; lia].
Qed.

(** *** Late callbacks *)

(** X15: after [stopStreaming], called while the chat streams, the turn is over
    and its late callbacks do nothing: [isProcessing] is false, no message is
    active, and a chunk, an error or a completion that still arrives, for any
    message id, leaves the hook as it is. *)
Theorem stopStreaming_silences normalize now sent messageId chunk fullResponse imageData
    processed elems url h :
  isChatStreaming (refs h) = true →
  isProcessing (refs (stopStreaming h)) = false
  ∧ activeMessageId (refs (stopStreaming h)) = None
  ∧ handleMessageChunk now messageId chunk fullResponse (stopStreaming h) = stopStreaming h
  ∧ handleError now messageId (stopStreaming h) = stopStreaming h
  ∧ handleMessageCompletion normalize now sent messageId fullResponse imageData processed
      elems url (stopStreaming h) = Normal (stopStreaming h).
Proof.
  intros Hs.
  assert (activeMessageId (refs (stopStreaming h)) = None
          ∧ isProcessing (refs (stopStreaming h)) = false) as [Ha Hp].
  { unfold stopStreaming. rewrite Hs. cbn. by destruct (existsb isPartial _). }
  assert (is_active messageId (stopStreaming h) = false) as Hi.
  { unfold is_active. rewrite Ha. by apply bool_decide_eq_false_2. }
  repeat split; try done.
  - unfold handleMessageChunk. rewrite Hi. by rewrite orb_true_r.
  - unfold handleError. by rewrite Hi.
  - unfold handleMessageCompletion, handleMessageCompletion_begin. by rewrite Hi.
Qed.

(** *** A completed turn starts one new turn or ends the streaming *)

Lemma handleExploreMessage_starts sent msg type img st :
  isProcessing st = false →
  isProcessing (handleExploreMessage sent msg type img st) = true
  ∧ isChatStreaming (handleExploreMessage sent msg type img st) = true
  ∧ (∃ request, requests (handleExploreMessage sent msg type img st)
                = requests st ++ [request])
  ∧ exploreRoute (handleExploreMessage sent msg type img st) = exploreRoute st
  ∧ exploreQueue (handleExploreMessage sent msg type img st) = exploreQueue st.
Proof.
  intros Hp. unfold handleExploreMessage. rewrite Hp. cbn. repeat split. by eexists.
Qed.

Lemma set_isProcessing_consistent b st : consistent st → consistent (set_isProcessing b st).
Proof. done. Qed.

Lemma started_turn sent msg type img st requests0 :
  consistent st → requests st = requests0 → isProcessing st = false →
  consistent (handleExploreMessage sent msg type img st)
  ∧ ((isProcessing (handleExploreMessage sent msg type img st) = true
      ∧ isChatStreaming (handleExploreMessage sent msg type img st) = true
      ∧ ∃ request, requests (handleExploreMessage sent msg type img st)
                   = requests0 ++ [request])
     ∨ (isProcessing (handleExploreMessage sent msg type img st) = false
        ∧ isChatStreaming (handleExploreMessage sent msg type img st) = false
        ∧ requests (handleExploreMessage sent msg type img st) = requests0)).
Proof.
  intros [Hnd Hq] <- Hp.
  destruct (handleExploreMessage_starts sent msg type img st Hp)
    as (H1 & H2 & [req H3] & H4 & H5).
  split; [split; [by rewrite H4 | intros route; rewrite H4, H5; apply Hq] |].
  left. repeat split; [done | done |]. by exists req.
Qed.

Lemma onGettingExploredMode_settles now sent imageData h :
  consistent (refs h) →
  ∃ h', onGettingExploredMode now sent imageData h = Normal h'
        ∧ consistent (refs h')
        ∧ ((isProcessing (refs h') = true ∧ isChatStreaming (refs h') = true
            ∧ ∃ request, requests (refs h') = requests (refs h) ++ [request])
           ∨ (isProcessing (refs h') = false ∧ isChatStreaming (refs h') = false
              ∧ requests (refs h') = requests (refs h))).
Proof.
  intros Hc. unfold onGettingExploredMode.
  destruct (getNextToExplore_consistent (refs h) Hc) as (next & st2 & En & Hc2 & _).
  rewrite En. cbn [bind fst snd].
  assert (requests st2 = requests (refs h)) as Hr2.
  { apply getNextToExplore_outcome in En
      as [[_ ->] | (route & routes & item & queue & _ & _ & _ & _ & ->)]; done. }
  destruct next as [item|].
  - eexists. split; [done |]. cbn [refs set_refs setMessages setType].
    eapply started_turn; [by apply set_isProcessing_consistent | | done].
    cbn. congruence.
  - eexists. split; [done |]. cbn. split; [done |]. right. repeat split. congruence.
Qed.

(** X16: whenever [handleMessageCompletion] gets past its two awaits, whatever
    ran in the meantime, on refs whose visited routes are distinct and have
    queues, the rest of the handler does not throw and ends in one of two
    ways: exactly one new turn was sent, and [isProcessing] and
    [isChatStreaming] are set; or no turn was sent and both are cleared.  (A
    handler whose awaited calls reject does not get there, and leaves the
    guard as it was.) *)
Theorem handleMessageCompletion_resume_settles now sent fullResponse imageData
    processedResponse exploredOutput h :
  consistent (refs h) →
  ∃ h',
    handleMessageCompletion_resume now sent fullResponse imageData processedResponse
      exploredOutput h = Normal h'
    ∧ consistent (refs h')
    ∧ ((isProcessing (refs h') = true ∧ isChatStreaming (refs h') = true
        ∧ ∃ request, requests (refs h') = requests (refs h) ++ [request])
       ∨ (isProcessing (refs h') = false ∧ isChatStreaming (refs h') = false
          ∧ requests (refs h') = requests (refs h))).
Proof.
  intros Hc. unfold handleMessageCompletion_resume.
  destruct (omniParserResult processedResponse) as [o|];
    destruct (truthy_opt (actionResult processedResponse));
    destruct (includes fullResponse "<complete_task>"); cbn [orb];
    try (eexists; split; [done |];
         cbn [refs set_refs setMessages setType setLatestOmniParserResult];
         eapply started_turn; [by apply set_isProcessing_consistent | | done];
         cbn; congruence);
    (destruct exploredOutput as [[e|]|]; [by apply onGettingExploredMode_settles | |];
     (eexists; split; [done |]; cbn; split; [done |]; right; repeat split; congruence)).
Qed.

Lemma addMessage_once_witness :
  NoDup (message_key
           <$> addMessage {| msg_text := "Two links."; timestamp := 2001; isUser := false;
                             isPartial := false; isHistory := false |}
                 [ {| msg_text := "Explore the site"; timestamp := 1000; isUser := true;
                      isPartial := false; isHistory := true |} ]).
Proof.
  apply (proj1 (proj2 (addMessage_once
                         {| msg_text := "Two links."; timestamp := 2001; isUser := false;
                            isPartial := false; isHistory := false |}
                         [ {| msg_text := "Explore the site"; timestamp := 1000;
                              isUser := true; isPartial := false; isHistory := true |} ]))).
  apply NoDup_singleton.
Defined.

Lemma stopStreaming_silences_witness :
  isProcessing (refs (stopStreaming streaming)) = false
  ∧ activeMessageId (refs (stopStreaming streaming)) = None
  ∧ handleMessageChunk 2000 "msg_1000" "late" "late" (stopStreaming streaming)
    = stopStreaming streaming
  ∧ handleError 2000 "msg_1000" (stopStreaming streaming) = stopStreaming streaming
  ∧ handleMessageCompletion id 2000 3000 "msg_1000" "late" None
      (Normal {| response_text := "late"; actionResult := None; omniParserResult := None |})
      [] None (stopStreaming streaming)
    = Normal (stopStreaming streaming).
Proof.
  exact (stopStreaming_silences id 2000 3000 "msg_1000" "late" "late" None
           (Normal {| response_text := "late"; actionResult := None;
                      omniParserResult := None |})
           [] None streaming eq_refl).
Defined.

Lemma handleMessageCompletion_resume_settles_witness :
  ∃ h',
    handleMessageCompletion_resume 2000 3000 "Two links." None
      {| response_text := "Two links."; actionResult := None; omniParserResult := None |}
      (Some (Some (Scenario.element "Login" "10,10")))
      (set_refs Scenario.discovered_a streaming) = Normal h'
    ∧ consistent (refs h')
    ∧ ((isProcessing (refs h') = true ∧ isChatStreaming (refs h') = true
        ∧ ∃ request,
            requests (refs h')
            = requests (refs (set_refs Scenario.discovered_a streaming)) ++ [request])
       ∨ (isProcessing (refs h') = false ∧ isChatStreaming (refs h') = false
          ∧ requests (refs h') = requests (refs (set_refs Scenario.discovered_a streaming)))).
Proof.
  apply (handleMessageCompletion_resume_settles 2000 3000 "Two links." None
           {| response_text := "Two links."; actionResult := None; omniParserResult := None |}
           (Some (Some (Scenario.element "Login" "10,10")))
           (set_refs Scenario.discovered_a streaming)).
  split.
  - cbn [refs set_refs]. apply (bool_decide_unpack _). by vm_compute.
  - intros route Hr. cbn [refs set_refs] in *.
    assert (route = "https://x/a") as ->.
    { revert Hr. change (exploreRoute Scenario.discovered_a) with ["https://x/a"].
      by intros ->%list_elem_of_singleton. }
    eexists. vm_compute. reflexivity.
Defined.

End HookTheorems.

(** ** The chunks of a response *)

Module ChunkTheorems.
Import JS JSFacts ExploreChat ExploreHook HookTheorems.

Lemma updateLastMessage_last f ms p : updateLastMessage f (ms ++ [p]) = ms ++ [f p].
Proof.
  induction ms as [|m ms IH]; [done |].
  cbn [app updateLastMessage]. rewrite IH. by destruct ms.
Qed.

(** The response as it stood at the last chunk that is not white space. *)
Fixpoint last_shown (full : string) (arrivals : list (N * string)) : option string :=
  match arrivals with
  | [] => None
  | arrival :: rest =>
      match last_shown (full +:+ snd arrival) rest with
      | Some s => Some s
      | None => if truthy (trim (snd arrival)) then Some (full +:+ snd arrival) else None
      end
  end.

Lemma last_shown_last full arrivals now chunk :
  truthy (trim chunk) = true →
  last_shown full (arrivals ++ [(now, chunk)])
  = Some (full +:+ text_of (snd <$> arrivals) +:+ chunk).
Proof.
  intros Hv. revert full. induction arrivals as [|[t c] arrivals IH]; intros full.
  - cbn [app last_shown fmap list_fmap text_of snd]. by rewrite Hv.
  - cbn [app last_shown fmap list_fmap text_of snd]. rewrite IH. by rewrite !append_assoc.
Qed.

Lemma text_of_snoc chunks chunk : text_of (chunks ++ [chunk]) = text_of chunks +:+ chunk.
Proof.
  induction chunks as [|c chunks IH]; cbn [app text_of]; [apply append_nil_r |].
  by rewrite IH, append_assoc.
Qed.

Definition show (text : option string) (p : ChatMessage) : ChatMessage :=
  match text with
  | Some s => with_text s p
  | None => p
  end.

Lemma chunks_after_partial messageId arrivals h full ms p :
  is_active messageId h = true → hasPartialMessage h = true → messages h = ms ++ [p] →
  fold_left (onChunk messageId) arrivals (h, full)
  = (setMessages (fun _ => ms ++ [show (last_shown full arrivals) p]) h,
     full +:+ text_of (snd <$> arrivals)).
Proof.
  revert h full p. induction arrivals as [|[t c] arrivals IH]; intros h full p Ha Hp Hm.
  - cbn. rewrite append_nil_r. f_equal. destruct h. cbn in *. by rewrite Hm.
  - cbn [fold_left fmap list_fmap text_of last_shown snd].
    unfold onChunk at 2. cbn [fst snd]. unfold handleMessageChunk. rewrite Ha, Hp.
    cbn [negb orb andb]. rewrite orb_false_r.
    destruct (truthy (trim c)) eqn:Hv; cbn [negb].
    + rewrite (IH _ _ (with_text (full +:+ c) p)); [| done | done |].
      2:{ cbn. by rewrite Hm, updateLastMessage_last. }
      rewrite append_assoc. f_equal.
      destruct (last_shown (full +:+ c) arrivals); done.
    + rewrite (IH _ _ p) by done. rewrite append_assoc. f_equal.
      by destruct (last_shown (full +:+ c) arrivals).
Qed.

Lemma not_same_message newMessage prev :
  Forall (fun msg => timestamp msg ≠ timestamp newMessage) prev →
  addMessage newMessage prev = prev ++ [newMessage].
Proof.
  intros H. unfold addMessage.
  assert (existsb (fun msg => same_message msg newMessage) prev = false) as ->; [| done].
  apply not_true_is_false. intros (msg & Hin%list_elem_of_In & Hs)%existsb_exists.
  rewrite Forall_forall in H. apply (H _ Hin).
  unfold same_message in Hs. apply andb_true_iff in Hs as [_ Ht]. by apply N.eqb_eq.
Qed.

(** X17: while a turn streams, the chunks of the response end up in one partial
    message.  After a chunk that is not white space the hook shows the
    messages it had and then one partial message of the assistant, whose text
    is all the chunks received so far, one after the other (those of white
    space too), and whose time is that of the first chunk that was not white
    space (a time that no earlier message carries). *)
Theorem chunks_accumulate messageId arrivals now chunk t0 h :
  is_active messageId h = true → hasPartialMessage h = false →
  truthy (trim chunk) = true →
  first_visible (arrivals ++ [(now, chunk)]) = Some t0 →
  Forall (fun msg => timestamp msg ≠ t0) (messages h) →
  fold_left (onChunk messageId) (arrivals ++ [(now, chunk)]) (h, "")
  = (setMessages
       (fun prev => prev ++ [ {| msg_text := text_of (snd <$> arrivals) +:+ chunk;
                                 timestamp := t0; isUser := false; isPartial := true;
                                 isHistory := false |} ])
       (set_hasPartialMessage true h),
     text_of (snd <$> arrivals) +:+ chunk).
Proof.
  intros Ha Hp Hv.
  assert (∀ full,
    first_visible (arrivals ++ [(now, chunk)]) = Some t0 →
    Forall (fun msg => timestamp msg ≠ t0) (messages h) →
    fold_left (onChunk messageId) (arrivals ++ [(now, chunk)]) (h, full)
    = (setMessages
         (fun prev => prev ++ [ {| msg_text := full +:+ text_of (snd <$> arrivals) +:+ chunk;
                                   timestamp := t0; isUser := false; isPartial := true;
                                   isHistory := false |} ])
         (set_hasPartialMessage true h),
       full +:+ text_of (snd <$> arrivals) +:+ chunk)) as Hgen.
  { induction arrivals as [|[t c] arrivals IH]; intros full Hf Hfresh.
    - cbn [app first_visible] in Hf. rewrite Hv in Hf. injection Hf as ->.
      cbn [app fold_left fmap list_fmap text_of snd]. unfold onChunk. cbn [fst snd].
      unfold handleMessageChunk. rewrite Ha, Hp, Hv. cbn [negb orb andb].
      unfold setMessages. cbn [messages set_hasPartialMessage refs hasPartialMessage
                                 latestOmniParserResult type_set].
      by rewrite not_same_message.
    - cbn [app fold_left fmap list_fmap text_of snd first_visible] in *.
      unfold onChunk at 2. cbn [fst snd]. unfold handleMessageChunk. rewrite Ha, Hp.
      cbn [negb orb andb]. rewrite orb_false_r.
      destruct (truthy (trim c)) eqn:Hc; cbn [negb].
      + injection Hf as ->.
        rewrite (chunks_after_partial _ _ _ _ (messages h)
                   {| msg_text := full +:+ c; timestamp := t0; isUser := false;
                      isPartial := true; isHistory := false |}); [| done | done |].
        2:{ cbn [setMessages messages set_hasPartialMessage]. by rewrite not_same_message. }
        rewrite last_shown_last by done. unfold setMessages, show, with_text.
        cbn [messages set_hasPartialMessage refs hasPartialMessage latestOmniParserResult
               type_set timestamp isUser isPartial isHistory].
        rewrite fmap_app. change (snd <$> [(now, chunk)]) with [chunk].
        by rewrite text_of_snoc, !append_assoc.
      + rewrite IH by done. by rewrite !append_assoc. }
  intros Hf Hfresh. exact (Hgen "" Hf Hfresh).
Qed.

Lemma chunks_accumulate_witness :
  fold_left (onChunk "msg_1000") [(2000, " "); (2001, "Two "); (2002, "links.")]%N
    (streaming, "")
  = (setMessages
       (fun prev => prev ++ [ {| msg_text := " Two links."; timestamp := 2001;
                                 isUser := false; isPartial := true; isHistory := false |} ])
       (set_hasPartialMessage true streaming),
     " Two links.").
Proof.
  apply (chunks_accumulate "msg_1000" [(2000, " "); (2001, "Two ")]%N 2002%N "links." 2001%N
           streaming).
  - vm_compute. reflexivity.
  - reflexivity.
  - reflexivity.
  - reflexivity.
  - constructor.
Defined.

(** *** Stopping in the middle of a response *)

(** X28: [stopStreaming] looks for a partial message in [messagesRef], which is
    the list of the last render.  Called while the chat streams, after a
    render of a list that ends in a partial message, it settles that message
    into the history and leaves the others as they are; called when
    [messagesRef] holds no partial message, because the partial message was
    added since the last render, it leaves [messages] as it is, partial
    message included. *)
Theorem stopStreaming_archives_rendered h :
  isChatStreaming (refs h) = true →
  (∀ prev lastMessage,
     messages h = prev ++ [lastMessage] → isPartial lastMessage = true →
     messages (stopStreaming (render h)) = prev ++ [archived lastMessage])
  ∧ (existsb isPartial (messagesRef (refs h)) = false →
     messages (stopStreaming h) = messages h).
Proof.
  intros Hs. split.
  - intros prev lastMessage Hm Hp. unfold stopStreaming, render.
    cbn. rewrite Hs. cbn.
    rewrite Hm, existsb_app. cbn [existsb]. rewrite Hp, orb_true_r.
    cbn. rewrite Hm. apply updateLastMessage_last.
  - intros Hn. unfold stopStreaming. rewrite Hs. cbn. by rewrite Hn.
Qed.

Lemma stopStreaming_archives_rendered_witness :
  messages (stopStreaming
              (render (handleMessageChunk 2001 "msg_1000" "Two " "Two " streaming)))
  = [ {| msg_text := "Two "; timestamp := 2001; isUser := false; isPartial := false;
         isHistory := true |} ]
  ∧ messages (stopStreaming (handleMessageChunk 2001 "msg_1000" "Two " "Two " streaming))
    = [ {| msg_text := "Two "; timestamp := 2001; isUser := false; isPartial := true;
           isHistory := false |} ].
Proof.
  split.
  - apply (proj1 (stopStreaming_archives_rendered
                    (handleMessageChunk 2001 "msg_1000" "Two " "Two " streaming)
                    eq_refl) []
             {| msg_text := "Two "; timestamp := 2001; isUser := false; isPartial := true;
                isHistory := false |}); reflexivity.
  - rewrite (proj2 (stopStreaming_archives_rendered
                      (handleMessageChunk 2001 "msg_1000" "Two " "Two " streaming)
                      eq_refl)); reflexivity.
Defined.

End ChunkTheorems.

(** ** The provider: the first successful attempt and the page router *)

Module ProviderRunTheorems.
Import JS Provider ProviderRun ProviderTheorems.

Lemma processStream_succeeds res img stream :
  throws stream = false →
  processStream res img (Streams stream)
  = (true, res ++ forward_chunks (chunks stream) [] ++ [complete_event img]).
Proof.
  intros H. unfold processStream, processStreamResponse, sendStreamResponse. rewrite H.
  by rewrite forward_chunks_app, <- app_assoc.
Qed.

Lemma retry_loop_first_success n k i attempts img res stream :
  k < n →
  (∀ j, j < k → fails (attempts (i + j)) = true) →
  attempts (i + k) = Streams stream → throws stream = false →
  retry_loop (replicate n 0) i attempts img res
  = (true, res ++ concat ((fun j => failed_events (attempts (i + j))) <$> seq 0 k)
             ++ forward_chunks (chunks stream) [] ++ [complete_event img]).
Proof.
  revert n i res. induction k as [|k IH]; intros n i res Hk Hfail Hs Ht;
    (destruct n as [|n]; [lia |]); cbn [replicate retry_loop].
  - rewrite Nat.add_0_r in Hs. rewrite Hs, processStream_succeeds by done. done.
  - rewrite processStream_fails.
    2:{ rewrite <- (Nat.add_0_r i). apply Hfail. lia. }
    rewrite (IH n (S i) _ ltac:(lia));
      [| | by replace (S i + k) with (i + S k) by lia | done].
    2:{ intros j Hj. replace (S i + j) with (i + S j) by lia. apply Hfail. lia. }
    cbn [seq fmap list_fmap concat]. rewrite Nat.add_0_r, <- !app_assoc.
    do 3 f_equal. rewrite <- fmap_S_seq, <- list_fmap_compose.
    do 2 f_equal. apply list_fmap_ext. intros _ j _. cbn. do 2 f_equal. lia.
Qed.

Lemma forward_chunks_counts cs :
  List.filter is_terminal_error (forward_chunks cs []) = []
  ∧ List.filter is_completion (forward_chunks cs []) = []
  ∧ List.filter is_retrying (forward_chunks cs []) = [].
Proof.
  pose proof (forward_chunks_plain cs) as H.
  induction H as [|d l (He & Hc & Hm) _ (IH1 & IH2 & IH3)]; [done |].
  cbn. unfold is_terminal_error, is_completion, is_retrying in *.
  by rewrite He, Hc, IH1, IH2, IH3.
Qed.

(** X18: when the attempt number [k], with [k < retryCount], is the first that
    does not fail, [streamResponse] writes for each of the [k] failed attempts
    the deltas it had received and one notice of the retry, then the deltas of
    the stream that succeeded, then exactly one completion event, and no
    terminal error event.  ([generateComponentDescription], awaited first for
    [EXPLORE], must not have thrown.) *)
Theorem streamResponse_first_success res type img description attempts retryCount k stream :
  (type = EXPLORE → ∃ b, description = Normal b) →
  k < retryCount →
  (∀ j, j < k → fails (attempts j) = true) →
  attempts k = Streams stream → throws stream = false →
  ∃ written,
    streamResponse res type img description attempts retryCount
    = Normal (res ++ written ++ [complete_event img])
    ∧ written = concat (failed_events <$> (attempts <$> seq 0 k))
                  ++ forward_chunks (chunks stream) []
    ∧ List.length (List.filter is_retrying written) = k
    ∧ List.filter is_terminal_error (written ++ [complete_event img]) = []
    ∧ List.length (List.filter is_completion (written ++ [complete_event img])) = 1.
Proof.
  intros Hd Hk Hfail Hs Ht. eexists. split; [| split; [reflexivity |]].
  - unfold streamResponse.
    assert (match type with
            | EXPLORE => bind description (fun _ => Normal tt)
            | ACTION => Normal tt
            end = Normal tt) as ->.
    { destruct type; [| done]. by destruct (Hd eq_refl) as [b ->]. }
    cbn [bind]. rewrite (retry_loop_first_success _ k 0 _ _ _ stream) by done.
    rewrite <- !app_assoc. do 3 f_equal. by rewrite <- list_fmap_compose.
  - destruct (concat_failed_counts (attempts <$> seq 0 k)) as (H1 & H2 & H3).
    destruct (forward_chunks_counts (chunks stream)) as (F1 & F2 & F3).
    rewrite !List.filter_app, !length_app, H1, H2, H3, F1, F2, F3, length_fmap, length_seq.
    cbn. split; [lia | done].
Qed.

Lemma streamResponse_first_success_witness :
  ∃ written,
    streamResponse [] ACTION None (Normal true)
      (fun i => match i with
                | 0 => RequestThrows
                | _ => Streams {| chunks := [ {| chunk_type := "content_block_delta";
                                                 delta_text := Some "Hello" |} ];
                                  throws := false |}
                end) 3
    = Normal ([] ++ written ++ [complete_event None])
    ∧ written = concat (failed_events
                          <$> ((fun i => match i with
                                         | 0 => RequestThrows
                                         | _ => Streams {| chunks := [ {| chunk_type := "content_block_delta";
                                                                          delta_text := Some "Hello" |} ];
                                                           throws := false |}
                                         end) <$> seq 0 1))
                  ++ forward_chunks [ {| chunk_type := "content_block_delta";
                                         delta_text := Some "Hello" |} ] []
    ∧ List.length (List.filter is_retrying written) = 1
    ∧ List.filter is_terminal_error (written ++ [complete_event None]) = []
    ∧ List.length (List.filter is_completion (written ++ [complete_event None])) = 1.
Proof.
  apply (streamResponse_first_success [] ACTION None (Normal true) _ 3 1
           {| chunks := [ {| chunk_type := "content_block_delta"; delta_text := Some "Hello" |} ];
              throws := false |}).
  - intros H. discriminate H.
  - lia.
  - intros [|j] Hj; [reflexivity | lia].
  - reflexivity.
  - reflexivity.
Defined.

(** X20: [generateComponentDescription] returns [true] only for a page that was
    not in [pageRouter], and then leaves [pageRouter] as it found it: the URL
    it added is deleted again. *)
Theorem generateComponentDescription_restores getCurrentUrl getLatestScreenshot create save
    pageRouter pageRouter' :
  generateComponentDescription getCurrentUrl getLatestScreenshot create save pageRouter
  = (Normal true, pageRouter') →
  ∃ pageUrl,
    getCurrentUrl = Normal pageUrl ∧ (pageUrl ∉ pageRouter) ∧ pageRouter' = pageRouter.
Proof.
  unfold generateComponentDescription.
  destruct getCurrentUrl as [pageUrl|]; [| done].
  destruct getLatestScreenshot as [screenshot|]; [| done].
  case_bool_decide as Hin; [done |].
  destruct screenshot; [| done].
  destruct create as [[|c cs]|]; [done | | done].
  destruct save; [| done]. intros [= <-]. exists pageUrl.
  split; [done |]. split; [done |]. set_solver.
Qed.

Lemma generateComponentDescription_restores_witness :
  ∃ pageUrl,
    Normal "https://x/a" = Normal pageUrl
    ∧ (pageUrl ∉ ({[ "https://x/b" ]} : gset string))
    ∧ ({[ "https://x/b" ]} : gset string) = {[ "https://x/b" ]}.
Proof.
  apply (generateComponentDescription_restores (Normal "https://x/a")
           (Normal (Some "data:image/png;base64,AAAA")) (Normal ["A login form."])
           (Normal tt) {[ "https://x/b" ]} {[ "https://x/b" ]}).
  vm_compute. reflexivity.
Defined.

(** X21: when [generateComponentDescription] throws after the URL and the
    screenshot were obtained (no image, a failed model call, no content block,
    or a failed save), the URL stays in [pageRouter]: every later call for the
    same page returns [false] without describing it, and [pageRouter] stays as
    it is. *)
Theorem generateComponentDescription_stuck pageUrl screenshot create save pageRouter e
    pageRouter' :
  generateComponentDescription (Normal pageUrl) (Normal screenshot) create save pageRouter
  = (Throw e, pageRouter') →
  pageUrl ∈ pageRouter'
  ∧ ∀ screenshot' create' save',
      generateComponentDescription (Normal pageUrl) (Normal screenshot') create' save'
        pageRouter'
      = (Normal false, pageRouter').
Proof.
  unfold generateComponentDescription. case_bool_decide as Hin; [done |].
  assert (pageUrl ∈ ({[pageUrl]} ∪ pageRouter : gset string)) as Hnow by set_solver.
  intros H.
  assert (pageRouter' = {[pageUrl]} ∪ pageRouter) as ->.
  { destruct screenshot; [| by injection H].
    destruct create as [[|c cs]|]; [by injection H | | by injection H].
    destruct save; [done | by injection H]. }
  split; [done |]. intros screenshot' create' save'. by rewrite bool_decide_eq_true_2.
Qed.

Lemma generateComponentDescription_stuck_witness :
  "https://x/a" ∈ ({[ "https://x/a" ]} ∪ ∅ : gset string)
  ∧ ∀ screenshot' create' save',
      generateComponentDescription (Normal "https://x/a") (Normal screenshot') create' save'
        ({[ "https://x/a" ]} ∪ ∅)
      = (Normal false, {[ "https://x/a" ]} ∪ ∅).
Proof.
  apply (generateComponentDescription_stuck "https://x/a" (Some "data:image/png;base64,AAAA")
           (Throw "overloaded_error") (Normal tt) ∅ "overloaded_error").
  unfold generateComponentDescription. rewrite bool_decide_eq_false_2; [done |].
  apply not_elem_of_empty.
Defined.

End ProviderRunTheorems.

(** ** The Docker VNC service *)

Module DockerTheorems.
Import JS DockerVNCService.

Definition same_service (s s' : Service) : Prop :=
  isConnected s' = isConnected s ∧ isInitialized s' = isInitialized s
  ∧ containerId s' = containerId s ∧ emitted s' = emitted s.

Definition both_ready (st : ServiceStatus) : bool := vncReady st && noVncReady st.

Definition waiting (check : nat → completion ServiceStatus) (i : nat) : Prop :=
  ∃ st, check i = Normal st ∧ both_ready st = false.

Lemma waitForServices_loop_frame remaining attempts check s :
  same_service s (snd (fst (waitForServices_loop remaining attempts check s)))
  ∧ snd (waitForServices_loop remaining attempts check s) ≤ attempts + remaining.
Proof.
  revert attempts s. induction remaining as [|remaining IH]; intros attempts s;
    cbn [waitForServices_loop].
  - cbn. split; [done | lia].
  - destruct (check attempts) as [st | e]; [| cbn; split; [done | lia]].
    destruct (vncReady st && noVncReady st); [cbn; split; [done | lia] |].
    match goal with
    | |- same_service _ (snd (fst (waitForServices_loop _ _ _ ?s1))) ∧ _ =>
        destruct (IH (S attempts) s1) as [Hsame Hle];
        assert (same_service s s1) as Hs1
    end.
    { destruct (attempts mod 5 =? 0)%nat; [| done].
      by destruct (vncReady st), (noVncReady st). }
    split; [| lia].
    destruct Hsame as (H1 & H2 & H3 & H4), Hs1 as (G1 & G2 & G3 & G4).
    unfold same_service. rewrite H1, H2, H3, H4. done.
Qed.

Lemma waitForServices_loop_ready n remaining attempts check s st :
  n < remaining →
  (∀ i, i < n → waiting check (attempts + i)) →
  check (attempts + n) = Normal st → both_ready st = true →
  fst (fst (waitForServices_loop remaining attempts check s)) = Normal tt
  ∧ snd (waitForServices_loop remaining attempts check s) = S (attempts + n).
Proof.
  revert remaining attempts s. induction n as [|n IH]; intros remaining attempts s Hn Hw Hc Hb;
    (destruct remaining as [|remaining]; [lia |]); cbn [waitForServices_loop].
  - rewrite Nat.add_0_r in *. rewrite Hc. fold (both_ready st). rewrite Hb. done.
  - destruct (Hw 0) as (st0 & Hc0 & Hb0); [lia |]. rewrite Nat.add_0_r in Hc0.
    rewrite Hc0. fold (both_ready st0). rewrite Hb0.
    replace (attempts + S n) with (S attempts + n) in * by lia.
    apply IH; [lia | | done | done].
    intros i Hi. replace (S attempts + i) with (attempts + S i) by lia. apply Hw. lia.
Qed.

Lemma waitForServices_loop_timeout remaining attempts check s :
  (∀ i, i < remaining → waiting check (attempts + i)) →
  fst (fst (waitForServices_loop remaining attempts check s))
  = Throw ("Timeout waiting for services to start. "
             +:+ "Please check Docker logs for more information.")
  ∧ snd (waitForServices_loop remaining attempts check s) = attempts + remaining.
Proof.
  revert attempts s. induction remaining as [|remaining IH]; intros attempts s Hw;
    cbn [waitForServices_loop].
  - cbn. split; [done | lia].
  - destruct (Hw 0) as (st0 & Hc0 & Hb0); [lia |]. rewrite Nat.add_0_r in Hc0.
    rewrite Hc0. fold (both_ready st0). rewrite Hb0.
    replace (attempts + S remaining) with (S attempts + remaining) by lia.
    apply IH. intros i Hi. replace (S attempts + i) with (attempts + S i) by lia.
    apply Hw. lia.
Qed.

(** X22: with a container id, [waitForServices] polls at most 60 times.  When
    the poll number [n] (from 0, [n < 60]) is the first that finds both
    services ready, it resolves after [n + 1] polls; when none of the 60 polls
    does, it throws the timeout error after 60 polls. *)
Theorem waitForServices_polls docker s :
  truthy_id (containerId s) = true →
  snd (waitForServices docker s) ≤ maxAttempts
  ∧ (∀ n st, n < maxAttempts →
             not_ready_before (checkServiceDetailed docker) n →
             checkServiceDetailed docker n = Normal st →
             vncReady st && noVncReady st = true →
             fst (fst (waitForServices docker s)) = Normal tt
             ∧ snd (waitForServices docker s) = S n)
  ∧ (not_ready_before (checkServiceDetailed docker) maxAttempts →
     fst (fst (waitForServices docker s))
     = Throw ("Timeout waiting for services to start. "
                +:+ "Please check Docker logs for more information.")
     ∧ snd (waitForServices docker s) = maxAttempts).
Proof.
  intros Hid. unfold waitForServices. rewrite Hid. cbn [negb].
  set (s1 := emitConsoleLog _ _ s). repeat split.
  - by destruct (waitForServices_loop_frame maxAttempts 0 (checkServiceDetailed docker) s1).
  - by eapply (waitForServices_loop_ready n maxAttempts 0).
  - by eapply (waitForServices_loop_ready n maxAttempts 0).
  - by apply (waitForServices_loop_timeout maxAttempts 0).
  - by apply (waitForServices_loop_timeout maxAttempts 0).
Qed.

Lemma waitForServices_polls_witness :
  snd (waitForServices slow_start stored) ≤ maxAttempts
  ∧ (∀ n st, n < maxAttempts →
             not_ready_before (checkServiceDetailed slow_start) n →
             checkServiceDetailed slow_start n = Normal st →
             vncReady st && noVncReady st = true →
             fst (fst (waitForServices slow_start stored)) = Normal tt
             ∧ snd (waitForServices slow_start stored) = S n)
  ∧ (not_ready_before (checkServiceDetailed slow_start) maxAttempts →
     fst (fst (waitForServices slow_start stored))
     = Throw ("Timeout waiting for services to start. "
                +:+ "Please check Docker logs for more information.")
     ∧ snd (waitForServices slow_start stored) = maxAttempts).
Proof. exact (waitForServices_polls slow_start stored eq_refl). Defined.

Lemma waitForServices_frame docker s :
  same_service s (snd (fst (waitForServices docker s)))
  ∧ (fst (fst (waitForServices docker s)) = Normal tt → truthy_id (containerId s) = true).
Proof.
  unfold waitForServices. destruct (truthy_id (containerId s)); cbn [negb]; [| done].
  split; [| done].
  destruct (waitForServices_loop_frame maxAttempts 0 (checkServiceDetailed docker)
              (emitConsoleLog "info" "Waiting for VNC services to start..." s)) as [H _].
  done.
Qed.

(** *** [initialize] *)

Definition settled_flags (o : Outcome ActionResponse) : Prop :=
  match o with
  | (Normal r, s) =>
      status r = "success" ∧ isInitialized s = true ∧ isConnected s = true
      ∧ truthy_id (containerId s) = true
  | (Throw _, s) => True
  end.

Lemma launch_settled docker (cond : bool) s r :
  isInitialized s = true → isConnected s = true → truthy_id (containerId s) = true →
  status r = "success" →
  settled_flags
    (and_then (if cond then launch docker s else (Normal tt, s))
       (fun _ s => (Normal r, s))).
Proof.
  intros. destruct cond; [| by cbn]. unfold launch.
  by destruct (settles (launchFirefoxWithUrl docker)).
Qed.

Lemma wait_then docker s (f : unit → Service → Outcome ActionResponse) :
  (∀ s', same_service s s' → truthy_id (containerId s) = true → settled_flags (f tt s')) →
  settled_flags (and_then (let '(r, s, _) := waitForServices docker s in (r, s)) f).
Proof.
  intros Hf. destruct (waitForServices_frame docker s) as [Hsame Hid].
  destruct (waitForServices docker s) as [[[[]|e] s'] polls]; cbn in *; [| done].
  by apply Hf, Hid.
Qed.

(** X23: whatever Docker answers, [initialize] leaves the service in one of two
    states.  When it resolves, the status is [success], [isInitialized] and
    [isConnected] are set and a container id is stored; when it throws, both
    flags are cleared, also when they were set before the call. *)
Theorem initialize_flags docker url s :
  match initialize docker url s with
  | (Normal r, s') =>
      status r = "success" ∧ isInitialized s' = true ∧ isConnected s' = true
      ∧ truthy_id (containerId s') = true
  | (Throw _, s') => isInitialized s' = false ∧ isConnected s' = false
  end.
Proof.
  unfold initialize.
  match goal with
  | |- match (match ?o with _ => _ end) with _ => _ end =>
      assert (settled_flags o) as H; [| by destruct o as [[r | e] s']]
  end.
  unfold await. destruct (checkContainerStatus docker) as [cs | e]; [| done].
  cbn [and_then].
  destruct (exists_ cs && truthy_id (id cs)) eqn:Ecs.
  - apply andb_true_iff in Ecs as [_ Hid]. unfold connect_existing.
    destruct (negb (running cs)).
    + unfold await. destruct (startContainer docker); [| done]. cbn [and_then].
      apply wait_then. intros s' (H1 & H2 & H3 & H4) _.
      apply launch_settled; cbn; by rewrite ?H3.
    + cbn [and_then]. apply wait_then. intros s' (H1 & H2 & H3 & H4) _.
      apply launch_settled; cbn; by rewrite ?H3.
  - unfold create_new, ensureImageExists. destruct (images docker); [| done].
    cbn [and_then]. unfold await. destruct (createContainer docker) as [cid | e]; [| done].
    cbn [and_then]. apply wait_then. intros s' (H1 & H2 & H3 & H4) Hid.
    apply launch_settled; cbn; by rewrite ?H3.
Qed.

(** *** [performAction] *)

(** X24: [performAction] never rejects: whatever Docker does, it resolves to a
    response.  While the service is not initialized, not connected or without
    a container id, and always after [cleanup], the response is the error
    [VNC not initialized], and the service is left as it is. *)
Theorem performAction_answers docker action url s :
  (∃ r s', performAction docker action url s = (Normal r, s'))
  ∧ (ready s = false →
     performAction docker action url s
     = (Normal {| status := "error"; message := "VNC not initialized"; screenshot := None |},
        s))
  ∧ performAction docker action url (cleanup s)
    = (Normal {| status := "error"; message := "VNC not initialized"; screenshot := None |},
       cleanup s).
Proof.
  split; [| split]; [| by unfold performAction; intros -> | done].
  unfold performAction. destruct (ready s) eqn:Hr; cbn [negb]; [| by eexists _, _].
  destruct (String.eqb action "launch" && truthy_id url).
  - unfold launch. destruct (settles (launchFirefoxWithUrl docker)); cbn [and_then];
      [| by eexists _, _].
    unfold takeScreenshot.
    match goal with
    | |- context [ready ?s1] => change (ready s1) with (ready s)
    end.
    rewrite Hr. cbn [negb].
    destruct (takeScreenshotCommand docker); cbn [and_then]; by eexists _, _.
  - destruct (dockerPerformAction docker); by eexists _, _.
Qed.

Lemma performAction_answers_witness :
  performAction slow_start "click" None stored
  = (Normal {| status := "error"; message := "VNC not initialized"; screenshot := None |},
     stored).
Proof.
  apply (proj1 (proj2 (performAction_answers slow_start "click" None stored))).
  reflexivity.
Defined.

End DockerTheorems.

(** ** The screen stream *)

Module SSETheorems.
Import JS SSEService.

Lemma handle_quiet s e :
  is_open e = false →
  (timers (handle s e) = timers s ∧ reconnectAttempts (handle s e) = reconnectAttempts s)
  ∨ (reconnectAttempts s < maxReconnectAttempts
     ∧ reconnectAttempts (handle s e) = S (reconnectAttempts s)
     ∧ ∃ endpoint, timers (handle s e)
                   = timers s ++ [(reconnectTimeout * 2 ^ reconnectAttempts s, endpoint)]).
Proof.
  destruct e as [url | | | error | data | endpoint]; cbn [is_open handle]; try done; intros _.
  - left. unfold connect. by destruct (eventSource s).
  - left. unfold disconnect. by destruct (eventSource s).
  - destruct (eventSource s) as [endpoint|] eqn:Es; [| by left].
    unfold onerror, disconnect. cbn [dispatchEvent eventSource]. rewrite Es.
    cbn [dispatchEvent reconnectAttempts timers].
    destruct (Nat.ltb_spec (reconnectAttempts s) maxReconnectAttempts); [| by left].
    right. split; [done |]. split; [done |]. exists endpoint. cbn.
    by rewrite Nat.sub_0_r.
  - left. destruct (eventSource s); [| done]. unfold onmessage.
    by destruct (bind _ _).
  - left. unfold reconnect, connect. cbn. by destruct (eventSource s).
Qed.

(** X25: as long as no connection opens, whatever else happens (calls of
    [connect] and [disconnect], errors, messages, timers that fire), the
    service schedules at most [5 - reconnectAttempts] further reconnections,
    and their delays double: the one number [j] is scheduled with
    [3000 * 2 ^ (reconnectAttempts + j)] milliseconds. *)
Theorem reconnects_bounded events s :
  forallb (fun e => negb (is_open e)) events = true →
  ∃ k endpoints,
    k ≤ maxReconnectAttempts - reconnectAttempts s
    ∧ List.length endpoints = k
    ∧ reconnectAttempts (fold_left handle events s) = reconnectAttempts s + k
    ∧ timers (fold_left handle events s)
      = timers s
          ++ zip ((fun j => reconnectTimeout * 2 ^ (reconnectAttempts s + j)) <$> seq 0 k)
               endpoints.
Proof.
  revert s. induction events as [|e events IH]; intros s; cbn [forallb fold_left].
  - intros _. exists 0, []. split; [lia |]. split; [done |]. split; [lia |].
    cbn. by rewrite app_nil_r.
  - intros [He Hes]%andb_true_iff. apply negb_true_iff in He.
    destruct (IH (handle s e) Hes) as (k & endpoints & Hk & Hl & Ha & Ht).
    destruct (handle_quiet s e He) as [[Ht' Ha'] | (Hlt & Ha' & endpoint & Ht')].
    + exists k, endpoints. rewrite Ha, Ht, Ha', Ht'. rewrite Ha' in Hk. done.
    + exists (S k), (endpoint :: endpoints). rewrite Ha, Ht, Ha', Ht'. rewrite Ha' in Hk.
      repeat split; [lia | cbn; lia | lia |].
      rewrite <- app_assoc. f_equal. cbn [seq fmap list_fmap zip zip_with app].
      rewrite Nat.add_0_r. f_equal. rewrite <- fmap_S_seq, <- list_fmap_compose.
      f_equal. apply list_fmap_ext. intros _ j _. cbv [compose].
      replace (S (reconnectAttempts s) + j) with (reconnectAttempts s + S j) by lia. done.
Qed.

Lemma reconnects_bounded_witness :
  ∃ k endpoints,
    k ≤ maxReconnectAttempts - reconnectAttempts initial
    ∧ List.length endpoints = k
    ∧ reconnectAttempts
        (fold_left handle
           [Connect None; Error "[object Event]"; TimerFired "http://localhost:3000/s";
            Error "[object Event]"; Error "[object Event]"] initial)
      = reconnectAttempts initial + k
    ∧ timers
        (fold_left handle
           [Connect None; Error "[object Event]"; TimerFired "http://localhost:3000/s";
            Error "[object Event]"; Error "[object Event]"] initial)
      = timers initial
          ++ zip ((fun j => reconnectTimeout * 2 ^ (reconnectAttempts initial + j))
                    <$> seq 0 k)
               endpoints.
Proof.
  exact (reconnects_bounded
           [Connect None; Error "[object Event]"; TimerFired "http://localhost:3000/s";
            Error "[object Event]"; Error "[object Event]"] initial eq_refl).
Defined.

End SSETheorems.

(** ** The URL bar of the preview *)

Module PreviewTheorems.
Import JS JSFacts Preview.

Definition well_kept (s : t) : Prop :=
  ∃ first rest,
    urlHistory s = first :: rest
    ∧ currentUrl s = List.last (urlHistory s) ""
    ∧ Forall (fun url => startsWith "http" url = true) rest.

Lemma last_snoc {A} (l : list A) x d : List.last (l ++ [x]) d = x.
Proof. induction l as [|y l IH]; [done |]. cbn. rewrite IH. by destruct l. Qed.

Lemma handle_well_kept s e : well_kept s → well_kept (handle s e).
Proof.
  intros (first & rest & Hh & Hc & Hr). destruct e as [input | newSource | |]; cbn [handle].
  - by exists first, rest.
  - by exists first, rest.
  - unfold handleUrlSubmit. destruct (_ && _); [| by exists first, rest].
    exists first, (rest ++ [if startsWith "http" (urlInput s) then urlInput s
                            else "https://" +:+ urlInput s]).
    cbn [currentUrl urlHistory]. rewrite Hh, app_comm_cons, last_snoc. repeat split.
    apply Forall_app. split; [done |]. constructor; [| done].
    destruct (startsWith "http" (urlInput s)) eqn:E; [done |].
    change ("https://" +:+ urlInput s) with ("http" +:+ ("s://" +:+ urlInput s)).
    apply startsWith_app.
  - unfold handleBackNavigation.
    destruct (_ && _) eqn:E; [| by exists first, rest].
    apply andb_true_iff in E as [E _]. apply Nat.ltb_lt in E. rewrite Hh in E |- *.
    destruct rest as [|r rest _] using rev_ind; [cbn in E; lia |].
    exists first, rest. cbn [currentUrl urlHistory].
    rewrite app_comm_cons, removelast_last. repeat split.
    by apply Forall_app in Hr as [Hr _].
Qed.

(** X26: whatever the user types, selects, submits and goes back from, the URL
    history of [usePreview] never becomes empty: its first entry stays the
    empty one of the start, [currentUrl] is its last entry, and every later
    entry starts with [http]. *)
Theorem history_never_empty source events :
  head (urlHistory (fold_left handle events (initial source))) = Some ""
  ∧ currentUrl (fold_left handle events (initial source))
    = List.last (urlHistory (fold_left handle events (initial source))) ""
  ∧ Forall (fun url => startsWith "http" url = true)
      (tail (urlHistory (fold_left handle events (initial source)))).
Proof.
  assert (∀ s, well_kept s → well_kept (fold_left handle events s)
                        ∧ head (urlHistory (fold_left handle events s)) = head (urlHistory s))
    as H.
  { induction events as [|e events IH]; intros s Hs; [done |]. cbn [fold_left].
    destruct (IH (handle s e) (handle_well_kept s e Hs)) as [Ht Hh]. split; [done |].
    rewrite Hh. clear -Hs. destruct Hs as (first & rest & Hh & _).
    destruct e as [input | newSource | |]; cbn [handle]; [done | done | |].
    - unfold handleUrlSubmit. destruct (_ && _); [| done]. cbn. by rewrite Hh.
    - unfold handleBackNavigation. destruct (_ && _) eqn:E; [| done]. cbn.
      rewrite Hh in *. destruct rest as [|r rest _] using rev_ind; [done |].
      by rewrite app_comm_cons, removelast_last. }
  destruct (H (initial source)) as [(first & rest & Hh & Hc & Hr) Hhead].
  { by exists "", []. }
  rewrite Hhead, Hc, Hh. repeat split; done.
Qed.

(** X27: for a source other than [chrome-puppeteer], going back right after
    submitting a URL that is not blank undoes the submission: the history is
    the one from before, and [currentUrl] and the input both show its last
    entry. *)
Theorem back_undoes_submit s :
  truthy (trim (urlInput s)) = true → is_puppeteer (streamingSource s) = false →
  urlHistory s ≠ [] →
  urlHistory (handleBackNavigation (handleUrlSubmit s)) = urlHistory s
  ∧ currentUrl (handleBackNavigation (handleUrlSubmit s)) = List.last (urlHistory s) ""
  ∧ urlInput (handleBackNavigation (handleUrlSubmit s)) = List.last (urlHistory s) "".
Proof.
  intros Hi Hs Hh. unfold handleUrlSubmit. rewrite Hi, Hs. cbn [negb andb].
  unfold handleBackNavigation. cbn [urlHistory streamingSource]. rewrite Hs.
  rewrite length_app. destruct (urlHistory s) as [|u l] eqn:E; [done |].
  cbn [List.length Nat.add]. replace (1 <? S (List.length l + 1))%nat with true.
  2:{ symmetry. apply Nat.ltb_lt. lia. }
  cbn [negb andb currentUrl urlHistory urlInput].
  by rewrite removelast_last.
Qed.

Lemma back_undoes_submit_witness :
  urlHistory (handleBackNavigation
                (handleUrlSubmit (setUrlInput "example.org"
                                    (initial CommonUtil.ubuntu_docker_vnc))))
  = [""]
  ∧ currentUrl (handleBackNavigation
                  (handleUrlSubmit (setUrlInput "example.org"
                                      (initial CommonUtil.ubuntu_docker_vnc))))
    = ""
  ∧ urlInput (handleBackNavigation
                (handleUrlSubmit (setUrlInput "example.org"
                                    (initial CommonUtil.ubuntu_docker_vnc))))
    = "".
Proof.
  apply (back_undoes_submit (setUrlInput "example.org" (initial CommonUtil.ubuntu_docker_vnc))).
  - reflexivity.
  - reflexivity.
  - discriminate.
Defined.

End PreviewTheorems.

(** ** The reader of the chat stream *)

Module ChatStreamTheorems.
Import JS ChatStream.

Section Reader.
Variable nonzero : string → bool.

#[local] Abbreviation handle := (ChatStream.handle nonzero).
#[local] Abbreviation run := (ChatStream.run nonzero).
#[local] Abbreviation on_read := (ChatStream.on_read nonzero).
#[local] Abbreviation on_lines := (ChatStream.on_lines nonzero).
#[local] Abbreviation on_line := (ChatStream.on_line nonzero).

(** *** Waiting *)





(** *** The loop over the lines *)

Definition is_chunk (c : Callback) : bool :=
  match c with
  | onChunk _ => true
  | _ => false
  end.

Definition same_but_called (s s' : t) : Prop :=
  hasReceivedMessage s' = hasReceivedMessage s
  ∧ connectionTimeout s' = connectionTimeout s
  ∧ reading s' = reading s ∧ cancelled s' = cancelled s.

Lemma on_line_calls line s :
  same_but_called s (snd (on_line line s))
  ∧ match fst (on_line line s) with
    | Return => ∃ c, ends_loop c = true ∧ called (snd (on_line line s)) = called s ++ [c]
    | _ => ∃ chunks, forallb is_chunk chunks = true
                     ∧ called (snd (on_line line s)) = called s ++ chunks
    end.
Proof.
  unfold ChatStream.on_line.
  destruct (startsWith "data: " line); [| split; [done |]; exists []; by rewrite app_nil_r].
  destruct (JSON.parse _) as [data|]; [| split; [done |]; exists []; by rewrite app_nil_r].
  destruct (SSEService.property "isComplete" data) as [isComplete|];
    [| split; [done |]; exists []; by rewrite app_nil_r].
  destruct (truthy_value nonzero isComplete); [split; [done |]; by exists onComplete |].
  destruct (truthy_value nonzero (read_property "isError" data));
    [split; [done |]; by eexists (onError (reported _)) |].
  destruct (read_property "message" data) as [message|];
    [| split; [done |]; exists []; by rewrite app_nil_r].
  destruct (truthy_value nonzero (Some message)).
  - split; [done |]. by exists [onChunk message].
  - split; [done |]. exists []. by rewrite app_nil_r.
Qed.

Lemma on_lines_calls lines s :
  same_but_called s (snd (on_lines lines s))
  ∧ ∃ chunks,
      forallb is_chunk chunks = true
      ∧ match fst (on_lines lines s) with
        | Return => ∃ c, ends_loop c = true
                         ∧ called (snd (on_lines lines s)) = called s ++ chunks ++ [c]
        | _ => called (snd (on_lines lines s)) = called s ++ chunks
        end.
Proof.
  revert s. induction lines as [|line lines IH]; intros s; cbn [ChatStream.on_lines].
  { split; [done |]. exists []. by rewrite app_nil_r. }
  destruct (on_line_calls line s) as [Hsame Hcalls].
  destruct (ChatStream.on_line nonzero line s) as [[| |e] s1] eqn:E; cbn [fst snd] in *.
  - destruct Hcalls as (chunks1 & Hc1 & Hcalled1).
    destruct (IH s1) as [Hsame2 (chunks2 & Hc2 & Hcalls2)].
    split.
    { destruct Hsame as (H1 & H2 & H3 & H4), Hsame2 as (G1 & G2 & G3 & G4).
      unfold same_but_called. by rewrite G1, G2, G3, G4. }
    exists (chunks1 ++ chunks2). split; [by rewrite forallb_app, Hc1, Hc2 |].
    destruct (fst (ChatStream.on_lines nonzero lines s1)).
    + by rewrite Hcalls2, Hcalled1, app_assoc.
    + destruct Hcalls2 as (c & Hc & Hcalls2). exists c. split; [done |].
      by rewrite Hcalls2, Hcalled1, <- !app_assoc.
    + by rewrite Hcalls2, Hcalled1, app_assoc.
  - split; [done |]. destruct Hcalls as (c & Hc & Hcalled1). exists []. split; [done |]. by exists c.
  - split; [done |]. destruct Hcalls as (chunks & Hc & Hcalled1). by exists chunks.
Qed.

(** What a read adds to the callbacks: chunks, and then at most the
    callback with which the loop ends. *)
Lemma on_read_calls value s :
  hasReceivedMessage (on_read value s) = true
  ∧ connectionTimeout (on_read value s) = None
  ∧ cancelled (on_read value s) = cancelled s
  ∧ ∃ chunks,
      forallb is_chunk chunks = true
      ∧ ((reading (on_read value s) = reading s
          ∧ called (on_read value s) = called s ++ chunks)
         ∨ (reading (on_read value s) = false
            ∧ ∃ c, ends_loop c = true ∧ called (on_read value s) = called s ++ chunks ++ [c])).
Proof.
  unfold ChatStream.on_read.
  match goal with
  | |- context [ChatStream.on_lines nonzero ?lines ?s0] =>
      destruct (on_lines_calls lines s0) as [(H1 & H2 & H3 & H4) (chunks & Hc & Hcalls)];
      destruct (ChatStream.on_lines nonzero lines s0) as [[| |e] s1]
  end; cbn [fst snd] in *; cbn [received clearTimeout hasReceivedMessage connectionTimeout
                                   reading cancelled called] in *.
  - repeat split; try done. exists chunks. split; [done |]. left. by split.
  - repeat split; try done. exists chunks. split; [done |]. right. split; [done |].
    destruct Hcalls as (c & Hc' & Hcalls). by exists c.
  - repeat split; try done. exists chunks. split; [done |]. right. split; [done |].
    exists (onError (thrown e)). split; [done |]. cbn. by rewrite Hcalls, <- app_assoc.
Qed.

(** *** After the first read the timer is gone *)

Lemma forallb_chunk_timeout chunks :
  forallb is_chunk chunks = true → List.filter is_timeout chunks = [].
Proof.
  induction chunks as [|c chunks IH]; [done |]. cbn.
  intros [Hc Hr]%andb_true_iff. destruct c as [chunk| |error]; try done. by apply IH.
Qed.

Lemma ends_loop_timeout c : ends_loop c = true → is_timeout c = false.
Proof. by destruct c as [chunk| |[]]. Qed.




(** *** The loop ends once *)

Definition goes_on (c : Callback) : bool := negb (ends_loop c).

Lemma well_ended_goes_on calls : forallb goes_on calls = true → well_ended calls = true.
Proof.
  induction calls as [|c calls IH]; [done |]. cbn. unfold goes_on at 1.
  intros [Hc Hr]%andb_true_iff. apply negb_true_iff in Hc. rewrite Hc. by apply IH.
Qed.

Lemma well_ended_last calls c :
  forallb goes_on calls = true → well_ended (calls ++ [c]) = true.
Proof.
  induction calls as [|c0 calls IH]; cbn.
  - intros _. by destruct (ends_loop c).
  - unfold goes_on at 1. intros [Hc Hr]%andb_true_iff. apply negb_true_iff in Hc.
    rewrite Hc. by apply IH.
Qed.

Lemma well_ended_timeout calls :
  well_ended calls = true → well_ended (calls ++ [onError connection_timeout]) = true.
Proof.
  induction calls as [|c calls IH]; [done |]. cbn. destruct (ends_loop c); [| done].
  intros H. by rewrite forallb_app, H.
Qed.

Lemma forallb_chunk_goes_on chunks :
  forallb is_chunk chunks = true → forallb goes_on chunks = true.
Proof.
  induction chunks as [|c chunks IH]; [done |]. cbn.
  intros [Hc Hr]%andb_true_iff. destruct c; try done. by apply IH.
Qed.

(** What holds of the reader at every moment. *)
Definition orderly (s : t) : Prop :=
  well_ended (called s) = true
  ∧ (reading s = true → forallb goes_on (called s) = true)
  ∧ List.length (List.filter is_timeout (called s)) ≤ 1
  ∧ (connectionTimeout s ≠ None → List.filter is_timeout (called s) = []).

Lemma elapse_calls ms s :
  reading (elapse ms s) = reading s
  ∧ ((called (elapse ms s) = called s ∧ connectionTimeout (elapse ms s) = connectionTimeout s)
     ∨ (connectionTimeout s ≠ None ∧ connectionTimeout (elapse ms s) = None
        ∧ (called (elapse ms s) = called s
           ∨ called (elapse ms s) = called s ++ [onError connection_timeout]))).
Proof.
  unfold elapse. cbn [connectionTimeout clock].
  destruct (connectionTimeout s) as [due|] eqn:Ed; [| split; [done | by left]].
  destruct (due <=? clock s + ms)%N; [| split; [done | by left]].
  unfold on_timer. cbn [clearTimeout hasReceivedMessage].
  destruct (hasReceivedMessage s); cbn; (split; [done |]); right;
    (split; [done |]); (split; [done |]); [by left | by right].
Qed.

Lemma handle_orderly s e : orderly s → orderly (handle s e).
Proof.
  intros Ho. pose proof Ho as (Hw & Hr & Hn & Ht).
  destruct e as [ms|value| |error|]; cbn [ChatStream.handle].
  - destruct (elapse_calls ms s) as [Hread [[Hc Hk] | (Hsome & Hnone & [Hc | Hc])]];
      unfold orderly; rewrite Hread, Hc.
    + by rewrite Hk.
    + by rewrite Hnone.
    + rewrite Hnone. repeat split; [by apply well_ended_timeout | | | done].
      * intros H. rewrite forallb_app, (Hr H). done.
      * rewrite List.filter_app, (Ht Hsome). cbn. lia.
  - destruct (reading s) eqn:Er; [| done].
    destruct (on_read_calls value s) as (_ & Hnone & _ & chunks & Hch & Hcalls).
    pose proof (forallb_chunk_goes_on _ Hch) as Hgo.
    pose proof (forallb_chunk_timeout _ Hch) as Hnt.
    unfold orderly. rewrite Hnone.
    destruct Hcalls as [[-> ->] | [-> (c & Hc' & ->)]].
    + repeat split; [| | | done].
      * apply well_ended_goes_on. by rewrite forallb_app, (Hr eq_refl), Hgo.
      * intros _. by rewrite forallb_app, (Hr eq_refl), Hgo.
      * by rewrite List.filter_app, Hnt, app_nil_r.
    + repeat split; [| done | | done].
      * rewrite app_assoc. apply well_ended_last.
        by rewrite forallb_app, (Hr eq_refl), Hgo.
      * rewrite !List.filter_app, Hnt. cbn. rewrite (ends_loop_timeout _ Hc').
        by rewrite !app_nil_r.
  - destruct (reading s) eqn:Er; [| done]. unfold orderly. cbn.
    repeat split; [by apply well_ended_last, Hr | done | | ].
    + by rewrite List.filter_app, app_nil_r.
    + intros H. by rewrite List.filter_app, (Ht H).
  - destruct (reading s) eqn:Er; [| done]. unfold orderly. cbn.
    repeat split; [by apply well_ended_last, Hr | done | | done].
    by rewrite List.filter_app, app_nil_r.
  - unfold orderly. cbn. repeat split; done.
Qed.

(** X19: whatever happens to the reader, its loop ends once: after the
    callback with which it ends ([onComplete], the error of an event or a
    thrown error) no chunk and no second such callback follows, only the error
    of the timer may; and the error of the timer is called at most once. *)
Theorem reader_ends_once now events :
  well_ended (called (run events (start now))) = true
  ∧ List.length (List.filter is_timeout (called (run events (start now)))) ≤ 1.
Proof.
  assert (∀ s, orderly s → orderly (run events s)) as H.
  { induction events as [|e events IH]; intros s Hs; [done |].
    cbn. apply IH. by apply handle_orderly. }
  destruct (H (start now)) as (Hw & _ & Hn & _); [| done].
  unfold orderly. cbn. repeat split; try done. lia.
Qed.

End Reader.



End ChatStreamTheorems.
